(** * vs/platform/storage/common/storage.ts

    A shallow embedding of [AbstractStorageService] and of its in-memory
    implementation [InMemoryStorageService], with the properties of the
    storage specification stated and proved over it.

    The file has three parts:
    - [JS]: the pieces of the JavaScript platform the service calls
      ([String], [parseInt], [JSON.parse], [JSON.stringify], property
      access on plain objects, [Object.entries]);
    - [Storage]: the service itself, method by method, in a small monad
      that threads the two caches and records the events fired; the
      abstract members of [AbstractStorageService] are a class, of which
      [InMemoryStorageService] is the instance;
    - the properties, all of them about the in-memory service: first the
      ones the specification states, then further ones read off the code.

    Conventions of the model.
    - A JavaScript string is a Rocq [string]; each [ascii] is one UTF-16
      code unit below 256 (the Latin-1 range).  A JSON text whose [\u]
      escapes leave that range is reported as [Unsupported].
    - A JavaScript number is a double (type [number]).  An integer double
      is [Int z] with its value [z]; [parseInt] and the integer literals of
      JSON round to the nearest double, and [String] prints the shortest
      digits that read back.  A non-integer double is given by those
      digits; a JSON text with a non-integer literal that would need
      rounding is reported as [Unsupported].  [+0] and [-0] are one value,
      as they are for [===].
    - A cache, a [Map<string,string>], is a [gmap string string]; its
      iteration order is only observed by [logStorage], which is modelled
      on maps given with their order of insertion. *)

From Stdlib Require Import ZArith NArith Ascii String List Bool Lia.
From stdpp Require Import base option list gmap strings fin_maps.

Local Open Scope Z_scope.
#[local] Arguments String.append _ _ : simpl nomatch.

(* ===================================================================== *)
(** * Part 1: the JavaScript platform                                     *)
(* ===================================================================== *)

Module JS.

(** ** Decimal digits *)

Definition digit_char (d : N) : ascii := ascii_of_N (48 + d).

(** [Some d] when [c] is one of the characters 0..9. *)
Definition digit_value (c : ascii) : option N :=
  let n := N_of_ascii c in
  if ((48 <=? n) && (n <=? 57))%N then Some (n - 48)%N else None.

Fixpoint decimal_fuel (fuel : nat) (n : N) (acc : string) : string :=
  match fuel with
  | O => acc
  | S fuel' =>
      let acc' := String (digit_char (n mod 10)) acc in
      if (n <? 10)%N then acc' else decimal_fuel fuel' (n / 10) acc'
  end.

(** The decimal numeral of [n], most significant digit first, no leading
    zero ("0" for zero). *)
Definition decimal (n : N) : string :=
  decimal_fuel (S (N.to_nat (N.log2 n))) n EmptyString.

(** Reads the longest prefix of decimal digits of [s] onto the accumulator
    [acc]; returns the value and the number of digits read. *)
Fixpoint read_digits (s : string) (acc : N) (count : nat) : N * nat :=
  match s with
  | EmptyString => (acc, count)
  | String c rest =>
      match digit_value c with
      | Some d => read_digits rest (acc * 10 + d)%N (S count)
      | None => (acc, count)
      end
  end.

Fixpoint zeros (n : nat) : string :=
  match n with
  | O => EmptyString
  | S n' => String "0" (zeros n')
  end.

(** Removes the zeros at the end of a digit string. *)
Fixpoint strip_trailing_zeros (s : string) : string :=
  match s with
  | EmptyString => EmptyString
  | String c rest =>
      match strip_trailing_zeros rest with
      | EmptyString => if Ascii.eqb c "0" then EmptyString else String c EmptyString
      | r => String c r
      end
  end.

Fixpoint take_string (n : nat) (s : string) : string :=
  match n, s with
  | S n', String c rest => String c (take_string n' rest)
  | _, _ => EmptyString
  end.

Fixpoint drop_string (n : nat) (s : string) : string :=
  match n, s with
  | S n', String _ rest => drop_string n' rest
  | _, _ => s
  end.

(** ** Numbers *)

(** A Number is a double.  [Int z] is the double whose value is the
    integer [z], so [z] is an integer a double holds ([is_double]).
    [Fraction neg s n] is the non-integer double for which
    Number::toString finds the digits [s] and the exponent [n]: the double
    nearest to [(-1)^neg * 0.s * 10^n], where [s] has no leading and no
    trailing zero and [n < length s]. *)
Inductive number : Type :=
| NaN
| Infinity (negative : bool)
| Int (z : Z)
| Fraction (negative : bool) (s : string) (n : Z).

Global Instance number_eq_dec : EqDecision number.
Proof. solve_decision. Defined.

(** Up to 2^53 every integer is a double. *)
Definition two53 : N := 9007199254740992.

(** The double nearest to the integer [n], a tie going to the even
    significand; [None] when [n] rounds beyond the largest double. *)
Definition nearest_double (n : N) : option N :=
  if (n <? two53)%N then Some n
  else
    let e := (N.log2 n - 52)%N in
    let q := N.shiftr n e in
    let r := (n - N.shiftl q e)%N in
    let half := N.shiftl 1 (e - 1) in
    let q' := if (r <? half)%N then q
              else if (half <? r)%N then (q + 1)%N
              else if N.even q then q else (q + 1)%N in
    if (N.log2 (N.shiftl q' e) <? 1024)%N then Some (N.shiftl q' e) else None.

Definition is_double (z : Z) : Prop := nearest_double (Z.abs_N z) = Some (Z.abs_N z).

(** Among the two multiples of [10^j] around the double [x], the one that
    reads back as [x] and is nearest to it, the even one on a tie. *)
Definition shortest_at (x : N) (j : N) : option N :=
  let p := (10 ^ j)%N in
  let lo := (x / p * p)%N in
  let hi := (lo + p)%N in
  let reads_back c :=
    match nearest_double c with
    | Some y => (y =? x)%N
    | None => false
    end in
  match reads_back lo, reads_back hi with
  | true, true =>
      if (x - lo <? hi - x)%N then Some lo
      else if (hi - x <? x - lo)%N then Some hi
      else if N.even (x / p) then Some lo else Some hi
  | true, false => Some lo
  | false, true => Some hi
  | false, false => None
  end.

Fixpoint shortest_from (x : N) (digits : N) (ks : list N) : N :=
  match ks with
  | [] => x
  | k :: rest =>
      match shortest_at x (digits - k) with
      | Some c => c
      | None => shortest_from x digits rest
      end
  end.

(** The integer [s * 10^(n-k)] of Number::toString for an integer double
    [x]: the fewest digits [s] that read back as [x] (17 always do).  Below
    2^53 that is [x] itself. *)
Definition shortest_decimal (x : N) : N :=
  if (x <? two53)%N then x
  else shortest_from x (N.of_nat (String.length (decimal x)))
         [1; 2; 3; 4; 5; 6; 7; 8; 9; 10; 11; 12; 13; 14; 15; 16; 17]%N.

(** Number::toString(x, 10) for a positive finite [x = 0.s * 10^n] with
    [k = length s] digits (ECMA-262, 6.1.6.1.20, steps 5 to 12). *)
Definition positive_toString (s : string) (n : Z) : string :=
  let k := Z.of_nat (String.length s) in
  if (-5 <=? n) && (n <=? 21) then
    if k <=? n then s +:+ zeros (Z.to_nat (n - k))
    else if 0 <? n then
      take_string (Z.to_nat n) s +:+ "." +:+ drop_string (Z.to_nat n) s
    else "0." +:+ zeros (Z.to_nat (- n)) +:+ s
  else
    let e := n - 1 in
    let exponent := (if e <? 0 then "-" else "+") +:+ decimal (Z.abs_N e) in
    if k =? 1 then s +:+ "e" +:+ exponent
    else take_string 1 s +:+ "." +:+ drop_string 1 s +:+ "e" +:+ exponent.

Definition Number_toString (x : number) : string :=
  match x with
  | NaN => "NaN"
  | Infinity neg => if neg then "-Infinity" else "Infinity"
  | Int 0 => "0"
  | Int z =>
      let d := decimal (shortest_decimal (Z.abs_N z)) in
      (if z <? 0 then "-" else EmptyString) +:+
      positive_toString (strip_trailing_zeros d) (Z.of_nat (String.length d))
  | Fraction neg s n => (if neg then "-" else EmptyString) +:+ positive_toString s n
  end.

(** The values [store] and [store2] accept:
    [string | boolean | number | undefined | null]. *)
Inductive value : Type :=
| VUndefined
| VNull
| VString (s : string)
| VBoolean (b : bool)
| VNumber (n : number).

(** [isUndefinedOrNull] of vs/base/common/types. *)
Definition isUndefinedOrNull (v : value) : bool :=
  match v with
  | VUndefined | VNull => true
  | _ => false
  end.

(** The call [String(value)]. *)
Definition ToString (v : value) : string :=
  match v with
  | VUndefined => "undefined"
  | VNull => "null"
  | VString s => s
  | VBoolean b => if b then "true" else "false"
  | VNumber n => Number_toString n
  end.

(** White space and line terminators that [parseInt] skips: TAB, LF, VT,
    FF, CR, SPACE and NBSP (the others lie outside Latin-1). *)
Definition is_StrWhiteSpaceChar (c : ascii) : bool :=
  let n := N_of_ascii c in
  ((9 <=? n) && (n <=? 13) || (n =? 32) || (n =? 160))%N.

Fixpoint trim_start (s : string) : string :=
  match s with
  | String c rest => if is_StrWhiteSpaceChar c then trim_start rest else s
  | EmptyString => EmptyString
  end.

(** The double nearest to the integer [(-1)^neg * v]. *)
Definition double_of_integer (neg : bool) (v : N) : number :=
  match nearest_double v with
  | Some m => Int (if neg then - Z.of_N m else Z.of_N m)
  | None => Infinity neg
  end.

(** [parseInt(s, 10)]: skip white space, read a sign, read the longest run
    of decimal digits; [NaN] when that run is empty, and otherwise the
    double nearest to the integer read. *)
Definition parseInt (s : string) : number :=
  let s1 := trim_start s in
  let '(neg, s2) :=
    match s1 with
    | String "-" r => (true, r)
    | String "+" r => (false, r)
    | _ => (false, s1)
    end in
  match read_digits s2 0 0 with
  | (_, O) => NaN
  | (v, S _) => double_of_integer neg v
  end.

(** ** JSON values and plain objects *)

#[warnings="-register-all"]
Inductive json : Type :=
| JNull
| JBoolean (b : bool)
| JNumber (n : number)
| JString (s : string)
| JArray (elements : list json)
| JObject (properties : list (string * json)).

(** [x === n] for a number [n]. *)
Definition strict_equals_number (x : json) (n : number) : bool :=
  match x, n with
  | JNumber NaN, _ | _, NaN => false
  | JNumber m, _ => bool_decide (m = n)
  | _, _ => false
  end.

(** [typeof x === 'number'] *)
Definition is_number (x : json) : bool :=
  match x with
  | JNumber _ => true
  | _ => false
  end.

(** A property key is an array index when it is the canonical numeral of
    an integer below 2^32 - 1. *)
Definition array_index (k : string) : option N :=
  let v := fst (read_digits k 0 0) in
  if String.eqb k (decimal v) && (v <? 4294967295)%N then Some v else None.

(** [precedes k k']: a property [k] created after [k'] is nevertheless
    listed before it (OrdinaryOwnPropertyKeys: array indices in ascending
    order first, then the other keys in order of creation). *)
Definition precedes (k k' : string) : bool :=
  match array_index k, array_index k' with
  | Some i, Some i' => (i <? i')%N
  | Some _, None => true
  | None, _ => false
  end.

(** The own properties of an object are a list in OrdinaryOwnPropertyKeys
    order; [own_property k ps] is the value of the property [k], if the
    object has it. *)
Fixpoint own_property (k : string) (ps : list (string * json)) : option json :=
  match ps with
  | [] => None
  | (k', v) :: rest => if String.eqb k k' then Some v else own_property k rest
  end.

(** CreateDataProperty: an existing property keeps its place and takes the
    new value, a new one is put where the key order wants it. *)
Fixpoint define_property (k : string) (v : json) (ps : list (string * json))
  : list (string * json) :=
  match ps with
  | [] => [(k, v)]
  | (k', v') :: rest =>
      if String.eqb k k' then (k, v) :: rest
      else if precedes k k' then (k, v) :: (k', v') :: rest
      else (k', v') :: define_property k v rest
  end.

(** [delete o[k]] on the list of own properties. *)
Fixpoint delete_property (k : string) (ps : list (string * json))
  : list (string * json) :=
  match ps with
  | [] => []
  | (k', v') :: rest =>
      if String.eqb k k' then rest else (k', v') :: delete_property k rest
  end.

(** ** JSON.stringify *)

Definition quotation_mark : ascii := ascii_of_N 34.
Definition reverse_solidus : ascii := ascii_of_N 92.

Definition hex_char (d : N) : ascii :=
  if (d <? 10)%N then ascii_of_N (48 + d) else ascii_of_N (87 + d).

(** QuoteJSONString, one code unit. *)
Definition quote_char (c : ascii) : string :=
  let n := N_of_ascii c in
  if (n =? 34)%N then String "\" (String quotation_mark EmptyString)
  else if (n =? 92)%N then "\\"
  else if (n =? 8)%N then "\b"
  else if (n =? 12)%N then "\f"
  else if (n =? 10)%N then "\n"
  else if (n =? 13)%N then "\r"
  else if (n =? 9)%N then "\t"
  else if (n <? 32)%N then
    "\u00" +:+ String (hex_char (n / 16)) (String (hex_char (n mod 16)) EmptyString)
  else String c EmptyString.

Fixpoint quote_chars (s : string) : string :=
  match s with
  | EmptyString => EmptyString
  | String c rest => quote_char c +:+ quote_chars rest
  end.

Definition quote (s : string) : string :=
  String quotation_mark (quote_chars s +:+ String quotation_mark EmptyString).

Fixpoint join (parts : list string) : string :=
  match parts with
  | [] => EmptyString
  | [p] => p
  | p :: rest => p +:+ "," +:+ join rest
  end.

(** SerializeJSONProperty without indentation; a number that is not finite
    is written [null]. *)
Fixpoint stringify (j : json) : string :=
  match j with
  | JNull => "null"
  | JBoolean b => if b then "true" else "false"
  | JNumber (NaN | Infinity _) => "null"
  | JNumber n => Number_toString n
  | JString s => quote s
  | JArray l => "[" +:+ join (map stringify l) +:+ "]"
  | JObject ps =>
      "{" +:+ join (map (fun p => quote (fst p) +:+ ":" +:+ stringify (snd p)) ps)
          +:+ "}"
  end.

(** ** JSON.parse *)

Inductive token : Type :=
| TLBrace | TRBrace | TLBracket | TRBracket | TColon | TComma
| TString (s : string)
| TNumber (n : number)
| TTrue | TFalse | TNull.

(** The longest prefix of decimal digits. *)
Fixpoint digit_run (s : string) : string :=
  match s with
  | EmptyString => EmptyString
  | String c rest =>
      match digit_value c with
      | Some _ => String c (digit_run rest)
      | None => EmptyString
      end
  end.

Fixpoint strip_leading_zeros (s : string) : string :=
  match s with
  | String c rest => if Ascii.eqb c "0" then strip_leading_zeros rest else s
  | EmptyString => EmptyString
  end.

(** The number denoted by the digits [ds] scaled by [10^e].  An integer is
    rounded to the nearest double (an integer of more than 400 digits is
    beyond the largest one).  A non-integer is kept as its digits, which
    are the digits of the double nearest to it when there are at most 15 of
    them ([within_model]). *)
Definition number_of_decimal (neg : bool) (ds : string) (e : Z) : number :=
  let sig := strip_leading_zeros ds in
  let s := strip_trailing_zeros sig in
  let k := Z.of_nat (String.length s) in
  let n := Z.of_nat (String.length sig) + e in
  if String.eqb s EmptyString then Int 0
  else if k <=? n then
    if 400 <? n then Infinity neg
    else double_of_integer neg (fst (read_digits s 0 0) * 10 ^ Z.to_N (n - k))%N
  else Fraction neg s n.

(** The exponent part of a JSON number: [e] or [E], a sign, digits. *)
Definition exponent_literal (w : string) : option Z :=
  match w with
  | EmptyString => Some 0
  | String c r =>
      if Ascii.eqb c "e" || Ascii.eqb c "E" then
        let '(neg, ds) :=
          match r with
          | String "-" r' => (true, r')
          | String "+" r' => (false, r')
          | _ => (false, r)
          end in
        let run := digit_run ds in
        if String.eqb run EmptyString || negb (String.eqb run ds) then None
        else let v := Z.of_N (fst (read_digits ds 0 0)) in
             Some (if neg then - v else v)
      else None
  end.

(** The JSON number grammar: an optional minus; then a single 0, or a
    digit from 1 to 9 followed by any digits; then optionally a point and
    at least one digit; then optionally an exponent. *)
Definition number_literal (w : string) : option number :=
  let '(neg, w1) :=
    match w with
    | String "-" r => (true, r)
    | _ => (false, w)
    end in
  let ip := digit_run w1 in
  let w2 := drop_string (String.length ip) w1 in
  if String.eqb ip EmptyString then None
  else if (1 <? String.length ip)%nat && String.eqb (take_string 1 ip) "0" then None
  else
    let frac :=
      match w2 with
      | String "." r =>
          let fp := digit_run r in
          if String.eqb fp EmptyString then None
          else Some (fp, drop_string (String.length fp) r)
      | _ => Some (EmptyString, w2)
      end in
    match frac with
    | None => None
    | Some (fp, w3) =>
        match exponent_literal w3 with
        | None => None
        | Some e =>
            Some (number_of_decimal neg (ip +:+ fp) (e - Z.of_nat (String.length fp)))
        end
    end.

Definition classify_word (w : string) : option token :=
  if String.eqb w "true" then Some TTrue
  else if String.eqb w "false" then Some TFalse
  else if String.eqb w "null" then Some TNull
  else TNumber <$> number_literal w.

(** JSON white space: TAB, LF, CR, SPACE. *)
Definition is_json_ws (c : ascii) : bool :=
  let n := N_of_ascii c in
  ((n =? 9) || (n =? 10) || (n =? 13) || (n =? 32))%N.

(** The characters numbers and literal names are made of. *)
Definition is_word_char (c : ascii) : bool :=
  let n := N_of_ascii c in
  ((48 <=? n) && (n <=? 57) || (65 <=? n) && (n <=? 90)
   || (97 <=? n) && (n <=? 122) || (n =? 43) || (n =? 45) || (n =? 46))%N.

Definition hex_value (c : ascii) : option N :=
  let n := N_of_ascii c in
  if ((48 <=? n) && (n <=? 57))%N then Some (n - 48)%N
  else if ((97 <=? n) && (n <=? 102))%N then Some (n - 87)%N
  else if ((65 <=? n) && (n <=? 70))%N then Some (n - 55)%N
  else None.

Inductive lex_mode : Type :=
| LStart
| LWord (w : string)
| LString (acc : string)
| LEscape (acc : string)
| LUnicode (acc : string) (hex : list N).

(** The lexer: the mode, the tokens so far, and whether an escape outside
    Latin-1 was met. *)
Record lexer : Type := mkLexer {
  mode : lex_mode;
  tokens : list token;
  beyond_latin1 : bool
}.

Definition snoc_string (acc : string) (c : ascii) : string :=
  acc +:+ String c EmptyString.

Definition lex_start (c : ascii) (toks : list token) (b : bool) : option lexer :=
  if is_json_ws c then Some (mkLexer LStart toks b)
  else if is_word_char c then Some (mkLexer (LWord (String c EmptyString)) toks b)
  else if Ascii.eqb c quotation_mark then Some (mkLexer (LString EmptyString) toks b)
  else
    match c with
    | "{"%char => Some (mkLexer LStart (toks ++ [TLBrace]) b)
    | "}"%char => Some (mkLexer LStart (toks ++ [TRBrace]) b)
    | "["%char => Some (mkLexer LStart (toks ++ [TLBracket]) b)
    | "]"%char => Some (mkLexer LStart (toks ++ [TRBracket]) b)
    | ":"%char => Some (mkLexer LStart (toks ++ [TColon]) b)
    | ","%char => Some (mkLexer LStart (toks ++ [TComma]) b)
    | _ => None
    end.

Definition lex_escape (c : ascii) (acc : string) : option lex_mode :=
  if Ascii.eqb c quotation_mark || Ascii.eqb c reverse_solidus
  then Some (LString (snoc_string acc c))
  else
  match c with
  | "/"%char => Some (LString (snoc_string acc c))
  | "b"%char => Some (LString (snoc_string acc (ascii_of_N 8)))
  | "f"%char => Some (LString (snoc_string acc (ascii_of_N 12)))
  | "n"%char => Some (LString (snoc_string acc (ascii_of_N 10)))
  | "r"%char => Some (LString (snoc_string acc (ascii_of_N 13)))
  | "t"%char => Some (LString (snoc_string acc (ascii_of_N 9)))
  | "u"%char => Some (LUnicode acc [])
  | _ => None
  end.

Definition lex_step (l : lexer) (c : ascii) : option lexer :=
  let '(mkLexer m toks b) := l in
  match m with
  | LStart => lex_start c toks b
  | LWord w =>
      if is_word_char c then Some (mkLexer (LWord (snoc_string w c)) toks b)
      else
        match classify_word w with
        | Some t => lex_start c (toks ++ [t]) b
        | None => None
        end
  | LString acc =>
      if Ascii.eqb c quotation_mark
      then Some (mkLexer LStart (toks ++ [TString acc]) b)
      else if Ascii.eqb c reverse_solidus then Some (mkLexer (LEscape acc) toks b)
      else if (N_of_ascii c <? 32)%N then None
      else Some (mkLexer (LString (snoc_string acc c)) toks b)
  | LEscape acc =>
      match lex_escape c acc with
      | Some m' => Some (mkLexer m' toks b)
      | None => None
      end
  | LUnicode acc hex =>
      match hex_value c with
      | None => None
      | Some d =>
          match hex with
          | [d1; d2; d3] =>
              let code := (((d1 * 16 + d2) * 16 + d3) * 16 + d)%N in
              if (code <? 256)%N
              then Some (mkLexer (LString (snoc_string acc (ascii_of_N code))) toks b)
              else Some (mkLexer (LString (snoc_string acc "?")) toks true)
          | _ => Some (mkLexer (LUnicode acc (hex ++ [d])) toks b)
          end
      end
  end.

Fixpoint lex (l : lexer) (s : string) : option lexer :=
  match s with
  | EmptyString => Some l
  | String c rest =>
      match lex_step l c with
      | Some l' => lex l' rest
      | None => None
      end
  end.

(** At the end of the text a pending word is closed; an open string is an
    error. *)
Definition lex_end (l : lexer) : option (list token * bool) :=
  match mode l with
  | LStart => Some (tokens l, beyond_latin1 l)
  | LWord w =>
      match classify_word w with
      | Some t => Some (tokens l ++ [t], beyond_latin1 l)
      | None => None
      end
  | _ => None
  end.

Definition tokenize (text : string) : option (list token * bool) :=
  match lex (mkLexer LStart [] false) text with
  | Some l => lex_end l
  | None => None
  end.

(** The parser is a stack machine over the tokens.  A frame is a container
    that is still open. *)
Inductive frame : Type :=
| FArray (elements : list json)
| FObject (properties : list (string * json)) (key : string).

Inductive expect : Type :=
| EValue           (* a value *)
| EFirstElement    (* after [: a value or ] *)
| EFirstKey        (* after {: a key or } *)
| EKey             (* after , in an object: a key *)
| EColon           (* after a key *)
| ENext            (* after a value in a container: , or the closer *)
| EDone (v : json) (* the whole value was read *).

Definition parser : Type := expect * list frame.

(** A complete value goes to the innermost open container, or is the
    result. *)
Definition deliver (v : json) (stack : list frame) : parser :=
  match stack with
  | [] => (EDone v, [])
  | FArray els :: st => (ENext, FArray (els ++ [v]) :: st)
  | FObject ps k :: st => (ENext, FObject (define_property k v ps) k :: st)
  end.

Definition parse_value (t : token) (stack : list frame) : option parser :=
  match t with
  | TLBrace => Some (EFirstKey, FObject [] EmptyString :: stack)
  | TLBracket => Some (EFirstElement, FArray [] :: stack)
  | TString s => Some (deliver (JString s) stack)
  | TNumber n => Some (deliver (JNumber n) stack)
  | TTrue => Some (deliver (JBoolean true) stack)
  | TFalse => Some (deliver (JBoolean false) stack)
  | TNull => Some (deliver JNull stack)
  | _ => None
  end.

Definition parse_step (p : parser) (t : token) : option parser :=
  let '(e, stack) := p in
  match e, t, stack with
  | EValue, _, _ => parse_value t stack
  | EFirstElement, TRBracket, FArray els :: st => Some (deliver (JArray els) st)
  | EFirstElement, _, _ => parse_value t stack
  | EFirstKey, TRBrace, FObject ps _ :: st => Some (deliver (JObject ps) st)
  | (EFirstKey | EKey), TString k, FObject ps _ :: st =>
      Some (EColon, FObject ps k :: st)
  | EColon, TColon, _ => Some (EValue, stack)
  | ENext, TComma, FArray _ :: _ => Some (EValue, stack)
  | ENext, TRBracket, FArray els :: st => Some (deliver (JArray els) st)
  | ENext, TComma, FObject _ _ :: _ => Some (EKey, stack)
  | ENext, TRBrace, FObject ps _ :: st => Some (deliver (JObject ps) st)
  | _, _, _ => None
  end.

Fixpoint parse_tokens (p : parser) (ts : list token) : option parser :=
  match ts with
  | [] => Some p
  | t :: rest =>
      match parse_step p t with
      | Some p' => parse_tokens p' rest
      | None => None
      end
  end.

(** ** Completions *)

Inductive error : Type :=
| SyntaxError
| TypeError
| Unsupported   (* the run leaves what this model covers *).

Inductive completion (A : Type) : Type :=
| Normal (a : A)
| Throw (e : error).
Arguments Normal {A} a.
Arguments Throw {A} e.

(** A non-integer number literal is read exactly when it has at most 15
    significant digits and lies well inside the range of the doubles;
    other literals need a rounding this model does not do. *)
Definition within_model (n : number) : bool :=
  match n with
  | Fraction _ s e => (String.length s <=? 15)%nat && (-300 <=? e) && (e <=? 300)
  | _ => true
  end.

Fixpoint numbers_within_model (j : json) : bool :=
  match j with
  | JNumber n => within_model n
  | JArray l => forallb numbers_within_model l
  | JObject ps => forallb (fun p => numbers_within_model (snd p)) ps
  | _ => true
  end.

(** [JSON.parse(text)] *)
Definition JSON_parse (text : string) : completion json :=
  match tokenize text with
  | None => Throw SyntaxError
  | Some (toks, beyond) =>
      match parse_tokens (EValue, []) toks with
      | Some (EDone v, _) =>
          if beyond || negb (numbers_within_model v) then Throw Unsupported
          else Normal v
      | _ => Throw SyntaxError
      end
  end.

(** [JSON.stringify(value)] *)
Definition JSON_stringify (j : json) : string := stringify j.

(** ** The object held in [keyTargets] *)

(** [getKeyTargets] returns either what [JSON.parse] produced, an ordinary
    object whose prototype is [Object.prototype] when the text was an
    object literal, or an object made by [Object.create(null)], which has
    no prototype. *)
Inductive reference : Type :=
| FromJSON (j : json)
| NullProto (properties : list (string * json)).

(** What a property read yields: nothing, an own JSON value, or one of the
    functions and objects inherited from [Object.prototype]. *)
Inductive property_value : Type :=
| Undefined
| Own (j : json)
| Inherited.

(** The property names of [Object.prototype]. *)
Definition Object_prototype_keys : list string :=
  [ "constructor"; "hasOwnProperty"; "isPrototypeOf"; "propertyIsEnumerable";
    "toLocaleString"; "toString"; "valueOf"; "__proto__";
    "__defineGetter__"; "__defineSetter__"; "__lookupGetter__";
    "__lookupSetter__" ]%string.

(** [o[k]].  Reading a property of [null] throws; property access on an
    array or on a primitive is outside the model. *)
Definition get_property (o : reference) (k : string) : completion property_value :=
  match o with
  | NullProto ps =>
      Normal (match own_property k ps with Some v => Own v | None => Undefined end)
  | FromJSON (JObject ps) =>
      Normal (match own_property k ps with
              | Some v => Own v
              | None =>
                  if bool_decide (k ∈ Object_prototype_keys) then Inherited
                  else Undefined
              end)
  | FromJSON JNull => Throw TypeError
  | FromJSON _ => Throw Unsupported
  end.

(** [o[k] = v] for a number [v].  On an ordinary object the inherited
    accessor [__proto__] takes the assignment and ignores a number, so no
    own property is made; every other key is written as an own property. *)
Definition set_property (o : reference) (k : string) (v : json) : completion reference :=
  match o with
  | NullProto ps => Normal (NullProto (define_property k v ps))
  | FromJSON (JObject ps) =>
      match own_property k ps with
      | None =>
          if String.eqb k "__proto__" then Normal o
          else Normal (FromJSON (JObject (define_property k v ps)))
      | Some _ => Normal (FromJSON (JObject (define_property k v ps)))
      end
  | FromJSON JNull => Throw TypeError
  | FromJSON _ => Throw Unsupported
  end.

(** [delete o[k]] *)
Definition remove_property (o : reference) (k : string) : completion reference :=
  match o with
  | NullProto ps => Normal (NullProto (delete_property k ps))
  | FromJSON (JObject ps) => Normal (FromJSON (JObject (delete_property k ps)))
  | FromJSON JNull => Throw TypeError
  | FromJSON _ => Throw Unsupported
  end.

Fixpoint indexed {A : Type} (i : N) (l : list A) : list (string * A) :=
  match l with
  | [] => []
  | x :: rest => (decimal i, x) :: indexed (N.succ i) rest
  end.

Fixpoint characters (s : string) : list json :=
  match s with
  | EmptyString => []
  | String c rest => JString (String c EmptyString) :: characters rest
  end.

(** [Object.entries(o)]: the own enumerable string-keyed properties.  A
    boolean or a number has none, a string has its characters, an array
    its elements, both under their indices. *)
Definition Object_entries (o : reference) : completion (list (string * json)) :=
  match o with
  | NullProto ps => Normal ps
  | FromJSON (JObject ps) => Normal ps
  | FromJSON (JArray l) => Normal (indexed 0 l)
  | FromJSON (JString s) => Normal (indexed 0 (characters s))
  | FromJSON (JBoolean _) | FromJSON (JNumber _) => Normal []
  | FromJSON JNull => Throw TypeError
  end.

(** [JSON.stringify(o)] *)
Definition stringify_reference (o : reference) : string :=
  match o with
  | NullProto ps => JSON_stringify (JObject ps)
  | FromJSON j => JSON_stringify j
  end.

(** ** Maps and the console *)




End JS.

(* ===================================================================== *)
(** * Part 2: the storage service                                         *)
(* ===================================================================== *)

Module Storage.
Import JS.

Definition IS_NEW_KEY : string := "__$__isNewStorageMarker".
Definition TARGET_KEY : string := "__$__targetStorageMarker".

Inductive WillSaveStateReason : Type := NONE | SHUTDOWN.
Inductive StorageScope : Type := GLOBAL | WORKSPACE.
Inductive StorageTarget : Type := USER | MACHINE.

Global Instance StorageScope_eq_dec : EqDecision StorageScope.
Proof. solve_decision. Defined.
Global Instance StorageTarget_eq_dec : EqDecision StorageTarget.
Proof. solve_decision. Defined.
Global Instance WillSaveStateReason_eq_dec : EqDecision WillSaveStateReason.
Proof. solve_decision. Defined.

(** The numeric value of the enumeration member. *)
Definition target_number (t : StorageTarget) : number :=
  match t with
  | USER => Int 0
  | MACHINE => Int 1
  end.

(** What the three emitters fire: [IStorageChangeEvent],
    [IStorageTargetChangeEvent] and [IWillSaveStateEvent]. *)
Inductive event : Type :=
| StorageChangeEvent (key : string) (scope : StorageScope)
| StorageTargetChangeEvent (scope : StorageScope)
| WillSaveStateEvent (reason : WillSaveStateReason).

Global Instance event_eq_dec : EqDecision event.
Proof. solve_decision. Defined.

(** What a subscriber of [onWillSaveState] does in its callback: a script
    of writes to the service. *)
Inductive call : Type :=
| Store (key : string) (v : value) (scope : StorageScope)
| Store2 (key : string) (v : value) (scope : StorageScope) (target : StorageTarget)
| Remove (key : string) (scope : StorageScope).

Definition listener : Type := WillSaveStateReason -> list call.

(** The fields of [InMemoryStorageService], and the subscribers of
    [_onWillSaveState]. *)
Record service : Type := mkService {
  globalCache : gmap string string;
  workspaceCache : gmap string string;
  onWillSaveState : list listener
}.

(** ** The monad: the service state is threaded, the events fired are
    collected, and a throw keeps the state reached so far. *)

Record result (A : Type) : Type := mkResult {
  outcome : completion A;
  final : service;
  fired : list event
}.
Arguments mkResult {A} _ _ _.
Arguments outcome {A} _.
Arguments final {A} _.
Arguments fired {A} _.

Definition M (A : Type) : Type := service -> result A.

Definition ret {A : Type} (a : A) : M A :=
  fun s => mkResult (Normal a) s [].

Definition throw {A : Type} (e : error) : M A :=
  fun s => mkResult (Throw e) s [].

Definition bind {A B : Type} (m : M A) (f : A -> M B) : M B :=
  fun s =>
    let r := m s in
    match outcome r with
    | Normal a =>
        let r' := f a (final r) in
        mkResult (outcome r') (final r') (fired r ++ fired r')
    | Throw e => mkResult (Throw e) (final r) (fired r)
    end.

Notation "x <- m ;; k" := (bind m (fun x => k))
  (at level 20, m at level 99, k at level 200, only parsing).
Notation "m ;;; k" := (bind m (fun _ => k))
  (at level 100, k at level 200, only parsing, right associativity).

Definition lift {A : Type} (c : completion A) : M A :=
  match c with
  | Normal a => ret a
  | Throw e => throw e
  end.

Definition emit (e : event) : M unit :=
  fun s => mkResult (Normal tt) s [e].

(** ** AbstractStorageService: the emitters *)

(** Modelled from the spec: [Emitter] of vs/base/common/event is not among
    the sources.  Firing an event is recorded in [fired], in the order of
    the calls to [fire]; the subscribers of [onDidChangeStorage] and
    [onDidChangeTarget] only observe, except for the listener the
    constructor registers, which acts at once. *)
Definition fire_onDidChangeTarget (scope : StorageScope) : M unit :=
  emit (StorageTargetChangeEvent scope).

(** [_onDidChangeStorage.fire]: the listener the constructor registered
    turns a change of [TARGET_KEY] into a target change. *)
Definition fire_onDidChangeStorage (scope : StorageScope) (key : string) : M unit :=
  emit (StorageChangeEvent key scope) ;;;
  if String.eqb key TARGET_KEY then fire_onDidChangeTarget scope else ret tt.

(** ** AbstractStorageService *)

Inductive promise (A : Type) : Type := Resolved (a : A).
Arguments Resolved {A} a.

(** Modelled from the spec: [IWorkspaceInitializationPayload] of
    vs/platform/workspaces is not among the sources; it reaches [migrate]
    as an opaque payload that identifies the workspace. *)
Inductive IWorkspaceInitializationPayload : Type :=
| WorkspaceIdentity (id : string).

(** The abstract members, which an implementation has to provide. *)
Class AbstractStorageService : Type := {
  get : string -> StorageScope -> option string -> M (option string);
  getBoolean : string -> StorageScope -> option bool -> M (option bool);
  getNumber : string -> StorageScope -> option number -> M (option number);
  doStore : string -> value -> StorageScope -> M unit;
  doRemove : string -> StorageScope -> M unit;
  doFlush : M (promise unit);
  migrate : IWorkspaceInitializationPayload -> M (promise unit)
}.

Section Methods.

Context `{AbstractStorageService}.

(** The [try] around [JSON.parse] catches the syntax error; the empty text
    is falsy and is not parsed at all. *)
Definition getKeyTargets (scope : StorageScope) : M reference :=
  keysRaw <- get TARGET_KEY scope None ;;
  match keysRaw with
  | Some (String c rest as raw) =>
      match JSON_parse raw with
      | Normal j => ret (FromJSON j)
      | Throw Unsupported => throw Unsupported
      | Throw _ => ret (NullProto [])
      end
  | _ => ret (NullProto [])
  end.

(** [v !== n] *)
Definition not_strict_equal (v : property_value) (n : number) : bool :=
  match v with
  | Own j => negb (strict_equals_number j n)
  | _ => true
  end.

(** [typeof v === 'number'] *)
Definition typeof_number (v : property_value) : bool :=
  match v with
  | Own j => is_number j
  | _ => false
  end.

Definition updateKeyTarget (key : string) (scope : StorageScope)
    (target : option StorageTarget) : M unit :=
  keyTargets <- getKeyTargets scope ;;
  match target with
  | Some t =>
      current <- lift (get_property keyTargets key) ;;
      if not_strict_equal current (target_number t) then
        keyTargets' <- lift (set_property keyTargets key (JNumber (target_number t))) ;;
        doStore TARGET_KEY (VString (stringify_reference keyTargets')) scope
      else ret tt
  | None =>
      current <- lift (get_property keyTargets key) ;;
      if typeof_number current then
        keyTargets' <- lift (remove_property keyTargets key) ;;
        doStore TARGET_KEY (VString (stringify_reference keyTargets')) scope
      else ret tt
  end.

Definition remove (key : string) (scope : StorageScope) : M unit :=
  doRemove key scope ;;;
  updateKeyTarget key scope None.

Definition store2 (key : string) (v : value) (scope : StorageScope)
    (target : StorageTarget) : M unit :=
  if isUndefinedOrNull v then remove key scope
  else
    doStore key v scope ;;;
    updateKeyTarget key scope (Some target).

Definition store (key : string) (v : value) (scope : StorageScope) : M unit :=
  store2 key v scope MACHINE.

Definition keys (scope : StorageScope) (target : StorageTarget) : M (list string) :=
  keyTargets <- getKeyTargets scope ;;
  entries <- lift (Object_entries keyTargets) ;;
  ret (foldl (fun keys entry =>
                if strict_equals_number (snd entry) (target_number target)
                then keys ++ [fst entry] else keys) [] entries).

Definition isNew (scope : StorageScope) : M bool :=
  b <- getBoolean IS_NEW_KEY scope None ;;
  ret (bool_decide (b = Some true)).

Definition run_call (c : call) : M unit :=
  match c with
  | Store key v scope => store key v scope
  | Store2 key v scope target => store2 key v scope target
  | Remove key scope => remove key scope
  end.

Fixpoint run_calls (cs : list call) : M unit :=
  match cs with
  | [] => ret tt
  | c :: rest => run_call c ;;; run_calls rest
  end.

(** Modelled from the spec: [Emitter.fire] of vs/base/common/event is not
    among the sources.  The event is delivered synchronously to every
    subscriber, in the order of registration; an exception a subscriber
    throws ends that subscriber's callback and is reported aside, the
    delivery goes on. *)
Definition deliver_to (l : list call) : M unit :=
  fun s =>
    let r := run_calls l s in
    match outcome r with
    | Throw Unsupported => r
    | _ => mkResult (Normal tt) (final r) (fired r)
    end.

Fixpoint deliver_all (ls : list (list call)) : M unit :=
  match ls with
  | [] => ret tt
  | l :: rest => deliver_to l ;;; deliver_all rest
  end.

Definition fire_onWillSaveState (reason : WillSaveStateReason) : M unit :=
  emit (WillSaveStateEvent reason) ;;;
  fun s => deliver_all (map (fun l => l reason) (onWillSaveState s)) s.

Definition flush : M (promise unit) :=
  fire_onWillSaveState NONE ;;;
  doFlush.

End Methods.

(** ** InMemoryStorageService *)

Definition getCache (scope : StorageScope) (s : service) : gmap string string :=
  match scope with
  | GLOBAL => globalCache s
  | _ => workspaceCache s
  end.

Definition setCache (scope : StorageScope) (c : gmap string string) (s : service)
  : service :=
  match scope with
  | GLOBAL => mkService c (workspaceCache s) (onWillSaveState s)
  | _ => mkService (globalCache s) c (onWillSaveState s)
  end.

(** [this.getCache(scope).get(key)] *)
Definition Map_get (scope : StorageScope) (key : string) : M (option string) :=
  fun s => mkResult (Normal (getCache scope s !! key)) s [].

(** [this.getCache(scope).set(key, value)] *)
Definition Map_set (scope : StorageScope) (key value : string) : M unit :=
  fun s => mkResult (Normal tt) (setCache scope (<[key := value]> (getCache scope s)) s) [].

(** [this.getCache(scope).delete(key)], true when the key was there. *)
Definition Map_delete (scope : StorageScope) (key : string) : M bool :=
  fun s =>
    mkResult (Normal (bool_decide (is_Some (getCache scope s !! key))))
             (setCache scope (delete key (getCache scope s)) s) [].

Module InMemory.

Definition get (key : string) (scope : StorageScope) (fallbackValue : option string)
  : M (option string) :=
  value <- Map_get scope key ;;
  match value with
  | None => ret fallbackValue
  | Some v => ret (Some v)
  end.

Definition getBoolean (key : string) (scope : StorageScope) (fallbackValue : option bool)
  : M (option bool) :=
  value <- Map_get scope key ;;
  match value with
  | None => ret fallbackValue
  | Some v => ret (Some (String.eqb v "true"))
  end.

Definition getNumber (key : string) (scope : StorageScope) (fallbackValue : option number)
  : M (option number) :=
  value <- Map_get scope key ;;
  match value with
  | None => ret fallbackValue
  | Some v => ret (Some (parseInt v))
  end.

Definition doStore (key : string) (v : value) (scope : StorageScope) : M unit :=
  let valueStr := ToString v in
  currentValue <- Map_get scope key ;;
  if bool_decide (currentValue = Some valueStr) then ret tt
  else
    Map_set scope key valueStr ;;;
    fire_onDidChangeStorage scope key.

Definition doRemove (key : string) (scope : StorageScope) : M unit :=
  wasDeleted <- Map_delete scope key ;;
  if negb wasDeleted then ret tt
  else fire_onDidChangeStorage scope key.

Definition migrate (toWorkspace : IWorkspaceInitializationPayload)
  : M (promise unit) :=
  ret (Resolved tt).

Definition doFlush : M (promise unit) := ret (Resolved tt).

Definition close : M (promise unit) := ret (Resolved tt).

End InMemory.

(** [class InMemoryStorageService extends AbstractStorageService] *)
Global Instance InMemoryStorageService : AbstractStorageService := {|
  get := InMemory.get;
  getBoolean := InMemory.getBoolean;
  getNumber := InMemory.getNumber;
  doStore := InMemory.doStore;
  doRemove := InMemory.doRemove;
  doFlush := InMemory.doFlush;
  migrate := InMemory.migrate
|}.

(** [new InMemoryStorageService()]: two empty caches, no subscriber. *)
Definition new_InMemoryStorageService : service := mkService ∅ ∅ [].

(** ** logStorage *)





End Storage.

(* ===================================================================== *)
(** * Part 3: properties                                                  *)
(* ===================================================================== *)

Import JS Storage.

(** ** Notions used by the statements *)

(** A target map: every value is the number of a [StorageTarget]. *)
Definition is_target (j : json) : bool :=
  match j with
  | JNumber (Int 0) | JNumber (Int 1) => true
  | _ => false
  end.

Definition all_targets (ps : list (string * json)) : bool :=
  forallb (fun p => is_target (snd p)) ps.

(** The text under [TARGET_KEY] is well formed when it is absent, empty,
    not JSON at all, or a JSON object all of whose values are 0 or 1.
    These are the texts the service itself writes and the ones it
    tolerates. *)
Definition well_formed_cache (c : gmap string string) : bool :=
  match c !! TARGET_KEY with
  | None => true
  | Some EmptyString => true
  | Some raw =>
      match JSON_parse raw with
      | Throw SyntaxError => true
      | Normal (JObject ps) => all_targets ps
      | _ => false
      end
  end.

Definition well_formed (s : service) : bool :=
  well_formed_cache (globalCache s) && well_formed_cache (workspaceCache s).

(** The key and the partition a write addresses. *)
Definition call_key (c : call) : string :=
  match c with
  | Store k _ _ | Store2 k _ _ _ | Remove k _ => k
  end.

Definition call_scope (c : call) : StorageScope :=
  match c with
  | Store _ _ sc | Store2 _ _ sc _ | Remove _ sc => sc
  end.

(** The number of events in [evs] that satisfy [p]. *)
Definition count_events (p : event -> bool) (evs : list event) : nat :=
  length (filter (fun e => p e = true) evs).

Definition is_change_of (key : string) (scope : StorageScope) (e : event) : bool :=
  bool_decide (e = StorageChangeEvent key scope).

Definition is_target_change_of (scope : StorageScope) (e : event) : bool :=
  bool_decide (e = StorageTargetChangeEvent scope).

Definition is_will_save (e : event) : bool :=
  match e with
  | WillSaveStateEvent _ => true
  | _ => false
  end.

(** The own properties of an object listed in the order of their keys: no
    key twice, and no key before one it should follow. *)
Inductive Canonical : list (string * json) -> Prop :=
| Canonical_nil : Canonical []
| Canonical_cons k v ps :
    Forall (fun q => fst q <> k /\ precedes (fst q) k = false) ps ->
    Canonical ps ->
    Canonical ((k, v) :: ps).

(** The tokens of the text [JSON.stringify] writes for a target map. *)
Fixpoint member_tokens (ps : list (string * json)) : list token :=
  match ps with
  | [] => []
  | [(k, v)] => [TString k; TColon; TNumber (match v with JNumber n => n | _ => NaN end)]
  | (k, v) :: rest =>
      [TString k; TColon; TNumber (match v with JNumber n => n | _ => NaN end); TComma]
      ++ member_tokens rest
  end.

(** The text of one member of an object. *)
Definition member_text (p : string * json) : string :=
  quote (fst p) +:+ ":" +:+ stringify (snd p).

(** Creating the properties [ps] one after the other on top of [acc]. *)
Definition define_all (acc ps : list (string * json)) : list (string * json) :=
  foldl (fun a p => define_property (fst p) (snd p) a) acc ps.

(** What the parser keeps true of the objects it builds. *)
Definition value_ok (v : json) : Prop :=
  match v with
  | JObject ps => Canonical ps
  | _ => True
  end.

Definition frame_ok (f : frame) : Prop :=
  match f with
  | FObject ps _ => Canonical ps
  | FArray _ => True
  end.

Definition parser_ok (p : parser) : Prop :=
  match fst p with
  | EDone v => value_ok v
  | _ => True
  end /\ Forall frame_ok (snd p).

(** What [getKeyTargets] makes of a cache. *)
Definition key_targets (c : gmap string string) : completion reference :=
  match c !! TARGET_KEY with
  | Some (String _ _ as raw) =>
      match JSON_parse raw with
      | Normal j => Normal (FromJSON j)
      | Throw Unsupported => Throw Unsupported
      | Throw _ => Normal (NullProto [])
      end
  | _ => Normal (NullProto [])
  end.

(** The TargetMap of a partition: the own properties of the object under
    [TARGET_KEY]; empty when there is none. *)
Definition recorded (scope : StorageScope) (s : service) : list (string * json) :=
  match key_targets (getCache scope s) with
  | Normal (FromJSON (JObject ps)) => ps
  | Normal (NullProto ps) => ps
  | _ => []
  end.

(** The target recorded for a key, if any. *)
Definition recorded_target (key : string) (scope : StorageScope) (s : service)
  : option json :=
  own_property key (recorded scope s).

(** The keys [keys] collects from the entries. *)
Definition collect_keys (target : StorageTarget) (entries : list (string * json))
  : list string :=
  foldl (fun keys entry =>
           if strict_equals_number (snd entry) (target_number target)
           then keys ++ [fst entry] else keys) [] entries.

(** What a write of [TARGET_KEY] fires. *)
Definition target_events (scope : StorageScope) : list event :=
  [StorageChangeEvent TARGET_KEY scope; StorageTargetChangeEvent scope].

Definition other_target (t : StorageTarget) : StorageTarget :=
  match t with
  | USER => MACHINE
  | MACHINE => USER
  end.

(** The state after the TargetMap [ps] was written to a partition. *)
Definition write_targets (scope : StorageScope) (ps : list (string * json))
    (s : service) : service :=
  setCache scope (<[TARGET_KEY := JSON_stringify (JObject ps)]> (getCache scope s)) s.

(** Whether [getKeyTargets] hands out an object that came from
    [JSON.parse], which has [Object.prototype] behind it. *)
Definition from_json (scope : StorageScope) (s : service) : bool :=
  match key_targets (getCache scope s) with
  | Normal (FromJSON _) => true
  | _ => false
  end.

(** The state after [doStore] wrote a value, and after [doRemove]. *)
Definition with_value (key : string) (v : value) (scope : StorageScope)
    (s : service) : service :=
  setCache scope (<[key := ToString v]> (getCache scope s)) s.

Definition without_value (key : string) (scope : StorageScope) (s : service)
  : service :=
  setCache scope (delete key (getCache scope s)) s.

(** What [doStore] and [doRemove] fire when the cache changes. *)
Definition change_events (key : string) (scope : StorageScope) : list event :=
  StorageChangeEvent key scope ::
  if String.eqb key TARGET_KEY then [StorageTargetChangeEvent scope] else [].

(** Whether the TargetMap records [t] for [key]. *)
Definition has_target (key : string) (t : StorageTarget) (scope : StorageScope)
    (s : service) : bool :=
  match recorded_target key scope s with
  | Some j => strict_equals_number j (target_number t)
  | None => false
  end.

(** Whether the TargetMap records a target for [key]. *)
Definition is_recorded (key : string) (scope : StorageScope) (s : service) : bool :=
  match recorded_target key scope s with
  | Some _ => true
  | None => false
  end.

(** The event a changed value fires. *)
Definition value_events (changed : bool) (key : string) (scope : StorageScope)
  : list event :=
  if changed then change_events key scope else [].

(** What a client of the service can do: call a write, flush, migrate, or
    subscribe to [onWillSaveState]. *)
Inductive operation : Type :=
| Call (c : call)
| Flush
| Migrate (toWorkspace : IWorkspaceInitializationPayload)
| Subscribe (l : listener).

(** The state an operation leaves, whether it returned or threw. *)
Definition run_operation (op : operation) (s : service) : service :=
  match op with
  | Call c => final (run_call c s)
  | Flush => final (flush s)
  | Migrate toWorkspace => final (migrate toWorkspace s)
  | Subscribe l =>
      mkService (globalCache s) (workspaceCache s) (onWillSaveState s ++ [l])
  end.

Definition run_operations (ops : list operation) (s : service) : service :=
  foldl (fun s op => run_operation op s) s ops.

(** The operation never names [key], neither directly nor in the callback
    of a subscriber. *)
Definition avoids (key : string) (op : operation) : Prop :=
  match op with
  | Call c => call_key c <> key
  | Subscribe l => forall reason, Forall (fun c => call_key c <> key) (l reason)
  | Flush | Migrate _ => True
  end.

(** The state a script of writes leaves. *)
Definition apply_calls (cs : list call) (s : service) : service :=
  foldl (fun s c => final (run_call c s)) s cs.

(** The scripts the subscribers run on a [WillSaveStateEvent]. *)
Definition scripts (reason : WillSaveStateReason) (s : service) : list (list call) :=
  map (fun l => l reason) (onWillSaveState s).

(** [c] writes the value [v] under [key] in [scope]. *)
Definition writes (c : call) (key : string) (v : value) (scope : StorageScope) : Prop :=
  c = Store key v scope \/ exists t, c = Store2 key v scope t.

(** Nothing is stored under [IS_NEW_KEY] and no subscriber will store
    anything there. *)
Definition marker_free (s : service) : Prop :=
  (forall scope, getCache scope s !! IS_NEW_KEY = None)
  /\ Forall (fun l => forall reason, Forall (fun c => call_key c <> IS_NEW_KEY) (l reason))
            (onWillSaveState s).

(** The service is well formed and no subscriber will write under
    [TARGET_KEY]. *)
Definition law_abiding (s : service) : Prop :=
  well_formed s = true
  /\ Forall (fun l => forall reason, Forall (fun c => call_key c <> TARGET_KEY) (l reason))
            (onWillSaveState s).

(** The in-memory service with [persist] for its [doFlush]: a storage that
    has something to write when it is flushed, as the subclasses that keep
    a database have. *)
Definition persisting (persist : M (promise unit)) : AbstractStorageService := {|
  get := InMemory.get;
  getBoolean := InMemory.getBoolean;
  getNumber := InMemory.getNumber;
  doStore := InMemory.doStore;
  doRemove := InMemory.doRemove;
  doFlush := persist;
  migrate := InMemory.migrate
|}.

(** No [WillSaveStateEvent] among the events. *)
Definition no_will_save (evs : list event) : Prop :=
  Forall (fun e => is_will_save e = false) evs.

(** The other partition. *)
Definition other_scope (scope : StorageScope) : StorageScope :=
  match scope with
  | GLOBAL => WORKSPACE
  | WORKSPACE => GLOBAL
  end.

(** The event is a change, or a target change, of the partition. *)
Definition concerns (scope : StorageScope) (e : event) : Prop :=
  match e with
  | StorageChangeEvent _ sc | StorageTargetChangeEvent sc => sc = scope
  | WillSaveStateEvent _ => False
  end.

(** As many target changes as changes of [TARGET_KEY], in each partition. *)
Definition paired (evs : list event) : Prop :=
  forall scope,
    count_events (is_target_change_of scope) evs
    = count_events (is_change_of TARGET_KEY scope) evs.

(** Every key the TargetMap records has a value. *)
Definition backed (s : service) : Prop :=
  forall scope k,
    is_Some (recorded_target k scope s) -> is_Some (getCache scope s !! k).

(** The target a write leaves for the key it addresses: none when it
    removes. *)
Definition call_target (c : call) : option StorageTarget :=
  match c with
  | Store _ v _ => if isUndefinedOrNull v then None else Some MACHINE
  | Store2 _ v _ t => if isUndefinedOrNull v then None else Some t
  | Remove _ _ => None
  end.

Definition addresses (c : call) (key : string) (scope : StorageScope) : bool :=
  bool_decide (call_key c = key /\ call_scope c = scope).

(** What the latest write of the script that addressed [key] in [scope]
    left as its target; [None] when no write addressed it. *)
Fixpoint last_write (key : string) (scope : StorageScope) (cs : list call)
  : option (option StorageTarget) :=
  match cs with
  | [] => None
  | c :: rest =>
      match last_write key scope rest with
      | Some w => Some w
      | None => if addresses c key scope then Some (call_target c) else None
      end
  end.



(* --------------------------------------------------------------------- *)
(** ** Strings and digits                                                 *)
(* --------------------------------------------------------------------- *)

Section StringFacts.

Lemma append_assoc (a b c : string) : (a +:+ b) +:+ c = a +:+ (b +:+ c).
Proof. induction a as [|x a IH]; simpl; [reflexivity | now rewrite IH]. Qed.

Lemma append_nil_r (a : string) : a +:+ EmptyString = a.
Proof. induction a as [|x a IH]; simpl; [reflexivity | now rewrite IH]. Qed.

Lemma length_append (a b : string) :
  String.length (a +:+ b) = (String.length a + String.length b)%nat.
Proof. induction a as [|x a IH]; simpl; [reflexivity | now rewrite IH]. Qed.

Lemma digit_value_digit_char (d : N) :
  (d < 10)%N -> digit_value (digit_char d) = Some d.
Proof.
  intros Hd. unfold digit_value, digit_char.
  rewrite N_ascii_embedding by lia.
  replace ((48 <=? 48 + d)%N) with true by (symmetry; apply N.leb_le; lia).
  replace ((48 + d <=? 57)%N) with true by (symmetry; apply N.leb_le; lia).
  simpl. f_equal. lia.
Qed.

Lemma pow10_succ (b : nat) : (10 ^ N.of_nat (S b) = 10 * 10 ^ N.of_nat b)%N.
Proof.
  replace (N.of_nat (S b)) with (N.succ (N.of_nat b)) by lia.
  apply N.pow_succ_r'.
Qed.

(** Reading back the digits [decimal_fuel] wrote, with enough fuel. *)
Lemma read_decimal_fuel (fuel : nat) :
  forall (n : N) (acc : string) (c : nat),
    (n < 10 ^ N.of_nat fuel)%N -> (0 < fuel)%nat ->
    exists len, (0 < len)%nat /\
      read_digits (decimal_fuel fuel n acc) 0 c = read_digits acc n (c + len).
Proof.
  induction fuel as [|fuel IH]; intros n acc c Hn Hfuel.
  - lia.
  - simpl. destruct (N.ltb_spec n 10%N) as [Hlt|Hge].
    + exists 1%nat. split; [lia|]. simpl. rewrite N.mod_small by lia.
      rewrite digit_value_digit_char by lia.
      f_equal. lia.
    + assert (Hdiv : (n / 10 < 10 ^ N.of_nat fuel)%N).
      { apply N.Div0.div_lt_upper_bound. rewrite pow10_succ in Hn. lia. }
      assert (Hpos : (0 < fuel)%nat) by (destruct fuel; [simpl in Hn; lia|lia]).
      destruct (IH (n / 10)%N (String (digit_char (n mod 10)) acc) c Hdiv Hpos)
        as (len & Hlen & Heq).
      exists (S len). split; [lia|]. rewrite Heq. simpl.
      rewrite digit_value_digit_char by (apply N.mod_lt; lia).
      f_equal; [|lia].
      pose proof (N.div_mod n 10%N ltac:(lia)). lia.
Qed.

Lemma fuel_enough (n : N) : (n < 10 ^ N.of_nat (S (N.to_nat (N.log2 n))))%N.
Proof.
  destruct (N.eq_dec n 0%N) as [->|Hn]; [simpl; lia|].
  pose proof (N.log2_spec n ltac:(lia)) as [_ Hlt].
  eapply N.lt_le_trans; [exact Hlt|].
  replace (N.of_nat (S (N.to_nat (N.log2 n)))) with (N.succ (N.log2 n)) by lia.
  apply N.pow_le_mono_l. lia.
Qed.

Lemma read_decimal (n : N) :
  exists len, (0 < len)%nat /\ read_digits (decimal n) 0 0 = (n, len).
Proof.
  destruct (read_decimal_fuel _ n EmptyString 0%nat (fuel_enough n) ltac:(lia))
    as (len & Hlen & Heq).
  exists len. split; [exact Hlen|]. unfold decimal. rewrite Heq. reflexivity.
Qed.

Lemma length_decimal_fuel (fuel : nat) :
  forall (n : N) (acc : string) (b : nat),
    (n < 10 ^ N.of_nat b)%N -> (0 < b)%nat ->
    (String.length (decimal_fuel fuel n acc) <= b + String.length acc)%nat.
Proof.
  induction fuel as [|fuel IH]; intros n acc b Hn Hb; simpl; [lia|].
  destruct (N.ltb_spec n 10%N) as [Hlt|Hge]; simpl; [lia|].
  destruct b as [|b]; [lia|].
  destruct b as [|b]; [simpl in Hn; lia|].
  etransitivity.
  - apply (IH _ _ (S b)); [|lia].
    apply N.Div0.div_lt_upper_bound. rewrite pow10_succ in Hn. lia.
  - simpl. lia.
Qed.

Lemma length_decimal (n : N) (b : nat) :
  (n < 10 ^ N.of_nat b)%N -> (0 < b)%nat -> (String.length (decimal n) <= b)%nat.
Proof.
  intros Hn Hb. unfold decimal.
  pose proof (length_decimal_fuel (S (N.to_nat (N.log2 n))) n EmptyString b Hn Hb).
  simpl in *. lia.
Qed.

(** The first character of a numeral is a digit. *)
Lemma decimal_fuel_head (fuel : nat) :
  forall (n : N) (acc : string),
    exists d rest, (d < 10)%N /\
      decimal_fuel (S fuel) n acc = String (digit_char d) rest.
Proof.
  induction fuel as [|fuel IH]; intros n acc.
  - exists (n mod 10)%N, acc. split; [apply N.mod_lt; lia|].
    simpl. destruct (n <? 10)%N; reflexivity.
  - change (decimal_fuel (S (S fuel)) n acc)
      with (let acc' := String (digit_char (n mod 10)) acc in
            if (n <? 10)%N then acc' else decimal_fuel (S fuel) (n / 10) acc').
    simpl. destruct (n <? 10)%N.
    + exists (n mod 10)%N, acc. split; [apply N.mod_lt; lia|reflexivity].
    + apply IH.
Qed.

Lemma decimal_head (n : N) :
  exists d rest, (d < 10)%N /\ decimal n = String (digit_char d) rest.
Proof. apply decimal_fuel_head. Qed.

Lemma strip_trailing_zeros_pad (s : string) :
  strip_trailing_zeros s
    +:+ zeros (String.length s - String.length (strip_trailing_zeros s)) = s
  /\ (String.length (strip_trailing_zeros s) <= String.length s)%nat.
Proof.
  induction s as [|c s [IH Hle]]; simpl; [split; reflexivity|].
  destruct (strip_trailing_zeros s) as [|c' r] eqn:Hs.
  - simpl in IH. rewrite Nat.sub_0_r in IH.
    destruct (Ascii.eqb_spec c "0") as [->|Hc]; simpl.
    + rewrite IH. split; [reflexivity|lia].
    + rewrite Nat.sub_0_r, IH. split; [reflexivity|lia].
  - simpl in *. rewrite IH. split; [reflexivity|lia].
Qed.

Lemma digit_char_cases (d : N) :
  (d < 10)%N ->
  exists b0 b1 b2 b3 : bool,
    digit_char d = Ascii b0 b1 b2 b3 true true false false.
Proof.
  intros Hd. unfold digit_char.
  assert (Hcases : (d = 0 \/ d = 1 \/ d = 2 \/ d = 3 \/ d = 4 \/ d = 5 \/ d = 6
                   \/ d = 7 \/ d = 8 \/ d = 9)%N) by lia.
  repeat destruct Hcases as [->|Hcases]; try subst d; simpl; eauto.
Qed.

(** The numeral of an integer below 10^21 is its plain decimal notation. *)
Lemma positive_toString_decimal (n : N) :
  (n < 10 ^ 21)%N ->
  positive_toString (strip_trailing_zeros (decimal n))
                    (Z.of_nat (String.length (decimal n))) = decimal n.
Proof.
  intros Hn. unfold positive_toString.
  pose proof (length_decimal n 21 Hn ltac:(lia)) as Hlen.
  destruct (strip_trailing_zeros_pad (decimal n)) as [Hpad Hle].
  set (d := decimal n) in *. set (s := strip_trailing_zeros d) in *.
  replace (-5 <=? Z.of_nat (String.length d)) with true
    by (symmetry; apply Z.leb_le; lia).
  replace (Z.of_nat (String.length d) <=? 21) with true
    by (symmetry; apply Z.leb_le; lia).
  replace (Z.of_nat (String.length s) <=? Z.of_nat (String.length d)) with true
    by (symmetry; apply Z.leb_le; lia).
  simpl.
  replace (Z.to_nat (Z.of_nat (String.length d) - Z.of_nat (String.length s)))
    with (String.length d - String.length s)%nat by lia.
  exact Hpad.
Qed.

Lemma parseInt_decimal (n : N) : parseInt (decimal n) = double_of_integer false n.
Proof.
  destruct (decimal_head n) as (d & rest & Hd & Heq).
  destruct (read_decimal n) as (len & Hlen & Hread).
  unfold parseInt. rewrite Heq in *.
  destruct (digit_char_cases d Hd) as (b0 & b1 & b2 & b3 & Hc).
  rewrite Hc in *.
  assert (Htrim : trim_start (String (Ascii b0 b1 b2 b3 true true false false) rest)
                  = String (Ascii b0 b1 b2 b3 true true false false) rest).
  { destruct b0, b1, b2, b3; reflexivity. }
  rewrite Htrim.
  transitivity (match read_digits (String (Ascii b0 b1 b2 b3 true true false false) rest) 0 0 with
                | (_, O) => NaN
                | (v, S _) => double_of_integer false v
                end).
  { destruct b0, b1, b2, b3; reflexivity. }
  rewrite Hread. destruct len; [lia|reflexivity].
Qed.

Lemma parseInt_minus_decimal (n : N) :
  parseInt (String "-" (decimal n)) = double_of_integer true n.
Proof.
  destruct (read_decimal n) as (len & Hlen & Hread).
  unfold parseInt. simpl. rewrite Hread. destruct len; [lia|reflexivity].
Qed.

(** A candidate [shortest_at] accepts reads back as the double, and lies
    at most one step of [10^j] above it. *)
Lemma shortest_at_reads_back (x j c : N) :
  shortest_at x j = Some c ->
  nearest_double c = Some x /\ (c <= x / 10 ^ j * 10 ^ j + 10 ^ j)%N.
Proof.
  unfold shortest_at. cbv zeta.
  set (p := (10 ^ j)%N). set (lo := (x / p * p)%N).
  destruct (nearest_double lo) as [y|] eqn:Hlo;
    destruct (nearest_double (lo + p)) as [y'|] eqn:Hhi.
  - destruct (N.eqb_spec y x) as [->|]; destruct (N.eqb_spec y' x) as [->|];
      [|intros [= <-]; split; [done|lia]|intros [= <-]; split; [done|lia]|done].
    destruct (x - lo <? lo + p - x)%N; [intros [= <-]; split; [done|lia]|].
    destruct (lo + p - x <? x - lo)%N; [intros [= <-]; split; [done|lia]|].
    destruct (N.even (x / p)); intros [= <-]; split; try done; lia.
  - destruct (N.eqb_spec y x) as [->|]; [|done]. intros [= <-]. split; [done|lia].
  - destruct (N.eqb_spec y' x) as [->|]; [|done]. intros [= <-]. split; [done|lia].
  - done.
Qed.

Lemma shortest_from_reads_back (x digits : N) (ks : list N) :
  nearest_double x = Some x -> (x < 10 ^ 21)%N -> (digits <= 21)%N ->
  nearest_double (shortest_from x digits ks) = Some x
  /\ (shortest_from x digits ks <= 10 ^ 21)%N.
Proof.
  intros Hx Hlt Hd. induction ks as [|k ks IH]; simpl; [split; [done|lia]|].
  destruct (shortest_at x (digits - k)) as [c|] eqn:Hat; [|exact IH].
  destruct (shortest_at_reads_back _ _ _ Hat) as [Hc Hle]. split; [done|].
  set (j := (digits - k)%N) in *.
  assert (Hj : (j <= 21)%N) by lia.
  assert (Hpow : (10 ^ 21 = 10 ^ j * 10 ^ (21 - j))%N).
  { rewrite <- N.pow_add_r. f_equal. lia. }
  assert (Hdiv : (x / 10 ^ j < 10 ^ (21 - j))%N).
  { apply N.Div0.div_lt_upper_bound. by rewrite <- Hpow. }
  rewrite Hpow. nia.
Qed.

(** The digits [String] prints for an integer double below 10^21 read back
    as that double. *)
Lemma shortest_decimal_reads_back (x : N) :
  nearest_double x = Some x -> (x < 10 ^ 21)%N ->
  nearest_double (shortest_decimal x) = Some x
  /\ (shortest_decimal x < 10 ^ 21)%N.
Proof.
  intros Hx Hlt. unfold shortest_decimal.
  destruct (x <? two53)%N; [done|].
  assert (Hd : (N.of_nat (String.length (decimal x)) <= 21)%N).
  { pose proof (length_decimal x 21 Hlt ltac:(lia)). lia. }
  destruct (shortest_from_reads_back x _
              [1; 2; 3; 4; 5; 6; 7; 8; 9; 10; 11; 12; 13; 14; 15; 16; 17]%N Hx Hlt Hd)
    as [Hc Hle].
  split; [done|].
  destruct (N.eq_dec (shortest_from x (N.of_nat (String.length (decimal x)))
                        [1; 2; 3; 4; 5; 6; 7; 8; 9; 10; 11; 12; 13; 14; 15; 16; 17]%N)
                     (10 ^ 21)%N) as [Heq|Hne]; [|lia].
  assert (Hn : nearest_double (10 ^ 21) = Some (10 ^ 21)%N)
    by (vm_compute; reflexivity).
  rewrite Heq, Hn in Hc. injection Hc as Hc. lia.
Qed.

(** [parseInt(String(z), 10)] is [z] for every integer double of magnitude
    below 10^21. *)
Lemma parseInt_toString_Int (z : Z) :
  is_double z -> Z.abs z < 10 ^ 21 -> parseInt (Number_toString (Int z)) = Int z.
Proof.
  unfold is_double. intros Hd Hz.
  destruct (shortest_decimal_reads_back _ Hd) as [Hback Hlt]; [lia|].
  destruct z as [|p|p]; [reflexivity| |].
  - unfold Number_toString. cbv zeta.
    replace (Z.pos p <? 0) with false by reflexivity.
    rewrite positive_toString_decimal by done.
    change (EmptyString +:+ decimal (shortest_decimal (Z.abs_N (Z.pos p))))
      with (decimal (shortest_decimal (Z.abs_N (Z.pos p)))).
    rewrite parseInt_decimal. unfold double_of_integer. rewrite Hback. f_equal.
  - unfold Number_toString. cbv zeta.
    replace (Z.neg p <? 0) with true by reflexivity.
    rewrite positive_toString_decimal by done.
    change ("-" +:+ decimal (shortest_decimal (Z.abs_N (Z.neg p))))
      with (String "-" (decimal (shortest_decimal (Z.abs_N (Z.neg p))))).
    rewrite parseInt_minus_decimal. unfold double_of_integer. rewrite Hback. f_equal.
Qed.

(** Up to 2^53 every integer is a double. *)
Lemma is_double_small (z : Z) : Z.abs z < 2 ^ 53 -> is_double z.
Proof.
  intros Hz. unfold is_double, nearest_double.
  replace (Z.abs_N z <? two53)%N with true; [done|].
  symmetry. apply N.ltb_lt. unfold two53. lia.
Qed.

End StringFacts.

(* --------------------------------------------------------------------- *)
(** ** Integers beyond 2^53                                               *)
(* --------------------------------------------------------------------- *)
Section BigIntegers.

Lemma read_digits_bound (s : string) : forall (acc : N) (c : nat) (v : N) (c' : nat),
  read_digits s acc c = (v, c') ->
  (c <= c' <= c + String.length s)%nat /\ (v < (acc + 1) * 10 ^ N.of_nat (c' - c))%N.
Proof.
  induction s as [|ch s IH]; intros acc c v c' Hread; simpl in Hread.
  - injection Hread as <- <-. rewrite Nat.sub_diag. simpl. lia.
  - destruct (digit_value ch) as [d|] eqn:Hd.
    + assert (Hlt : (d < 10)%N).
      { unfold digit_value in Hd.
        destruct ((48 <=? N_of_ascii ch) && (N_of_ascii ch <=? 57))%N eqn:Hb; [|done].
        apply andb_true_iff in Hb as [H1 H2].
        apply N.leb_le in H1, H2. injection Hd as <-. lia. }
      destruct (IH _ _ _ _ Hread) as [Hc Hv]. simpl. split; [lia|].
      replace (c' - c)%nat with (S (c' - S c)) by lia.
      rewrite pow10_succ. nia.
    + injection Hread as <- <-. rewrite Nat.sub_diag. simpl. lia.
Qed.

(** A numeral has as many digits as its number needs. *)
Lemma decimal_lt_pow (x : N) : (x < 10 ^ N.of_nat (String.length (decimal x)))%N.
Proof.
  destruct (read_decimal x) as (len & Hlen & Hread).
  destruct (read_digits_bound _ _ _ _ _ Hread) as [Hc Hv].
  rewrite Nat.sub_0_r in Hv. simpl in Hc.
  eapply N.lt_le_trans; [|apply N.pow_le_mono_r; [lia|]].
  - replace ((0 + 1) * 10 ^ N.of_nat len)%N with (10 ^ N.of_nat len)%N in Hv by lia.
    exact Hv.
  - lia.
Qed.

Lemma decimal_fuel_ge_pow (fuel : nat) : forall (n : N) (acc : string),
  (0 < n)%N -> (n < 10 ^ N.of_nat fuel)%N ->
  exists d : nat,
    String.length (decimal_fuel fuel n acc) = (S d + String.length acc)%nat
    /\ (10 ^ N.of_nat d <= n)%N.
Proof.
  induction fuel as [|fuel IH]; intros n acc Hpos Hn; [simpl in Hn; lia|].
  simpl. destruct (N.ltb_spec n 10%N) as [Hlt|Hge].
  - exists 0%nat. simpl. split; [done|lia].
  - assert (Hdiv : (n / 10 < 10 ^ N.of_nat fuel)%N).
    { apply N.Div0.div_lt_upper_bound. rewrite pow10_succ in Hn. lia. }
    assert (Hq : (0 < n / 10)%N).
    { apply N.div_str_pos. lia. }
    destruct (IH (n / 10)%N (String (digit_char (n mod 10)) acc) Hq Hdiv)
      as (d & Hlen & Hle).
    exists (S d). split; [rewrite Hlen; simpl; lia|].
    rewrite pow10_succ.
    etransitivity; [apply N.mul_le_mono_l, Hle|apply N.Div0.mul_div_le].
Qed.

Lemma decimal_ge_pow (x : N) :
  (0 < x)%N -> (10 ^ N.of_nat (String.length (decimal x) - 1) <= x)%N.
Proof.
  intros Hpos. unfold decimal.
  destruct (decimal_fuel_ge_pow _ x EmptyString Hpos (fuel_enough x)) as (d & Hlen & Hle).
  rewrite Hlen. simpl. by replace (d + 0 - 0)%nat with d by lia.
Qed.

Lemma shortest_at_ge (x j c : N) (b : N) :
  shortest_at x j = Some c -> (10 ^ b <= x)%N -> (j <= b)%N -> (10 ^ b <= c)%N.
Proof.
  intros Hat Hx Hj.
  assert (Hlo : (10 ^ b <= x / 10 ^ j * 10 ^ j)%N).
  { assert (Hpow : (10 ^ b = 10 ^ (b - j) * 10 ^ j)%N).
    { rewrite <- N.pow_add_r. f_equal. lia. }
    rewrite Hpow. apply N.mul_le_mono_r.
    apply N.div_le_lower_bound; [apply N.pow_nonzero; lia|].
    rewrite N.mul_comm, <- Hpow. exact Hx. }
  revert Hat. unfold shortest_at. cbv zeta.
  set (p := (10 ^ j)%N) in *. set (lo := (x / p * p)%N) in *.
  destruct (match nearest_double lo with Some y => (y =? x)%N | None => false end);
    destruct (match nearest_double (lo + p) with Some y => (y =? x)%N | None => false end);
    try done.
  - destruct (x - lo <? lo + p - x)%N; [intros [= <-]; lia|].
    destruct (lo + p - x <? x - lo)%N; [intros [= <-]; lia|].
    destruct (N.even (x / p)); intros [= <-]; lia.
  - intros [= <-]. lia.
  - intros [= <-]. lia.
Qed.

Lemma shortest_from_ge (x digits : N) (ks : list N) (b : N) :
  (10 ^ b <= x)%N -> (digits <= b + 1)%N -> Forall (fun k => (1 <= k)%N) ks ->
  (10 ^ b <= shortest_from x digits ks)%N.
Proof.
  intros Hx Hd Hks. induction Hks as [|k ks Hk _ IH]; simpl; [done|].
  destruct (shortest_at x (digits - k)) as [c|] eqn:Hat; [|exact IH].
  eapply shortest_at_ge; [exact Hat|done|lia].
Qed.

(** The digits printed for an integer of 22 digits or more have 22 digits
    or more. *)
Lemma shortest_decimal_large (x : N) :
  (10 ^ 21 <= x)%N -> (21 < String.length (decimal (shortest_decimal x)))%nat.
Proof.
  intros Hx.
  assert (Hlarge : forall c : N, (10 ^ 21 <= c)%N ->
                     (21 < String.length (decimal c))%nat).
  { intros c Hc. pose proof (decimal_lt_pow c) as Hlt.
    destruct (Nat.lt_ge_cases 21 (String.length (decimal c))) as [|Hle]; [done|].
    assert ((10 ^ N.of_nat (String.length (decimal c)) <= 10 ^ 21)%N)
      by (apply N.pow_le_mono_r; lia).
    lia. }
  apply Hlarge. unfold shortest_decimal.
  destruct (x <? two53)%N; [done|].
  set (D := String.length (decimal x)).
  assert (HD : (10 ^ N.of_nat (D - 1) <= x)%N) by (apply decimal_ge_pow; lia).
  assert (H22 : (21 < D)%nat) by (by apply Hlarge).
  transitivity (10 ^ N.of_nat (D - 1))%N; [apply N.pow_le_mono_r; lia|].
  apply shortest_from_ge; [done|lia|].
  repeat constructor; lia.
Qed.

Lemma strip_trailing_zeros_head (c : ascii) (r : string) :
  strip_trailing_zeros (String c r) = EmptyString
  \/ exists r', strip_trailing_zeros (String c r) = String c r'.
Proof.
  simpl. destruct (strip_trailing_zeros r).
  - destruct (Ascii.eqb c "0"); [by left|right; by eexists].
  - right. by eexists.
Qed.

(** Read with [parseInt], the exponent notation gives at most its first
    digit. *)
Lemma parseInt_exponent_notation (neg : bool) (s : string) (n : Z) :
  21 < n ->
  (s = EmptyString
   \/ exists d r, (d < 10)%N /\ s = String (digit_char d) r) ->
  exists d : N,
    (d < 10)%N
    /\ (parseInt ((if neg then "-" else EmptyString) +:+ positive_toString s n) = NaN
        \/ parseInt ((if neg then "-" else EmptyString) +:+ positive_toString s n)
           = double_of_integer neg d).
Proof.
  intros Hn Hs. unfold positive_toString. cbv zeta.
  replace ((-5 <=? n) && (n <=? 21)) with false
    by (symmetry; apply andb_false_iff; right; apply Z.leb_gt; lia).
  set (ex := (if n - 1 <? 0 then "-" else "+") +:+ decimal (Z.abs_N (n - 1))).
  destruct Hs as [->|(d & r & Hd & ->)].
  - exists 0%N. split; [lia|]. left. simpl. by destruct neg.
  - exists d. split; [done|]. right.
    assert (Hone : forall rest : string,
              parseInt ((if neg then "-" else EmptyString)
                        +:+ String (digit_char d) (String "." rest))
              = double_of_integer neg d
              /\ parseInt ((if neg then "-" else EmptyString)
                           +:+ String (digit_char d) (String "e" rest))
                 = double_of_integer neg d).
    { intros rest.
      assert (Hcases : (d = 0 \/ d = 1 \/ d = 2 \/ d = 3 \/ d = 4 \/ d = 5 \/ d = 6
                       \/ d = 7 \/ d = 8 \/ d = 9)%N) by lia.
      repeat destruct Hcases as [->|Hcases]; try subst d;
        destruct neg; split; reflexivity. }
    destruct r as [|c' r'].
    + simpl. apply (Hone ex).
    + replace (Z.of_nat (String.length (String (digit_char d) (String c' r'))) =? 1)
        with false by (symmetry; apply Z.eqb_neq; simpl String.length; lia).
      simpl. apply (Hone _).
Qed.

(** An integer of magnitude 10^21 or more does not come back from its
    text. *)
Lemma parseInt_toString_large (z : Z) :
  10 ^ 21 <= Z.abs z -> parseInt (Number_toString (Int z)) <> Int z.
Proof.
  intros Hz.
  assert (Hx : (10 ^ 21 <= Z.abs_N z)%N) by lia.
  pose proof (shortest_decimal_large _ Hx) as Hlen.
  set (c := shortest_decimal (Z.abs_N z)) in *.
  assert (Hs : strip_trailing_zeros (decimal c) = EmptyString
               \/ exists d r, (d < 10)%N
                    /\ strip_trailing_zeros (decimal c) = String (digit_char d) r).
  { destruct (decimal_head c) as (d & rest & Hd & Heq). rewrite Heq.
    destruct (strip_trailing_zeros_head (digit_char d) rest) as [->|[r' ->]];
      [by left|right; by exists d, r']. }
  destruct (parseInt_exponent_notation (z <? 0) _
              (Z.of_nat (String.length (decimal c))) ltac:(lia) Hs)
    as (d & Hd & Hparse).
  assert (Heq : Number_toString (Int z)
                = (if z <? 0 then "-" else EmptyString)
                  +:+ positive_toString (strip_trailing_zeros (decimal c))
                        (Z.of_nat (String.length (decimal c)))).
  { destruct z; [simpl in Hz; lia|reflexivity|reflexivity]. }
  rewrite Heq. destruct Hparse as [-> | ->]; [discriminate|].
  unfold double_of_integer, nearest_double.
  replace (d <? two53)%N with true by (symmetry; apply N.ltb_lt; unfold two53; lia).
  intros [= H]. destruct (z <? 0); lia.
Qed.

End BigIntegers.

Section ParseIntFacts.

Lemma parseInt_not_Fraction (text : string) (neg : bool) (d : string) (n : Z) :
  parseInt text <> Fraction neg d n.
Proof.
  unfold parseInt.
  match goal with |- context [let '(a, b) := ?m in _] => destruct m as [sign digits] end.
  destruct (read_digits digits 0 0) as [v [|c]]; [discriminate|].
  unfold double_of_integer. destruct (nearest_double v); discriminate.
Qed.

End ParseIntFacts.

(* --------------------------------------------------------------------- *)
(** ** Own properties                                                     *)
(* --------------------------------------------------------------------- *)

Section PropertyFacts.

Implicit Types (k : string) (v : json) (ps : list (string * json)).

Lemma precedes_asym k k' : precedes k k' = true -> precedes k' k = false.
Proof.
  unfold precedes.
  destruct (array_index k) as [i|], (array_index k') as [i'|]; try done.
  intros H%N.ltb_lt. apply N.ltb_ge. lia.
Qed.

Lemma precedes_irrefl k : precedes k k = false.
Proof.
  unfold precedes. destruct (array_index k); [apply N.ltb_irrefl|done].
Qed.

Lemma precedes_trans k1 k2 k3 :
  precedes k1 k2 = true -> precedes k2 k3 = true -> precedes k1 k3 = true.
Proof.
  unfold precedes.
  destruct (array_index k1), (array_index k2), (array_index k3); try done.
  intros H1%N.ltb_lt H2%N.ltb_lt. apply N.ltb_lt. lia.
Qed.

(** When [k] goes before [k'], a key that does not go before [k'] does not
    go before [k] either. *)
Lemma precedes_false_trans k q k' :
  precedes k k' = true -> precedes q k' = false -> precedes q k = false.
Proof.
  intros H1 H2. destruct (precedes q k) eqn:H; [|done].
  rewrite (precedes_trans _ _ _ H H1) in H2. done.
Qed.

Lemma own_define_eq k v ps : own_property k (define_property k v ps) = Some v.
Proof.
  induction ps as [|[k' v'] ps IH]; simpl.
  - by rewrite String.eqb_refl.
  - destruct (String.eqb_spec k k') as [->|Hne]; simpl.
    + by rewrite String.eqb_refl.
    + destruct (precedes k k'); simpl.
      * by rewrite String.eqb_refl.
      * destruct (String.eqb_spec k k'); [done|exact IH].
Qed.

Lemma own_define_ne k k' v ps :
  k <> k' -> own_property k' (define_property k v ps) = own_property k' ps.
Proof.
  intros Hne. induction ps as [|[k0 v0] ps IH]; simpl.
  - destruct (String.eqb_spec k' k); [congruence|done].
  - destruct (String.eqb_spec k k0) as [->|Hne0]; simpl.
    + destruct (String.eqb_spec k' k0); [congruence|done].
    + destruct (precedes k k0); simpl.
      * destruct (String.eqb_spec k' k); [congruence|done].
      * destruct (String.eqb_spec k' k0); [done|exact IH].
Qed.

Lemma own_delete_ne k k' ps :
  k <> k' -> own_property k' (delete_property k ps) = own_property k' ps.
Proof.
  intros Hne. induction ps as [|[k0 v0] ps IH]; simpl; [done|].
  destruct (String.eqb_spec k k0) as [->|Hne0]; simpl.
  - destruct (String.eqb_spec k' k0); [congruence|done].
  - destruct (String.eqb_spec k' k0); [done|exact IH].
Qed.

Lemma own_property_None k ps :
  Forall (fun q => fst q <> k) ps -> own_property k ps = None.
Proof.
  induction 1 as [|[k0 v0] ps Hq _ IH]; simpl; [done|].
  destruct (String.eqb_spec k k0); [simpl in Hq; congruence|exact IH].
Qed.

Lemma own_delete_eq k ps :
  Canonical ps -> own_property k (delete_property k ps) = None.
Proof.
  induction 1 as [|k0 v0 ps Hall _ IH]; simpl; [done|].
  destruct (String.eqb_spec k k0) as [->|Hne]; simpl.
  - apply own_property_None. eapply Forall_impl; [exact Hall|]. by intros q [H _].
  - destruct (String.eqb_spec k k0); [done|exact IH].
Qed.

Lemma Forall_define (P : string -> Prop) k v ps :
  P k -> Forall (fun q => P (fst q)) ps ->
  Forall (fun q => P (fst q)) (define_property k v ps).
Proof.
  intros Hk. induction 1 as [|[k0 v0] ps Hq Hps IH]; simpl.
  - by constructor.
  - destruct (String.eqb k k0); [by constructor|].
    destruct (precedes k k0); by repeat constructor.
Qed.

Lemma Forall_delete (P : string * json -> Prop) k ps :
  Forall P ps -> Forall P (delete_property k ps).
Proof.
  induction 1 as [|[k0 v0] ps Hq Hps IH]; simpl; [done|].
  destruct (String.eqb k k0); [done|by constructor].
Qed.

Lemma Canonical_define k v ps : Canonical ps -> Canonical (define_property k v ps).
Proof.
  induction 1 as [|k0 v0 ps Hall Hps IH]; simpl.
  - by repeat constructor.
  - destruct (String.eqb_spec k k0) as [->|Hne]; [by constructor|].
    destruct (precedes k k0) eqn:Hpre.
    + constructor; [|by constructor].
      constructor; [split; [done|by apply precedes_asym]|].
      eapply Forall_impl; [exact Hall|]. intros q [Hq1 Hq2]. split.
      * intros Heq. rewrite Heq in Hq2. congruence.
      * by eapply precedes_false_trans.
    + constructor; [|exact IH].
      apply (Forall_define (fun x => x <> k0 /\ precedes x k0 = false)); done.
Qed.

Lemma Canonical_delete k ps : Canonical ps -> Canonical (delete_property k ps).
Proof.
  induction 1 as [|k0 v0 ps Hall Hps IH]; simpl; [constructor|].
  destruct (String.eqb k k0); [done|].
  constructor; [by apply Forall_delete|exact IH].
Qed.

Lemma all_targets_define k v ps :
  is_target v = true -> all_targets ps = true ->
  all_targets (define_property k v ps) = true.
Proof.
  intros Hv. unfold all_targets. induction ps as [|[k0 v0] ps IH]; simpl.
  - by rewrite Hv.
  - intros [H0 Hps]%andb_prop. destruct (String.eqb k k0); simpl.
    + by rewrite Hv, Hps.
    + destruct (precedes k k0); simpl in *.
      * by rewrite Hv, H0, Hps.
      * by rewrite H0, IH.
Qed.

Lemma all_targets_delete k ps :
  all_targets ps = true -> all_targets (delete_property k ps) = true.
Proof.
  unfold all_targets. induction ps as [|[k0 v0] ps IH]; simpl; [done|].
  intros [H0 Hps]%andb_prop. destruct (String.eqb k k0); simpl; [done|].
  by rewrite H0, IH.
Qed.

(** Creating the properties of a canonical list one after the other, in
    the order of the list, gives the list back. *)
Lemma define_last k v ps :
  Forall (fun q => k <> fst q /\ precedes k (fst q) = false) ps ->
  define_property k v ps = ps ++ [(k, v)].
Proof.
  induction 1 as [|[k0 v0] ps [Hne Hpre] _ IH]; simpl; [done|].
  simpl in *. destruct (String.eqb_spec k k0); [done|].
  by rewrite Hpre, IH.
Qed.

Lemma Canonical_app_last ps k v rest :
  Canonical (ps ++ (k, v) :: rest) ->
  Forall (fun q => k <> fst q /\ precedes k (fst q) = false) ps.
Proof.
  induction ps as [|[k0 v0] ps IH]; simpl; [constructor|].
  inversion 1 as [|? ? ? Hall Hps]; subst. constructor; [|by apply IH].
  rewrite Forall_app in Hall. destruct Hall as [_ Hall].
  inversion Hall as [|? ? [H1 H2] _]; subst. done.
Qed.

End PropertyFacts.

(* --------------------------------------------------------------------- *)
(** ** JSON: what [stringify] writes, [parse] reads back                  *)
(* --------------------------------------------------------------------- *)

Section JsonFacts.

Implicit Types (k : string) (v : json) (ps : list (string * json)).

Lemma lex_quote_char (c : ascii) (acc : string) (toks : list token) (b : bool)
    (rest : string) :
  lex (mkLexer (LString acc) toks b) (quote_char c +:+ rest)
  = lex (mkLexer (LString (snoc_string acc c)) toks b) rest.
Proof. destruct c as [[] [] [] [] [] [] [] []]; reflexivity. Qed.

Lemma snoc_string_append (acc : string) (c : ascii) (k : string) :
  snoc_string acc c +:+ k = acc +:+ String c k.
Proof. unfold snoc_string. by rewrite append_assoc. Qed.

Lemma lex_quote_chars k : forall (acc : string) (toks : list token) (b : bool)
    (rest : string),
  lex (mkLexer (LString acc) toks b) (quote_chars k +:+ String quotation_mark rest)
  = lex (mkLexer LStart (toks ++ [TString (acc +:+ k)]) b) rest.
Proof.
  induction k as [|c k IH]; intros acc toks b rest.
  - simpl. by rewrite append_nil_r.
  - simpl. rewrite append_assoc, lex_quote_char, IH, snoc_string_append. done.
Qed.

Lemma lex_quote k (toks : list token) (b : bool) (rest : string) :
  lex (mkLexer LStart toks b) (quote k +:+ rest)
  = lex (mkLexer LStart (toks ++ [TString k]) b) rest.
Proof.
  unfold quote. simpl. rewrite append_assoc. simpl.
  apply (lex_quote_chars k EmptyString).
Qed.

Lemma is_target_cases v :
  is_target v = true -> v = JNumber (Int 0) \/ v = JNumber (Int 1).
Proof.
  destruct v as [| |n| | |]; try done.
  destruct n as [| |z|]; try done.
  destruct z as [|p|]; try done; [by left|].
  destruct p; try done. by right.
Qed.

Lemma lex_member k v (toks : list token) (c : ascii) (rest : string) :
  is_target v = true ->
  c = ","%char \/ c = "}"%char ->
  lex (mkLexer LStart toks false) (member_text (k, v) +:+ String c rest)
  = lex (mkLexer LStart
           (toks ++ [TString k; TColon;
                     TNumber (match v with JNumber n => n | _ => NaN end);
                     if Ascii.eqb c "," then TComma else TRBrace]) false) rest.
Proof.
  intros Hv Hc. unfold member_text. simpl fst. simpl snd.
  rewrite append_assoc, lex_quote.
  destruct (is_target_cases v Hv) as [-> | ->], Hc as [-> | ->]; simpl;
    rewrite <- !app_assoc; reflexivity.
Qed.

Lemma lex_members ps : forall (toks : list token) (rest : string),
  all_targets ps = true ->
  lex (mkLexer LStart toks false)
      (join (map (fun p => quote (fst p) +:+ ":" +:+ stringify (snd p)) ps)
       +:+ String "}" rest)
  = lex (mkLexer LStart (toks ++ member_tokens ps ++ [TRBrace]) false) rest.
Proof.
  induction ps as [|[k v] ps IH]; intros toks rest Hall.
  - reflexivity.
  - unfold all_targets in Hall. simpl in Hall.
    apply andb_prop in Hall as [Hv Hps].
    destruct ps as [|p ps].
    + change (join (map _ [(k, v)])) with (member_text (k, v)).
      rewrite (lex_member k v toks "}" rest Hv (or_intror eq_refl)).
      simpl. reflexivity.
    + change (join (map ?f ((k, v) :: p :: ps)))
        with (member_text (k, v) +:+ "," +:+ join (map f (p :: ps))).
      rewrite !append_assoc.
      change ("," +:+ ?x) with (String "," x).
      rewrite (lex_member k v toks "," _ Hv (or_introl eq_refl)).
      rewrite (IH _ rest Hps).
      change (member_tokens ((k, v) :: p :: ps))
        with ([TString k; TColon;
               TNumber (match v with JNumber n => n | _ => NaN end); TComma]
              ++ member_tokens (p :: ps)).
      change (if Ascii.eqb "," "," then TComma else TRBrace) with TComma.
      rewrite <- !app_assoc. reflexivity.
Qed.

Lemma tokenize_target_map ps :
  all_targets ps = true ->
  tokenize (stringify (JObject ps)) = Some (TLBrace :: member_tokens ps ++ [TRBrace], false).
Proof.
  intros Hall. unfold tokenize.
  change (stringify (JObject ps))
    with ("{" +:+ join (map (fun p => quote (fst p) +:+ ":" +:+ stringify (snd p)) ps)
          +:+ "}").
  change (lex (mkLexer LStart [] false) ("{" +:+ ?x))
    with (lex (mkLexer LStart [TLBrace] false) x).
  rewrite (lex_members ps [TLBrace] EmptyString Hall). reflexivity.
Qed.

Lemma parse_members ps : forall (acc : list (string * json)) (k0 : string)
    (st : list frame) (e : expect) (rest : list token),
  all_targets ps = true ->
  e = EKey \/ e = EFirstKey ->
  ps <> [] ->
  parse_tokens (e, FObject acc k0 :: st) (member_tokens ps ++ TRBrace :: rest)
  = parse_tokens (deliver (JObject (define_all acc ps)) st) rest.
Proof.
  induction ps as [|[k v] ps IH]; intros acc k0 st e rest Hall He Hne; [done|].
  unfold all_targets in Hall. simpl in Hall.
  apply andb_prop in Hall as [Hv Hps].
  assert (Hnum : JNumber (match v with JNumber n => n | _ => NaN end) = v).
  { by destruct (is_target_cases v Hv) as [-> | ->]. }
  destruct ps as [|p ps].
  - destruct He as [-> | ->]; simpl; rewrite Hnum; reflexivity.
  - change (member_tokens ((k, v) :: p :: ps))
      with ([TString k; TColon;
             TNumber (match v with JNumber n => n | _ => NaN end); TComma]
            ++ member_tokens (p :: ps)).
    rewrite <- app_assoc.
    destruct He as [-> | ->]; simpl; rewrite Hnum;
      rewrite (IH _ k st EKey rest Hps (or_introl eq_refl) ltac:(done));
      reflexivity.
Qed.

Lemma define_all_canonical ps : forall acc : list (string * json),
  Canonical (acc ++ ps) -> define_all acc ps = acc ++ ps.
Proof.
  induction ps as [|[k v] ps IH]; intros acc Hc; simpl.
  - by rewrite app_nil_r.
  - rewrite (define_last k v acc) by (by eapply Canonical_app_last).
    rewrite IH; rewrite <- app_assoc; done.
Qed.

(** The numbers of a target map are integers. *)
Lemma target_map_within_model ps :
  all_targets ps = true -> numbers_within_model (JObject ps) = true.
Proof.
  intros Hall. simpl. unfold all_targets in Hall.
  rewrite forallb_forall in *. intros p Hp. specialize (Hall p Hp).
  by destruct (snd p) as [| |[| |[| [| |]|]|]| | |].
Qed.

(** [JSON.parse(JSON.stringify(o)) = o] for a target map [o]. *)
Lemma parse_stringify_target_map ps :
  all_targets ps = true -> Canonical ps ->
  JSON_parse (JSON_stringify (JObject ps)) = Normal (JObject ps).
Proof.
  intros Hall Hc. unfold JSON_parse, JSON_stringify.
  rewrite (tokenize_target_map ps Hall).
  destruct ps as [|p ps]; [reflexivity|].
  change (parse_tokens (EValue, []) (TLBrace :: member_tokens (p :: ps) ++ [TRBrace]))
    with (parse_tokens (EFirstKey, [FObject [] EmptyString])
            (member_tokens (p :: ps) ++ [TRBrace])).
  rewrite (parse_members (p :: ps) [] EmptyString [] EFirstKey []
             Hall (or_intror eq_refl) ltac:(done)).
  rewrite (define_all_canonical (p :: ps) [] Hc).
  change (parse_tokens (deliver (JObject ([] ++ p :: ps)) []) [])
    with (Some (EDone (JObject (p :: ps)), @nil frame)).
  cbv beta iota. by rewrite target_map_within_model.
Qed.

Lemma deliver_ok v (st : list frame) :
  value_ok v -> Forall frame_ok st -> parser_ok (deliver v st).
Proof.
  intros Hv Hst. destruct st as [|[els|ps k] st]; simpl.
  - by split.
  - split; [done|]. inversion Hst; subst. by constructor.
  - split; [done|]. inversion Hst; subst. constructor; [|done].
    by apply Canonical_define.
Qed.

Lemma parse_step_ok (p p' : parser) (t : token) :
  parser_ok p -> parse_step p t = Some p' -> parser_ok p'.
Proof.
  destruct p as [e stack]. intros [He Hst] Hstep. simpl in He, Hst.
  assert (Hnil : Forall frame_ok ([] : list frame)) by constructor.
  assert (Hpush : forall f, frame_ok f -> Forall frame_ok (f :: stack))
    by (intros; by constructor).
  destruct e, t; simpl in Hstep;
    try (inversion Hstep; subst; clear Hstep;
         first [ by apply deliver_ok
               | split; [done|]; first [done | apply Hpush; simpl; constructor] ]);
    destruct stack as [|[els|ps k] stack']; try done;
    inversion Hstep; subst; clear Hstep;
    inversion Hst; subst;
    first [ by apply deliver_ok | split; [done|]; by constructor ].
Qed.

Lemma parse_tokens_ok (ts : list token) : forall p p' : parser,
  parser_ok p -> parse_tokens p ts = Some p' -> parser_ok p'.
Proof.
  induction ts as [|t ts IH]; intros p p' Hp Hparse; simpl in Hparse.
  - by inversion Hparse; subst.
  - destruct (parse_step p t) as [p1|] eqn:Hstep; [|done].
    eapply IH; [|exact Hparse]. by eapply parse_step_ok.
Qed.

(** An object [JSON.parse] returns lists its properties in key order. *)
Lemma JSON_parse_canonical (text : string) ps :
  JSON_parse text = Normal (JObject ps) -> Canonical ps.
Proof.
  unfold JSON_parse. destruct (tokenize text) as [[toks beyond]|]; [|done].
  destruct (parse_tokens (EValue, []) toks) as [[e st]|] eqn:Hparse; [|done].
  assert (Hok : parser_ok (e, st)).
  { eapply parse_tokens_ok; [|exact Hparse]. split; simpl; [done|constructor]. }
  destruct e; try done.
  destruct (beyond || negb (numbers_within_model v)); [done|].
  intros [= ->]. exact (proj1 Hok).
Qed.

End JsonFacts.

(* --------------------------------------------------------------------- *)
(** ** The caches and the primitive operations                            *)
(* --------------------------------------------------------------------- *)

Section CacheFacts.

Implicit Types (s : service) (c : gmap string string) (scope : StorageScope).

Lemma result_eta {A : Type} (r : result A) :
  mkResult (outcome r) (final r) (fired r) = r.
Proof. by destruct r. Qed.

Lemma bind_normal {A B : Type} (m : M A) (f : A -> M B) s (a : A) s'
    (evs : list event) :
  m s = mkResult (Normal a) s' evs ->
  bind m f s = mkResult (outcome (f a s')) (final (f a s')) (evs ++ fired (f a s')).
Proof. intros H. unfold bind. by rewrite H. Qed.

Lemma bind_pure {A B : Type} (m : M A) (f : A -> M B) s (a : A) :
  m s = mkResult (Normal a) s [] -> bind m f s = f a s.
Proof. intros H. rewrite (bind_normal m f s a s [] H). apply result_eta. Qed.

Lemma bind_throw {A B : Type} (m : M A) (f : A -> M B) s (e : error) s'
    (evs : list event) :
  m s = mkResult (Throw e) s' evs -> bind m f s = mkResult (Throw e) s' evs.
Proof. intros H. unfold bind. by rewrite H. Qed.

Lemma getCache_setCache scope c s : getCache scope (setCache scope c s) = c.
Proof. by destruct scope. Qed.

Lemma getCache_setCache_other scope scope' c s :
  scope <> scope' -> getCache scope' (setCache scope c s) = getCache scope' s.
Proof. by destruct scope, scope'. Qed.

Lemma setCache_getCache scope s : setCache scope (getCache scope s) s = s.
Proof. by destruct scope, s. Qed.

Lemma listeners_setCache scope c s :
  onWillSaveState (setCache scope c s) = onWillSaveState s.
Proof. by destruct scope. Qed.

Lemma TARGET_KEY_not_IS_NEW_KEY : TARGET_KEY <> IS_NEW_KEY.
Proof. done. Qed.

(** [doStore], case by case. *)
Lemma doStore_same key v scope s :
  getCache scope s !! key = Some (ToString v) ->
  doStore key v scope s = mkResult (Normal tt) s [].
Proof.
  intros H. change (doStore key v scope s) with (InMemory.doStore key v scope s).
  unfold InMemory.doStore, bind, Map_get. simpl.
  rewrite bool_decide_eq_true_2 by done. reflexivity.
Qed.

Lemma doStore_changed key v scope s :
  getCache scope s !! key <> Some (ToString v) ->
  doStore key v scope s
  = mkResult (Normal tt)
      (setCache scope (<[key := ToString v]> (getCache scope s)) s)
      (StorageChangeEvent key scope ::
       if String.eqb key TARGET_KEY then [StorageTargetChangeEvent scope] else []).
Proof.
  intros H. change (doStore key v scope s) with (InMemory.doStore key v scope s).
  unfold InMemory.doStore, bind, Map_get. simpl.
  rewrite bool_decide_eq_false_2 by done.
  unfold Map_set, fire_onDidChangeStorage, bind, emit, fire_onDidChangeTarget. simpl.
  destruct (String.eqb key TARGET_KEY); reflexivity.
Qed.

Lemma doRemove_absent key scope s :
  getCache scope s !! key = None ->
  doRemove key scope s = mkResult (Normal tt) s [].
Proof.
  intros H. change (doRemove key scope s) with (InMemory.doRemove key scope s).
  unfold InMemory.doRemove, bind, Map_delete. simpl.
  rewrite bool_decide_eq_false_2 by (rewrite H; by intros [? ?]).
  simpl. rewrite delete_id by done. by rewrite setCache_getCache.
Qed.

Lemma doRemove_present key scope s :
  is_Some (getCache scope s !! key) ->
  doRemove key scope s
  = mkResult (Normal tt)
      (setCache scope (delete key (getCache scope s)) s)
      (StorageChangeEvent key scope ::
       if String.eqb key TARGET_KEY then [StorageTargetChangeEvent scope] else []).
Proof.
  intros H. change (doRemove key scope s) with (InMemory.doRemove key scope s).
  unfold InMemory.doRemove, bind, Map_delete. simpl.
  rewrite bool_decide_eq_true_2 by done. simpl.
  unfold fire_onDidChangeStorage, bind, emit, fire_onDidChangeTarget. simpl.
  destruct (String.eqb key TARGET_KEY); reflexivity.
Qed.

Lemma getKeyTargets_run scope s :
  getKeyTargets scope s = mkResult (key_targets (getCache scope s)) s [].
Proof.
  unfold getKeyTargets, key_targets.
  change (get TARGET_KEY scope None) with (InMemory.get TARGET_KEY scope None).
  unfold InMemory.get, bind, Map_get. simpl.
  destruct (getCache scope s !! TARGET_KEY) as [[|ch raw]|]; simpl; try reflexivity.
  destruct (JSON_parse (String ch raw)) as [j|[]]; reflexivity.
Qed.

End CacheFacts.

(* --------------------------------------------------------------------- *)
(** ** The TargetMap                                                      *)
(* --------------------------------------------------------------------- *)

Section TargetMapFacts.

Implicit Types (s : service) (c : gmap string string) (scope : StorageScope)
  (ps : list (string * json)) (key : string) (t : StorageTarget).

#[local] Arguments JSON_stringify : simpl never.
#[local] Arguments stringify_reference : simpl never.
#[local] Arguments define_property : simpl never.
#[local] Arguments delete_property : simpl never.
#[local] Arguments doStore : simpl never.

Lemma stringify_object_nonempty ps :
  exists rest, JSON_stringify (JObject ps) = String "{" rest.
Proof. eexists. reflexivity. Qed.

Lemma key_targets_text c ps :
  all_targets ps = true -> Canonical ps ->
  c !! TARGET_KEY = Some (JSON_stringify (JObject ps)) ->
  key_targets c = Normal (FromJSON (JObject ps)).
Proof.
  intros Hall Hc Hlook. unfold key_targets. rewrite Hlook.
  destruct (stringify_object_nonempty ps) as [rest Hrest].
  rewrite Hrest. rewrite <- Hrest.
  by rewrite parse_stringify_target_map.
Qed.

Lemma key_targets_frame c c' :
  c' !! TARGET_KEY = c !! TARGET_KEY -> key_targets c' = key_targets c.
Proof. unfold key_targets. by intros ->. Qed.

Lemma well_formed_cache_frame c c' :
  c' !! TARGET_KEY = c !! TARGET_KEY -> well_formed_cache c' = well_formed_cache c.
Proof. unfold well_formed_cache. by intros ->. Qed.

Lemma well_formed_cache_text c ps :
  all_targets ps = true -> Canonical ps ->
  c !! TARGET_KEY = Some (JSON_stringify (JObject ps)) ->
  well_formed_cache c = true.
Proof.
  intros Hall Hc Hlook. unfold well_formed_cache. rewrite Hlook.
  destruct (stringify_object_nonempty ps) as [rest Hrest].
  rewrite Hrest. rewrite <- Hrest.
  by rewrite parse_stringify_target_map.
Qed.

(** In a well-formed partition [getKeyTargets] returns the empty
    prototype-less object or a parsed target map. *)
Lemma well_formed_key_targets c :
  well_formed_cache c = true ->
  key_targets c = Normal (NullProto [])
  \/ exists ps, key_targets c = Normal (FromJSON (JObject ps))
                /\ all_targets ps = true /\ Canonical ps.
Proof.
  unfold well_formed_cache, key_targets.
  destruct (c !! TARGET_KEY) as [[|ch raw]|]; [by left| |by left].
  destruct (JSON_parse (String ch raw)) as [j|e] eqn:Hparse.
  - destruct j; try done. intros Hall. right. eexists. split; [done|].
    split; [done|]. by eapply JSON_parse_canonical.
  - destruct e; try done. by left.
Qed.

Lemma well_formed_recorded scope s :
  well_formed_cache (getCache scope s) = true ->
  all_targets (recorded scope s) = true /\ Canonical (recorded scope s).
Proof.
  intros Hwf. unfold recorded.
  destruct (well_formed_key_targets _ Hwf) as [-> | (ps & -> & Hall & Hc)].
  - split; [done|constructor].
  - done.
Qed.

Lemma getCache_write_targets scope ps s :
  getCache scope (write_targets scope ps s)
  = <[TARGET_KEY := JSON_stringify (JObject ps)]> (getCache scope s).
Proof. apply getCache_setCache. Qed.

Lemma getCache_write_targets_other scope scope' ps s :
  scope <> scope' ->
  getCache scope' (write_targets scope ps s) = getCache scope' s.
Proof. apply getCache_setCache_other. Qed.

Lemma recorded_write_targets scope ps s :
  all_targets ps = true -> Canonical ps ->
  recorded scope (write_targets scope ps s) = ps.
Proof.
  intros Hall Hc. unfold recorded. rewrite getCache_write_targets.
  rewrite (key_targets_text _ ps Hall Hc); [done|]. apply lookup_insert_eq.
Qed.

Lemma from_json_write_targets scope ps s :
  all_targets ps = true -> Canonical ps ->
  from_json scope (write_targets scope ps s) = true.
Proof.
  intros Hall Hc. unfold from_json. rewrite getCache_write_targets.
  rewrite (key_targets_text _ ps Hall Hc); [done|]. apply lookup_insert_eq.
Qed.

(** Writing the text of a target map: nothing happens when the text is
    already there, otherwise the two events are fired. *)
Lemma doStore_targets scope ps s :
  doStore TARGET_KEY (VString (JSON_stringify (JObject ps))) scope s
  = mkResult (Normal tt) (write_targets scope ps s)
      (if bool_decide (getCache scope s !! TARGET_KEY
                       = Some (JSON_stringify (JObject ps)))
       then [] else target_events scope).
Proof.
  case_bool_decide as Hsame.
  - rewrite doStore_same by done. unfold write_targets.
    rewrite insert_id by done. by rewrite setCache_getCache.
  - rewrite doStore_changed by done. reflexivity.
Qed.

(** A partition whose text is the text of [ps'] records [ps']. *)
Lemma recorded_of_text scope ps' s :
  all_targets ps' = true -> Canonical ps' ->
  getCache scope s !! TARGET_KEY = Some (JSON_stringify (JObject ps')) ->
  recorded scope s = ps'.
Proof.
  intros Hall Hc Hlook. unfold recorded.
  by rewrite (key_targets_text _ ps' Hall Hc Hlook).
Qed.

Lemma is_target_number t : is_target (JNumber (target_number t)) = true.
Proof. by destruct t. Qed.

Lemma strict_equals_target v t :
  is_target v = true ->
  strict_equals_number v (target_number t) = true <-> v = JNumber (target_number t).
Proof.
  intros Hv. destruct (is_target_cases v Hv) as [-> | ->], t; simpl; split; done.
Qed.

Lemma all_targets_own key ps v :
  all_targets ps = true -> own_property key ps = Some v -> is_target v = true.
Proof.
  unfold all_targets. induction ps as [|[k0 v0] ps IH]; simpl; [done|].
  intros [H0 Hps]%andb_prop. destruct (String.eqb key k0); [|by apply IH].
  by intros [= <-].
Qed.

(** The cases of [wf]: what [getKeyTargets] returns, with what
    [recorded] and [from_json] make of it. *)
Lemma well_formed_cases scope s :
  well_formed_cache (getCache scope s) = true ->
  exists r ps,
    key_targets (getCache scope s) = Normal r /\ recorded scope s = ps
    /\ all_targets ps = true /\ Canonical ps
    /\ ((r = NullProto [] /\ ps = [] /\ from_json scope s = false)
        \/ (r = FromJSON (JObject ps) /\ from_json scope s = true)).
Proof.
  intros Hwf. unfold recorded, from_json.
  destruct (well_formed_key_targets _ Hwf) as [-> | (ps & -> & Hall & Hc)].
  - exists (NullProto []), []. repeat split; try done; [constructor|by left].
  - exists (FromJSON (JObject ps)), ps. repeat split; try done. by right.
Qed.

Lemma stringify_NullProto ps :
  stringify_reference (NullProto ps) = JSON_stringify (JObject ps).
Proof. reflexivity. Qed.

Lemma text_differs scope s ps' key :
  well_formed_cache (getCache scope s) = true ->
  all_targets ps' = true -> Canonical ps' ->
  own_property key ps' <> own_property key (recorded scope s) ->
  getCache scope s !! TARGET_KEY <> Some (JSON_stringify (JObject ps')).
Proof.
  intros Hwf Hall Hc Hne Hlook.
  apply Hne. by rewrite (recorded_of_text scope ps' s Hall Hc Hlook).
Qed.

Lemma getKeyTargets_normal scope s (r : reference) :
  key_targets (getCache scope s) = Normal r ->
  getKeyTargets scope s = mkResult (Normal r) s [].
Proof. intros H. by rewrite getKeyTargets_run, H. Qed.

Lemma lift_normal {A : Type} (c : completion A) (a : A) s :
  c = Normal a -> lift c s = mkResult (Normal a) s [].
Proof. by intros ->. Qed.

Lemma updateKeyTarget_store_same key scope t s :
  well_formed_cache (getCache scope s) = true ->
  recorded_target key scope s = Some (JNumber (target_number t)) ->
  updateKeyTarget key scope (Some t) s = mkResult (Normal tt) s [].
Proof.
  intros Hwf Hrec. unfold recorded_target in Hrec.
  destruct (well_formed_cases scope s Hwf)
    as (r & ps & Hkt & Hps & Hall & Hc & [(-> & -> & _) | (-> & _)]);
    rewrite Hps in Hrec; [done|].
  unfold updateKeyTarget.
  rewrite (bind_pure _ _ _ _ (getKeyTargets_normal _ _ _ Hkt)).
  erewrite bind_pure; [|apply lift_normal; simpl; by rewrite Hrec].
  by destruct t.
Qed.

Lemma updateKeyTarget_store_new key scope t s :
  well_formed_cache (getCache scope s) = true ->
  recorded_target key scope s <> Some (JNumber (target_number t)) ->
  key <> "__proto__" \/ from_json scope s = false
    \/ recorded_target key scope s <> None ->
  updateKeyTarget key scope (Some t) s
  = mkResult (Normal tt)
      (write_targets scope
         (define_property key (JNumber (target_number t)) (recorded scope s)) s)
      (target_events scope).
Proof.
  intros Hwf Hrec Hcase. unfold recorded_target in *.
  assert (Hdiff : getCache scope s !! TARGET_KEY
                  <> Some (JSON_stringify (JObject
                       (define_property key (JNumber (target_number t))
                          (recorded scope s))))).
  { destruct (well_formed_recorded scope s Hwf) as [Hall Hc].
    apply (text_differs scope s _ key Hwf).
    - apply all_targets_define; [apply is_target_number|done].
    - by apply Canonical_define.
    - rewrite own_define_eq. congruence. }
  destruct (well_formed_cases scope s Hwf)
    as (r & ps & Hkt & Hps & Hall & Hc & [(-> & -> & Hfj) | (-> & Hfj)]);
    rewrite Hps in *; unfold updateKeyTarget;
    rewrite (bind_pure _ _ _ _ (getKeyTargets_normal _ _ _ Hkt)).
  - erewrite bind_pure; [|apply lift_normal; reflexivity].
    cbv beta iota delta [not_strict_equal own_property].
    erewrite bind_pure; [|apply lift_normal; reflexivity].
    rewrite stringify_NullProto, doStore_targets.
    by rewrite bool_decide_eq_false_2 by exact Hdiff.
  - destruct (own_property key ps) as [v|] eqn:Hown.
    + assert (Hv : is_target v = true) by (by eapply all_targets_own).
      assert (Hneq : strict_equals_number v (target_number t) = false).
      { destruct (strict_equals_number v (target_number t)) eqn:Heq; [|done].
        apply strict_equals_target in Heq; [|done]. congruence. }
      erewrite bind_pure; [|apply lift_normal; simpl; by rewrite Hown].
      cbv beta iota delta [not_strict_equal]. rewrite Hneq.
      cbv beta iota delta [negb].
      erewrite bind_pure; [|apply lift_normal; simpl; by rewrite Hown].
      change (stringify_reference (FromJSON (JObject ?x)))
        with (JSON_stringify (JObject x)).
      rewrite doStore_targets.
      by rewrite bool_decide_eq_false_2 by exact Hdiff.
    + assert (Hkey : String.eqb key "__proto__" = false).
      { apply String.eqb_neq. destruct Hcase as [H | [H | H]]; congruence. }
      erewrite bind_pure; [|apply lift_normal; simpl; by rewrite Hown].
      assert (Hnse : not_strict_equal
                (if bool_decide (key ∈ Object_prototype_keys) then Inherited
                 else Undefined) (target_number t) = true)
        by (by destruct (bool_decide (key ∈ Object_prototype_keys))).
      rewrite Hnse.
      erewrite bind_pure; [|apply lift_normal; simpl; by rewrite Hown, Hkey].
      change (stringify_reference (FromJSON (JObject ?x)))
        with (JSON_stringify (JObject x)).
      rewrite doStore_targets.
      by rewrite bool_decide_eq_false_2 by exact Hdiff.
Qed.

(** The write the inherited [__proto__] swallows: the TargetMap is stored
    again as it was read. *)
Lemma updateKeyTarget_store_proto scope t s :
  well_formed_cache (getCache scope s) = true ->
  from_json scope s = true ->
  recorded_target "__proto__" scope s = None ->
  updateKeyTarget "__proto__" scope (Some t) s
  = doStore TARGET_KEY (VString (JSON_stringify (JObject (recorded scope s)))) scope s.
Proof.
  intros Hwf Hfj Hrec. unfold recorded_target in *.
  destruct (well_formed_cases scope s Hwf)
    as (r & ps & Hkt & Hps & Hall & Hc & [(-> & -> & Hfj') | (-> & _)]);
    [congruence|].
  rewrite Hps in *. unfold updateKeyTarget.
  rewrite (bind_pure _ _ _ _ (getKeyTargets_normal _ _ _ Hkt)).
  erewrite bind_pure; [|apply lift_normal; simpl; by rewrite Hrec].
  cbv beta iota delta [not_strict_equal].
  erewrite bind_pure; [|apply lift_normal; simpl; by rewrite Hrec].
  reflexivity.
Qed.

Lemma updateKeyTarget_remove_absent key scope s :
  well_formed_cache (getCache scope s) = true ->
  recorded_target key scope s = None ->
  updateKeyTarget key scope None s = mkResult (Normal tt) s [].
Proof.
  intros Hwf Hrec. unfold recorded_target in *.
  destruct (well_formed_cases scope s Hwf)
    as (r & ps & Hkt & Hps & Hall & Hc & [(-> & -> & Hfj) | (-> & Hfj)]);
    rewrite Hps in *; unfold updateKeyTarget;
    rewrite (bind_pure _ _ _ _ (getKeyTargets_normal _ _ _ Hkt)).
  - erewrite bind_pure; [|apply lift_normal; reflexivity]. reflexivity.
  - erewrite bind_pure; [|apply lift_normal; simpl; by rewrite Hrec].
    by destruct (bool_decide (key ∈ Object_prototype_keys)).
Qed.

Lemma updateKeyTarget_remove_present key scope s :
  well_formed_cache (getCache scope s) = true ->
  is_Some (recorded_target key scope s) ->
  updateKeyTarget key scope None s
  = mkResult (Normal tt)
      (write_targets scope (delete_property key (recorded scope s)) s)
      (target_events scope).
Proof.
  intros Hwf [v Hrec]. unfold recorded_target in *.
  assert (Hdiff : getCache scope s !! TARGET_KEY
                  <> Some (JSON_stringify (JObject
                       (delete_property key (recorded scope s))))).
  { destruct (well_formed_recorded scope s Hwf) as [Hall Hc].
    apply (text_differs scope s _ key Hwf).
    - by apply all_targets_delete.
    - by apply Canonical_delete.
    - rewrite own_delete_eq by done. congruence. }
  destruct (well_formed_cases scope s Hwf)
    as (r & ps & Hkt & Hps & Hall & Hc & [(-> & -> & Hfj) | (-> & Hfj)]);
    rewrite Hps in *; [done|].
  assert (Hv : is_target v = true) by (by eapply all_targets_own).
  unfold updateKeyTarget.
  rewrite (bind_pure _ _ _ _ (getKeyTargets_normal _ _ _ Hkt)).
  erewrite bind_pure; [|apply lift_normal; simpl; by rewrite Hrec].
  assert (Hnum : typeof_number (Own v) = true)
    by (by destruct (is_target_cases v Hv) as [-> | ->]).
  rewrite Hnum.
  erewrite bind_pure; [|apply lift_normal; reflexivity].
  change (stringify_reference (FromJSON (JObject ?x)))
    with (JSON_stringify (JObject x)).
  rewrite doStore_targets.
  by rewrite bool_decide_eq_false_2 by exact Hdiff.
Qed.

End TargetMapFacts.

(* --------------------------------------------------------------------- *)
(** ** The methods on well-formed states                                  *)
(* --------------------------------------------------------------------- *)

Section MethodFacts.

Implicit Types (s : service) (c : gmap string string) (scope : StorageScope)
  (ps : list (string * json)) (key : string) (t : StorageTarget) (v : value).

Lemma doStore_run key v scope s :
  doStore key v scope s
  = mkResult (Normal tt) (with_value key v scope s)
      (if bool_decide (getCache scope s !! key = Some (ToString v))
       then [] else change_events key scope).
Proof.
  case_bool_decide as Hsame.
  - rewrite doStore_same by done. unfold with_value.
    rewrite insert_id by done. by rewrite setCache_getCache.
  - by rewrite doStore_changed by done.
Qed.

Lemma doRemove_run key scope s :
  doRemove key scope s
  = mkResult (Normal tt) (without_value key scope s)
      (if bool_decide (is_Some (getCache scope s !! key))
       then change_events key scope else []).
Proof.
  case_bool_decide as Hsome.
  - by rewrite doRemove_present by done.
  - rewrite doRemove_absent.
    + unfold without_value. rewrite delete_id; [by rewrite setCache_getCache|].
      by apply eq_None_not_Some.
    + by apply eq_None_not_Some.
Qed.

Lemma getCache_with_value key v scope s :
  getCache scope (with_value key v scope s) = <[key := ToString v]> (getCache scope s).
Proof. apply getCache_setCache. Qed.

Lemma getCache_without_value key scope s :
  getCache scope (without_value key scope s) = delete key (getCache scope s).
Proof. apply getCache_setCache. Qed.

Lemma getCache_other scope scope' c s :
  getCache scope' (setCache scope c s)
  = if bool_decide (scope = scope') then c else getCache scope' s.
Proof. by destruct scope, scope'. Qed.

(** Two states whose partition holds the same text under [TARGET_KEY]
    record the same. *)
Lemma recorded_frame scope s s' :
  getCache scope s' !! TARGET_KEY = getCache scope s !! TARGET_KEY ->
  recorded scope s' = recorded scope s /\ from_json scope s' = from_json scope s
  /\ well_formed_cache (getCache scope s') = well_formed_cache (getCache scope s).
Proof.
  intros H. unfold recorded, from_json.
  rewrite (key_targets_frame _ _ H), (well_formed_cache_frame _ _ H). done.
Qed.

Lemma target_text_with_value key v scope scope' s :
  key <> TARGET_KEY ->
  getCache scope' (with_value key v scope s) !! TARGET_KEY
  = getCache scope' s !! TARGET_KEY.
Proof.
  intros Hne. unfold with_value. rewrite getCache_other. case_bool_decide; [|done].
  subst. by rewrite lookup_insert_ne.
Qed.

Lemma target_text_without_value key scope scope' s :
  key <> TARGET_KEY ->
  getCache scope' (without_value key scope s) !! TARGET_KEY
  = getCache scope' s !! TARGET_KEY.
Proof.
  intros Hne. unfold without_value. rewrite getCache_other. case_bool_decide; [|done].
  subst. by rewrite lookup_delete_ne.
Qed.

Lemma well_formed_scope scope s :
  well_formed s = true -> well_formed_cache (getCache scope s) = true.
Proof.
  unfold well_formed. intros [H1 H2]%andb_prop. by destruct scope.
Qed.

Lemma well_formed_intro s :
  (forall scope, well_formed_cache (getCache scope s) = true) ->
  well_formed s = true.
Proof.
  intros H. unfold well_formed.
  by rewrite (H GLOBAL : well_formed_cache (globalCache s) = true),
             (H WORKSPACE : well_formed_cache (workspaceCache s) = true).
Qed.

Lemma well_formed_frame s s' :
  (forall scope, getCache scope s' !! TARGET_KEY = getCache scope s !! TARGET_KEY) ->
  well_formed s = true -> well_formed s' = true.
Proof.
  intros H Hwf. apply well_formed_intro. intros scope.
  rewrite (well_formed_cache_frame _ _ (H scope)). by apply well_formed_scope.
Qed.

Lemma well_formed_write_targets scope ps s :
  all_targets ps = true -> Canonical ps ->
  well_formed s = true -> well_formed (write_targets scope ps s) = true.
Proof.
  intros Hall Hc Hwf. apply well_formed_intro. intros scope'.
  unfold write_targets. rewrite getCache_other. case_bool_decide.
  - apply (well_formed_cache_text _ ps Hall Hc). apply lookup_insert_eq.
  - by apply well_formed_scope.
Qed.

Lemma recorded_target_dec key scope t s :
  well_formed_cache (getCache scope s) = true ->
  recorded_target key scope s = Some (JNumber (target_number t))
  \/ recorded_target key scope s <> Some (JNumber (target_number t)).
Proof.
  intros Hwf. destruct (well_formed_recorded scope s Hwf) as [Hall _].
  unfold recorded_target. destruct (own_property key (recorded scope s)) as [v|] eqn:Hown;
    [|by right].
  pose proof (all_targets_own _ _ _ Hall Hown) as Hv.
  destruct (is_target_cases v Hv) as [-> | ->], t; simpl; (by left) || (by right).
Qed.

(** Whether a write of a target is the one the inherited accessor
    swallows. *)
Lemma swallowed_or_recorded key scope s :
  (key = "__proto__" /\ from_json scope s = true
   /\ recorded_target key scope s = None)
  \/ (key <> "__proto__" \/ from_json scope s = false
      \/ recorded_target key scope s <> None).
Proof.
  destruct (decide (key = "__proto__")); [|by right; left].
  destruct (from_json scope s); [|by right; right; left].
  destruct (recorded_target key scope s); [by right; right; right|by left].
Qed.

(** [updateKeyTarget] on a well-formed state: it returns, and the state is
    either untouched or holds a new target map. *)
Lemma updateKeyTarget_well_formed key scope (target : option StorageTarget) s :
  well_formed s = true ->
  exists evs s',
    updateKeyTarget key scope target s = mkResult (Normal tt) s' evs
    /\ well_formed s' = true
    /\ (evs = [] \/ evs = target_events scope)
    /\ (s' = s \/ exists ps, s' = write_targets scope ps s).
Proof.
  intros Hwf. pose proof (well_formed_scope scope s Hwf) as Hwfc.
  destruct (well_formed_recorded scope s Hwfc) as [Hall Hc].
  destruct target as [t|].
  - destruct (recorded_target_dec key scope t s Hwfc) as [Hsame|Hdiff].
    + rewrite updateKeyTarget_store_same by done. eauto 10.
    + destruct (swallowed_or_recorded key scope s) as [(-> & Hfj & Hnone)|Hother].
      * rewrite updateKeyTarget_store_proto, doStore_targets by done.
        eexists _, _. split; [reflexivity|]. split; [by apply well_formed_write_targets|].
        split; [case_bool_decide; eauto|eauto].
      * rewrite updateKeyTarget_store_new by done.
        eexists _, _. split; [reflexivity|]. split; [|eauto].
        apply well_formed_write_targets; [| |done].
        -- apply all_targets_define; [apply is_target_number|done].
        -- by apply Canonical_define.
  - destruct (recorded_target key scope s) as [v|] eqn:Hrec.
    + rewrite updateKeyTarget_remove_present by (done || by rewrite Hrec).
      eexists _, _. split; [reflexivity|]. split; [|eauto].
      apply well_formed_write_targets; [| |done].
      * by apply all_targets_delete.
      * by apply Canonical_delete.
    + rewrite updateKeyTarget_remove_absent by done. eauto 10.
Qed.

Lemma store2_unfold key v scope t s :
  isUndefinedOrNull v = false ->
  store2 key v scope t s
  = let u := updateKeyTarget key scope (Some t) (with_value key v scope s) in
    mkResult (outcome u) (final u)
      ((if bool_decide (getCache scope s !! key = Some (ToString v))
        then [] else change_events key scope) ++ fired u).
Proof.
  intros Hv. unfold store2. rewrite Hv.
  by rewrite (bind_normal _ _ _ _ _ _ (doStore_run key v scope s)).
Qed.

Lemma remove_unfold key scope s :
  remove key scope s
  = let u := updateKeyTarget key scope None (without_value key scope s) in
    mkResult (outcome u) (final u)
      ((if bool_decide (is_Some (getCache scope s !! key))
        then change_events key scope else []) ++ fired u).
Proof.
  unfold remove. by rewrite (bind_normal _ _ _ _ _ _ (doRemove_run key scope s)).
Qed.

Lemma store2_null key v scope t s :
  isUndefinedOrNull v = true -> store2 key v scope t s = remove key scope s.
Proof. intros Hv. unfold store2. by rewrite Hv. Qed.

Lemma well_formed_with_value key v scope s :
  key <> TARGET_KEY -> well_formed s = true ->
  well_formed (with_value key v scope s) = true.
Proof.
  intros Hne. apply well_formed_frame. intros scope'.
  by apply target_text_with_value.
Qed.

Lemma well_formed_without_value key scope s :
  well_formed s = true -> well_formed (without_value key scope s) = true.
Proof.
  intros Hwf. destruct (decide (key = TARGET_KEY)) as [->|Hne].
  - apply well_formed_intro. intros scope'. unfold without_value.
    rewrite getCache_other. case_bool_decide; [|by apply well_formed_scope].
    unfold well_formed_cache. by rewrite lookup_delete_eq.
  - revert Hwf. apply well_formed_frame. intros scope'.
    by apply target_text_without_value.
Qed.

(** The caches outside [TARGET_KEY] after [updateKeyTarget]. *)
Lemma updateKeyTarget_frame key scope (target : option StorageTarget) s k scope' :
  well_formed s = true -> k <> TARGET_KEY ->
  getCache scope' (final (updateKeyTarget key scope target s)) !! k
  = getCache scope' s !! k.
Proof.
  intros Hwf Hk.
  destruct (updateKeyTarget_well_formed key scope target s Hwf)
    as (evs & s' & -> & _ & _ & [-> | [ps ->]]); simpl; [done|].
  unfold write_targets. rewrite getCache_other. case_bool_decide; [|done].
  subst. by rewrite lookup_insert_ne.
Qed.

Lemma updateKeyTarget_other_scope key scope (target : option StorageTarget) s scope' :
  well_formed s = true -> scope <> scope' ->
  getCache scope' (final (updateKeyTarget key scope target s)) = getCache scope' s.
Proof.
  intros Hwf Hne.
  destruct (updateKeyTarget_well_formed key scope target s Hwf)
    as (evs & s' & -> & _ & _ & [-> | [ps ->]]); simpl; [done|].
  by apply getCache_write_targets_other.
Qed.

Lemma updateKeyTarget_listeners key scope (target : option StorageTarget) s :
  well_formed s = true ->
  onWillSaveState (final (updateKeyTarget key scope target s)) = onWillSaveState s.
Proof.
  intros Hwf.
  destruct (updateKeyTarget_well_formed key scope target s Hwf)
    as (evs & s' & -> & _ & _ & [-> | [ps ->]]); simpl; [done|].
  apply listeners_setCache.
Qed.

(** [keys] on a well-formed partition lists the recorded keys of the
    target, and touches nothing. *)
Lemma keys_run scope t s :
  well_formed_cache (getCache scope s) = true ->
  keys scope t s = mkResult (Normal (collect_keys t (recorded scope s))) s [].
Proof.
  intros Hwf.
  destruct (well_formed_cases scope s Hwf)
    as (r & ps & Hkt & Hps & Hall & Hc & [(-> & -> & Hfj) | (-> & Hfj)]);
    unfold keys; rewrite (bind_pure _ _ _ _ (getKeyTargets_normal _ _ _ Hkt));
    (erewrite bind_pure; [|apply lift_normal; reflexivity]);
    by rewrite Hps.
Qed.

Lemma own_property_elem k (v : json) ps :
  Canonical ps -> (k, v) ∈ ps <-> own_property k ps = Some v.
Proof.
  induction 1 as [|k0 v0 ps Hall Hc IH]; simpl.
  - split; [by intros ?%elem_of_nil|done].
  - rewrite elem_of_cons. destruct (String.eqb_spec k k0) as [->|Hne].
    + split.
      * intros [[= ->]|Hin]; [done|].
        rewrite Forall_forall in Hall. by destruct (Hall _ Hin) as [? _].
      * intros [= ->]. by left.
    + rewrite <- IH. split; [|by right]. intros [[= ? ?]|?]; done.
Qed.

Lemma elem_of_collect_keys_acc t k ps : forall acc : list string,
  k ∈ foldl (fun keys entry =>
               if strict_equals_number (snd entry) (target_number t)
               then keys ++ [fst entry] else keys) acc ps
  <-> k ∈ acc \/ exists v : json, (k, v) ∈ ps
                  /\ strict_equals_number v (target_number t) = true.
Proof.
  induction ps as [|[k0 v0] ps IH]; intros acc; simpl.
  - split; [by left|]. intros [?|(v & ?%elem_of_nil & _)]; done.
  - rewrite IH. destruct (strict_equals_number v0 (target_number t)) eqn:Heq.
    + rewrite elem_of_app, list_elem_of_singleton. split.
      * intros [[?| ->]|(v & Hin & Hv)]; [by left| |].
        -- right. exists v0. split; [by left|done].
        -- right. exists v. split; [by right|done].
      * intros [?|(v & Hin & Hv)]; [by left; left|].
        apply elem_of_cons in Hin as [[= -> ->]|Hin]; [by left; right|].
        right. by exists v.
    + split.
      * intros [?|(v & Hin & Hv)]; [by left|]. right. exists v. split; [by right|done].
      * intros [?|(v & Hin & Hv)]; [by left|].
        apply elem_of_cons in Hin as [[= -> ->]|Hin]; [congruence|].
        right. by exists v.
Qed.

(** A key is listed for a target exactly when that is its recorded
    target. *)
Lemma elem_of_collect_keys t k ps :
  Canonical ps -> all_targets ps = true ->
  k ∈ collect_keys t ps <-> own_property k ps = Some (JNumber (target_number t)).
Proof.
  intros Hc Hall. unfold collect_keys. rewrite elem_of_collect_keys_acc. split.
  - intros [?%elem_of_nil|(v & Hin & Hv)]; [done|].
    apply own_property_elem in Hin; [|done].
    apply strict_equals_target in Hv; [|by eapply all_targets_own].
    by subst.
  - intros Hown. right. exists (JNumber (target_number t)). split.
    + by apply own_property_elem.
    + by destruct t.
Qed.

Lemma has_target_true key t scope s :
  well_formed_cache (getCache scope s) = true ->
  has_target key t scope s = true
  <-> recorded_target key scope s = Some (JNumber (target_number t)).
Proof.
  intros Hwf. destruct (well_formed_recorded scope s Hwf) as [Hall _].
  unfold has_target, recorded_target in *.
  destruct (own_property key (recorded scope s)) as [v|] eqn:Hown; [|done].
  rewrite strict_equals_target by (by eapply all_targets_own).
  split; [by intros ->|by intros [= ->]].
Qed.

Lemma recorded_with_value key v scope scope' s :
  key <> TARGET_KEY ->
  recorded scope' (with_value key v scope s) = recorded scope' s.
Proof.
  intros Hne. by apply recorded_frame, target_text_with_value.
Qed.

Lemma recorded_without_value key scope scope' s :
  key <> TARGET_KEY ->
  recorded scope' (without_value key scope s) = recorded scope' s.
Proof.
  intros Hne. by apply recorded_frame, target_text_without_value.
Qed.

(** [store2] of a value under an ordinary key, on a well-formed state. *)
Lemma store2_run key v scope t s :
  well_formed s = true -> key <> TARGET_KEY -> key <> "__proto__" ->
  isUndefinedOrNull v = false ->
  store2 key v scope t s
  = mkResult (Normal tt)
      (if has_target key t scope s then with_value key v scope s
       else write_targets scope
              (define_property key (JNumber (target_number t)) (recorded scope s))
              (with_value key v scope s))
      (value_events (negb (bool_decide (getCache scope s !! key = Some (ToString v))))
                    key scope
       ++ if has_target key t scope s then [] else target_events scope).
Proof.
  intros Hwf Hkey Hproto Hv. rewrite store2_unfold by done. cbv zeta.
  pose proof (well_formed_with_value key v scope s Hkey Hwf) as Hwf1.
  pose proof (well_formed_scope scope _ Hwf1) as Hwfc1.
  assert (Hrec : recorded_target key scope (with_value key v scope s)
                 = recorded_target key scope s)
    by (unfold recorded_target; by rewrite recorded_with_value).
  assert (Hev : (if bool_decide (getCache scope s !! key = Some (ToString v))
                 then [] else change_events key scope)
                = value_events
                    (negb (bool_decide (getCache scope s !! key = Some (ToString v))))
                    key scope)
    by (by case_bool_decide).
  rewrite Hev.
  destruct (has_target key t scope s) eqn:Hhas.
  - rewrite updateKeyTarget_store_same; [done|done|].
    rewrite Hrec. apply has_target_true; [by apply well_formed_scope|done].
  - rewrite updateKeyTarget_store_new; [|done| |by left].
    + simpl. by rewrite recorded_with_value.
    + rewrite Hrec. intros Hsame.
      apply has_target_true in Hsame; [congruence|by apply well_formed_scope].
Qed.

(** [remove], on a well-formed state, for every key. *)
Lemma remove_run key scope s :
  well_formed s = true ->
  remove key scope s
  = mkResult (Normal tt)
      (if is_recorded key scope (without_value key scope s)
       then write_targets scope
              (delete_property key (recorded scope (without_value key scope s)))
              (without_value key scope s)
       else without_value key scope s)
      (value_events (bool_decide (is_Some (getCache scope s !! key))) key scope
       ++ if is_recorded key scope (without_value key scope s)
          then target_events scope else []).
Proof.
  intros Hwf. rewrite remove_unfold. cbv zeta.
  pose proof (well_formed_without_value key scope s Hwf) as Hwf1.
  pose proof (well_formed_scope scope _ Hwf1) as Hwfc1.
  unfold is_recorded.
  destruct (recorded_target key scope (without_value key scope s)) as [j|] eqn:Hrec.
  - rewrite updateKeyTarget_remove_present by (done || by rewrite Hrec). done.
  - rewrite updateKeyTarget_remove_absent by done. done.
Qed.

(** Every write under a key other than [TARGET_KEY] returns and keeps the
    state well formed. *)
Lemma store2_well_formed key v scope t s :
  well_formed s = true -> key <> TARGET_KEY ->
  exists evs s',
    store2 key v scope t s = mkResult (Normal tt) s' evs
    /\ well_formed s' = true
    /\ onWillSaveState s' = onWillSaveState s
    /\ (forall k scope', k <> TARGET_KEY -> k <> key \/ scope' <> scope ->
          getCache scope' s' !! k = getCache scope' s !! k)
    /\ getCache scope s' !! key
       = if isUndefinedOrNull v then None else Some (ToString v).
Proof.
  intros Hwf Hkey. destruct (isUndefinedOrNull v) eqn:Hv.
  - rewrite store2_null, remove_unfold by done. cbv zeta.
    pose proof (well_formed_without_value key scope s Hwf) as Hwf1.
    destruct (updateKeyTarget_well_formed key scope None _ Hwf1)
      as (evs & s' & Heq & Hwf' & _ & _).
    pose proof (fun k scope' => updateKeyTarget_frame key scope None _ k scope' Hwf1)
      as Hframe.
    pose proof (updateKeyTarget_listeners key scope None _ Hwf1) as Hlis.
    rewrite Heq in *. simpl in *. eexists _, _. split; [reflexivity|].
    split; [done|]. split; [by rewrite Hlis; apply listeners_setCache|].
    split.
    + intros k scope' Hk Hor. rewrite Hframe by done.
      unfold without_value. rewrite getCache_other. case_bool_decide; [|done].
      subst. rewrite lookup_delete_ne; [done|]. by destruct Hor.
    + rewrite Hframe by done. rewrite getCache_without_value.
      apply lookup_delete_eq.
  - rewrite store2_unfold by done. cbv zeta.
    pose proof (well_formed_with_value key v scope s Hkey Hwf) as Hwf1.
    destruct (updateKeyTarget_well_formed key scope (Some t) _ Hwf1)
      as (evs & s' & Heq & Hwf' & _ & _).
    pose proof (fun k scope' => updateKeyTarget_frame key scope (Some t) _ k scope' Hwf1)
      as Hframe.
    pose proof (updateKeyTarget_listeners key scope (Some t) _ Hwf1) as Hlis.
    rewrite Heq in *. simpl in *. eexists _, _. split; [reflexivity|].
    split; [done|]. split; [by rewrite Hlis; apply listeners_setCache|].
    split.
    + intros k scope' Hk Hor. rewrite Hframe by done.
      unfold with_value. rewrite getCache_other. case_bool_decide; [|done].
      subst. rewrite lookup_insert_ne; [done|]. by destruct Hor.
    + rewrite Hframe by done. rewrite getCache_with_value.
      apply lookup_insert_eq.
Qed.

End MethodFacts.

(* --------------------------------------------------------------------- *)
(** ** The typed getters                                                  *)
(* --------------------------------------------------------------------- *)

Section Getters.

Implicit Types (s : service) (scope : StorageScope) (key : string).

Lemma get_run key scope (fallback : option string) s :
  get key scope fallback s
  = mkResult (Normal (match getCache scope s !! key with
                      | None => fallback
                      | Some text => Some text
                      end)) s [].
Proof.
  change (get key scope fallback s) with (InMemory.get key scope fallback s).
  unfold InMemory.get. erewrite bind_pure; [|reflexivity].
  by destruct (getCache scope s !! key).
Qed.

Lemma getBoolean_run key scope (fallback : option bool) s :
  getBoolean key scope fallback s
  = mkResult (Normal (match getCache scope s !! key with
                      | None => fallback
                      | Some text => Some (String.eqb text "true")
                      end)) s [].
Proof.
  change (getBoolean key scope fallback s)
    with (InMemory.getBoolean key scope fallback s).
  unfold InMemory.getBoolean. erewrite bind_pure; [|reflexivity].
  by destruct (getCache scope s !! key).
Qed.

Lemma getNumber_run key scope (fallback : option number) s :
  getNumber key scope fallback s
  = mkResult (Normal (match getCache scope s !! key with
                      | None => fallback
                      | Some text => Some (parseInt text)
                      end)) s [].
Proof.
  change (getNumber key scope fallback s)
    with (InMemory.getNumber key scope fallback s).
  unfold InMemory.getNumber. erewrite bind_pure; [|reflexivity].
  by destruct (getCache scope s !! key).
Qed.

Lemma isNew_run scope s :
  isNew scope s
  = mkResult (Normal (bool_decide (getCache scope s !! IS_NEW_KEY = Some "true"))) s [].
Proof.
  unfold isNew. rewrite (bind_pure _ _ _ _ (getBoolean_run IS_NEW_KEY scope None s)).
  unfold ret. f_equal. f_equal.
  destruct (getCache scope s !! IS_NEW_KEY) as [text|]; [|done].
  destruct (String.eqb_spec text "true") as [->|Hne]; [done|].
  rewrite !bool_decide_eq_false_2; [done| |]; congruence.
Qed.

(** [keys] never changes the state and fires nothing, whatever the text
    under [TARGET_KEY]. *)
Lemma keys_pure scope (t : StorageTarget) s :
  final (keys scope t s) = s /\ fired (keys scope t s) = [].
Proof.
  unfold keys, bind. rewrite getKeyTargets_run. simpl.
  destruct (key_targets (getCache scope s)) as [r|e]; simpl; [|done].
  destruct (Object_entries r) as [entries|e]; simpl; done.
Qed.

End Getters.

(* --------------------------------------------------------------------- *)
(** ** Facts that hold in every state *)
(* --------------------------------------------------------------------- *)

Section AnyState.

Implicit Types (s : service) (scope : StorageScope) (key k : string).

(** In every state, [updateKeyTarget] changes at most the text under
    [TARGET_KEY] of its partition. *)
Lemma updateKeyTarget_final key scope (target : option StorageTarget) s :
  final (updateKeyTarget key scope target s) = s
  \/ exists text,
       final (updateKeyTarget key scope target s)
       = with_value TARGET_KEY (VString text) scope s.
Proof.
  unfold updateKeyTarget, bind. rewrite getKeyTargets_run. cbn [outcome final fired].
  destruct (key_targets (getCache scope s)) as [r|e]; [|by left].
  destruct target as [t|].
  - destruct (get_property r key) as [pv|e]; cbn [lift ret throw outcome final];
      [|by left].
    destruct (not_strict_equal pv (target_number t)); [|by left].
    destruct (set_property r key (JNumber (target_number t))) as [r'|e];
      cbn [lift ret throw outcome final]; [|by left].
    right. eexists. by rewrite doStore_run.
  - destruct (get_property r key) as [pv|e]; cbn [lift ret throw outcome final];
      [|by left].
    destruct (typeof_number pv); [|by left].
    destruct (remove_property r key) as [r'|e];
      cbn [lift ret throw outcome final]; [|by left].
    right. eexists. by rewrite doStore_run.
Qed.

Lemma with_value_lookup key (v : value) scope s k scope' :
  k <> key ->
  getCache scope' (with_value key v scope s) !! k = getCache scope' s !! k.
Proof.
  intros Hne. unfold with_value. rewrite getCache_other.
  case_bool_decide; [|done]. subst. by rewrite lookup_insert_ne.
Qed.

Lemma without_value_lookup key scope s k scope' :
  k <> key ->
  getCache scope' (without_value key scope s) !! k = getCache scope' s !! k.
Proof.
  intros Hne. unfold without_value. rewrite getCache_other.
  case_bool_decide; [|done]. subst. by rewrite lookup_delete_ne.
Qed.

Lemma updateKeyTarget_lookup key scope (target : option StorageTarget) s k scope' :
  k <> TARGET_KEY ->
  getCache scope' (final (updateKeyTarget key scope target s)) !! k
  = getCache scope' s !! k
  /\ onWillSaveState (final (updateKeyTarget key scope target s)) = onWillSaveState s.
Proof.
  intros Hk.
  destruct (updateKeyTarget_final key scope target s) as [-> | [text ->]]; [done|].
  split; [by apply with_value_lookup|apply listeners_setCache].
Qed.

(** In every state, a write leaves the entries under the other keys, and
    the subscribers, as they were. *)
Lemma run_call_lookup (c : call) s k scope' :
  k <> TARGET_KEY -> call_key c <> k ->
  getCache scope' (final (run_call c s)) !! k = getCache scope' s !! k
  /\ onWillSaveState (final (run_call c s)) = onWillSaveState s.
Proof.
  intros Hk Hc.
  assert (Hremove : forall key scope, key <> k ->
            getCache scope' (final (remove key scope s)) !! k = getCache scope' s !! k
            /\ onWillSaveState (final (remove key scope s)) = onWillSaveState s).
  { intros key scope Hne. rewrite remove_unfold. cbv zeta. cbn [final].
    destruct (updateKeyTarget_lookup key scope None (without_value key scope s)
                k scope' Hk) as [-> ->].
    split; [by apply without_value_lookup|apply listeners_setCache]. }
  assert (Hstore : forall key v scope t, key <> k ->
            getCache scope' (final (store2 key v scope t s)) !! k
            = getCache scope' s !! k
            /\ onWillSaveState (final (store2 key v scope t s)) = onWillSaveState s).
  { intros key v scope t Hne. destruct (isUndefinedOrNull v) eqn:Hv.
    - rewrite store2_null by done. by apply Hremove.
    - rewrite store2_unfold by done. cbv zeta. cbn [final].
      destruct (updateKeyTarget_lookup key scope (Some t) (with_value key v scope s)
                  k scope' Hk) as [-> ->].
      split; [by apply with_value_lookup|apply listeners_setCache]. }
  destruct c as [key v scope|key v scope t|key scope]; simpl in Hc.
  - by apply Hstore.
  - by apply Hstore.
  - by apply Hremove.
Qed.

Lemma run_calls_lookup (cs : list call) k scope' : forall s,
  k <> TARGET_KEY -> Forall (fun c => call_key c <> k) cs ->
  getCache scope' (final (run_calls cs s)) !! k = getCache scope' s !! k
  /\ onWillSaveState (final (run_calls cs s)) = onWillSaveState s.
Proof.
  induction cs as [|c cs IH]; intros s Hk Hall; [done|].
  inversion Hall as [|? ? Hc Hrest]; subst.
  destruct (run_call_lookup c s k scope' Hk Hc) as [Hl1 Hs1].
  simpl. unfold bind. destruct (outcome (run_call c s)); cbn [final]; [|done].
  destruct (IH (final (run_call c s)) Hk Hrest) as [-> ->]. done.
Qed.

Lemma deliver_to_final (l : list call) s : final (deliver_to l s) = final (run_calls l s).
Proof.
  unfold deliver_to. by destruct (outcome (run_calls l s)) as [|[]].
Qed.

Lemma deliver_all_lookup (ls : list (list call)) k scope' : forall s,
  k <> TARGET_KEY -> Forall (Forall (fun c => call_key c <> k)) ls ->
  getCache scope' (final (deliver_all ls s)) !! k = getCache scope' s !! k
  /\ onWillSaveState (final (deliver_all ls s)) = onWillSaveState s.
Proof.
  induction ls as [|l ls IH]; intros s Hk Hall; [done|].
  inversion Hall as [|? ? Hl Hrest]; subst.
  destruct (run_calls_lookup l k scope' s Hk Hl) as [Hl1 Hs1].
  rewrite <- deliver_to_final in Hl1, Hs1.
  simpl. unfold bind. destruct (outcome (deliver_to l s)); cbn [final]; [|done].
  destruct (IH (final (deliver_to l s)) Hk Hrest) as [-> ->]. done.
Qed.

Lemma flush_lookup s k scope' :
  k <> TARGET_KEY ->
  Forall (fun l => forall reason, Forall (fun c => call_key c <> k) (l reason))
         (onWillSaveState s) ->
  getCache scope' (final (flush s)) !! k = getCache scope' s !! k
  /\ onWillSaveState (final (flush s)) = onWillSaveState s.
Proof.
  intros Hk Hall.
  assert (Hscripts : Forall (Forall (fun c => call_key c <> k)) (scripts NONE s)).
  { unfold scripts. rewrite Forall_map. eapply Forall_impl; [exact Hall|]. by intros l ?. }
  destruct (deliver_all_lookup (scripts NONE s) k scope' s Hk Hscripts) as [Hl Hs].
  unfold flush, fire_onWillSaveState, bind, emit, doFlush, ret.
  cbn [outcome final fired]. fold (scripts NONE s).
  destruct (outcome (deliver_all (scripts NONE s) s)); cbn [outcome final]; done.
Qed.

(** In every state, [remove] leaves no value under the key, whether it
    returns or throws: [doRemove] comes first. *)
Lemma remove_deletes key scope s :
  getCache scope (final (remove key scope s)) !! key = None.
Proof.
  rewrite remove_unfold. cbv zeta. cbn [final].
  set (s1 := without_value key scope s).
  assert (Hgone : getCache scope s1 !! key = None).
  { unfold s1. rewrite getCache_without_value. apply lookup_delete_eq. }
  destruct (decide (key = TARGET_KEY)) as [->|Hkey].
  - unfold updateKeyTarget.
    rewrite (bind_pure _ _ _ (NullProto [])).
    + done.
    + apply getKeyTargets_normal. unfold key_targets. by rewrite Hgone.
  - destruct (updateKeyTarget_final key scope None s1) as [-> | [text ->]]; [done|].
    by rewrite with_value_lookup.
Qed.

Lemma run_operation_marker_free (op : operation) s :
  avoids IS_NEW_KEY op -> marker_free s -> marker_free (run_operation op s).
Proof.
  intros Hop [Hnone Hsubs]. destruct op as [c| | |l]; simpl in *.
  - split.
    + intros scope.
      destruct (run_call_lookup c s IS_NEW_KEY scope ltac:(done) Hop) as [-> _].
      apply Hnone.
    + by destruct (run_call_lookup c s IS_NEW_KEY GLOBAL ltac:(done) Hop) as [_ ->].
  - split.
    + intros scope.
      destruct (flush_lookup s IS_NEW_KEY scope ltac:(done) Hsubs) as [-> _].
      apply Hnone.
    + by destruct (flush_lookup s IS_NEW_KEY GLOBAL ltac:(done) Hsubs) as [_ ->].
  - done.
  - split.
    + intros scope. specialize (Hnone scope). by destruct scope.
    + apply Forall_app. split; [done|]. by constructor.
Qed.

Lemma run_operations_marker_free (ops : list operation) : forall s,
  Forall (avoids IS_NEW_KEY) ops -> marker_free s ->
  marker_free (run_operations ops s).
Proof.
  induction ops as [|op ops IH]; intros s Hall Hs; [done|].
  inversion Hall; subst. simpl. apply IH; [done|].
  by apply run_operation_marker_free.
Qed.

End AnyState.

(* --------------------------------------------------------------------- *)
(** ** Writing a value and reading it back *)
(* --------------------------------------------------------------------- *)

Section RoundTrip.

Implicit Types (s : service) (scope : StorageScope) (key : string)
  (target : StorageTarget).

(** After a write under a key of the caller the text of the value is in
    the cache, in every state and however [updateKeyTarget] ends. *)
Lemma store2_stores key (v : value) scope target s :
  key <> TARGET_KEY -> isUndefinedOrNull v = false ->
  getCache scope (final (store2 key v scope target s)) !! key = Some (ToString v).
Proof.
  intros Hkey Hv. rewrite store2_unfold by done. cbv zeta. cbn [final].
  destruct (updateKeyTarget_lookup key scope (Some target) (with_value key v scope s)
              key scope Hkey) as [-> _].
  rewrite getCache_with_value. apply lookup_insert_eq.
Qed.

Lemma store2_returns key (v : value) scope target s :
  well_formed s = true -> key <> TARGET_KEY ->
  outcome (store2 key v scope target s) = Normal tt.
Proof.
  intros Hwf Hkey.
  by destruct (store2_well_formed key v scope target s Hwf Hkey)
    as (evs & s' & -> & _).
Qed.

End RoundTrip.

(* --------------------------------------------------------------------- *)
(** ** Writing the same value again *)
(* --------------------------------------------------------------------- *)

Section Idempotence.

Implicit Types (s : service) (scope : StorageScope) (key : string)
  (t : StorageTarget) (ps : list (string * json)).

Lemma write_targets_same scope ps s :
  getCache scope s !! TARGET_KEY = Some (JSON_stringify (JObject ps)) ->
  write_targets scope ps s = s.
Proof.
  intros H. unfold write_targets. rewrite insert_id by done.
  apply setCache_getCache.
Qed.

Lemma with_value_same key (v : value) scope s :
  getCache scope s !! key = Some (ToString v) -> with_value key v scope s = s.
Proof.
  intros H. unfold with_value. rewrite insert_id by done.
  apply setCache_getCache.
Qed.

(** Recording the same target a second time does nothing. *)
Lemma updateKeyTarget_idempotent key scope t s :
  well_formed s = true ->
  updateKeyTarget key scope (Some t) (final (updateKeyTarget key scope (Some t) s))
  = mkResult (Normal tt) (final (updateKeyTarget key scope (Some t) s)) [].
Proof.
  intros Hwf. pose proof (well_formed_scope scope s Hwf) as Hwfc.
  destruct (well_formed_recorded scope s Hwfc) as [Hall Hc].
  destruct (recorded_target_dec key scope t s Hwfc) as [Hsame|Hdiff].
  - rewrite (updateKeyTarget_store_same key scope t s) by done. simpl.
    by rewrite updateKeyTarget_store_same.
  - destruct (swallowed_or_recorded key scope s) as [(-> & Hfj & Hnone)|Hother].
    + rewrite (updateKeyTarget_store_proto scope t s), doStore_targets by done. simpl.
      set (s1 := write_targets scope (recorded scope s) s).
      assert (Hwf1 : well_formed s1 = true) by (by apply well_formed_write_targets).
      assert (Hrec1 : recorded scope s1 = recorded scope s)
        by (by apply recorded_write_targets).
      rewrite updateKeyTarget_store_proto.
      * rewrite doStore_targets, Hrec1.
        assert (Hlook : getCache scope s1 !! TARGET_KEY
                        = Some (JSON_stringify (JObject (recorded scope s)))).
        { unfold s1. rewrite getCache_write_targets. apply lookup_insert_eq. }
        rewrite bool_decide_eq_true_2 by done.
        by rewrite write_targets_same.
      * by apply well_formed_scope.
      * by apply from_json_write_targets.
      * unfold recorded_target in *. by rewrite Hrec1.
    + rewrite (updateKeyTarget_store_new key scope t s) by done. simpl.
      set (ps' := define_property key (JNumber (target_number t)) (recorded scope s)).
      assert (Hall' : all_targets ps' = true)
        by (apply all_targets_define; [apply is_target_number|done]).
      assert (Hc' : Canonical ps') by (by apply Canonical_define).
      rewrite updateKeyTarget_store_same; [done| |].
      * apply well_formed_scope. by apply well_formed_write_targets.
      * unfold recorded_target. rewrite recorded_write_targets by done.
        apply own_define_eq.
Qed.

(** A second identical [store2] does nothing at all. *)
Lemma store2_again key (v : value) scope t s :
  well_formed s = true -> key <> TARGET_KEY -> isUndefinedOrNull v = false ->
  store2 key v scope t (final (store2 key v scope t s))
  = mkResult (Normal tt) (final (store2 key v scope t s)) [].
Proof.
  intros Hwf Hkey Hv.
  pose proof (store2_stores key v scope t s Hkey Hv) as Hlook.
  rewrite (store2_unfold key v scope t (final _)) by done. cbv zeta.
  rewrite bool_decide_eq_true_2 by done.
  rewrite with_value_same by done.
  rewrite store2_unfold by done. cbv zeta. cbn [final].
  rewrite updateKeyTarget_idempotent; [done|].
  by apply well_formed_with_value.
Qed.

Lemma count_events_app (p : event -> bool) (l1 l2 : list event) :
  count_events p (l1 ++ l2) = (count_events p l1 + count_events p l2)%nat.
Proof. unfold count_events. by rewrite filter_app, length_app. Qed.

Lemma count_change_target_events key scope scope' :
  key <> TARGET_KEY ->
  count_events (is_change_of key scope) (target_events scope') = 0%nat.
Proof.
  intros Hne. unfold count_events, target_events, is_change_of.
  rewrite filter_cons_False, filter_cons_False; [done| |].
  - rewrite bool_decide_eq_false_2; done.
  - rewrite bool_decide_eq_false_2; [done|]. intros [= ? ?]. congruence.
Qed.

Lemma count_change_events key scope :
  key <> TARGET_KEY ->
  count_events (is_change_of key scope) (change_events key scope) = 1%nat.
Proof.
  intros Hne. unfold change_events.
  apply String.eqb_neq in Hne as ->.
  unfold count_events, is_change_of.
  rewrite filter_cons_True; [done|]. by rewrite bool_decide_eq_true_2.
Qed.

End Idempotence.

(* --------------------------------------------------------------------- *)
(** ** Target filtering *)
(* --------------------------------------------------------------------- *)

Section TargetFiltering.

Implicit Types (s : service) (scope : StorageScope) (key k : string)
  (t : StorageTarget) (ps : list (string * json)).

Lemma recorded_write_targets_other scope scope' ps s :
  scope <> scope' -> recorded scope' (write_targets scope ps s) = recorded scope' s.
Proof.
  intros Hne. unfold recorded. by rewrite getCache_write_targets_other.
Qed.

(** [updateKeyTarget] for one key leaves the targets recorded for the
    other keys, and those of the other partition, alone. *)
Lemma updateKeyTarget_other_keys key scope (target : option StorageTarget) s k scope' :
  well_formed s = true -> k <> key \/ scope' <> scope ->
  recorded_target k scope' (final (updateKeyTarget key scope target s))
  = recorded_target k scope' s.
Proof.
  intros Hwf Hor. pose proof (well_formed_scope scope s Hwf) as Hwfc.
  destruct (well_formed_recorded scope s Hwfc) as [Hall Hc].
  assert (Hwrite : forall ps, all_targets ps = true -> Canonical ps ->
            (k <> key -> own_property k ps = own_property k (recorded scope s)) ->
            recorded_target k scope' (write_targets scope ps s)
            = recorded_target k scope' s).
  { intros ps Hall' Hc' Hown. unfold recorded_target.
    destruct (decide (scope = scope')) as [<-|Hne].
    - rewrite recorded_write_targets by done. apply Hown. by destruct Hor.
    - by rewrite recorded_write_targets_other. }
  destruct target as [t|].
  - destruct (recorded_target_dec key scope t s Hwfc) as [Hsame|Hdiff].
    + by rewrite updateKeyTarget_store_same.
    + destruct (swallowed_or_recorded key scope s) as [(-> & Hfj & Hnone)|Hother].
      * rewrite updateKeyTarget_store_proto, doStore_targets by done.
        cbn [final]. by apply Hwrite.
      * rewrite updateKeyTarget_store_new by done. cbn [final].
        apply Hwrite.
        -- apply all_targets_define; [apply is_target_number|done].
        -- by apply Canonical_define.
        -- intros Hne. by apply own_define_ne.
  - destruct (recorded_target key scope s) as [v|] eqn:Hrec.
    + rewrite updateKeyTarget_remove_present by (done || by rewrite Hrec).
      cbn [final]. apply Hwrite.
      * by apply all_targets_delete.
      * by apply Canonical_delete.
      * intros Hne. by apply own_delete_ne.
    + by rewrite updateKeyTarget_remove_absent.
Qed.

Lemma recorded_target_with_value key (v : value) scope k scope' s :
  key <> TARGET_KEY ->
  recorded_target k scope' (with_value key v scope s) = recorded_target k scope' s.
Proof. intros. unfold recorded_target. by rewrite recorded_with_value. Qed.

Lemma recorded_target_without_value key scope k scope' s :
  key <> TARGET_KEY ->
  recorded_target k scope' (without_value key scope s) = recorded_target k scope' s.
Proof. intros. unfold recorded_target. by rewrite recorded_without_value. Qed.

(** A call under another key, or in the other partition, does not change
    the target recorded for [k]. *)
Lemma run_call_other_keys (c : call) s k scope' :
  well_formed s = true -> call_key c <> TARGET_KEY ->
  call_key c <> k \/ call_scope c <> scope' ->
  outcome (run_call c s) = Normal tt
  /\ well_formed (final (run_call c s)) = true
  /\ recorded_target k scope' (final (run_call c s)) = recorded_target k scope' s.
Proof.
  intros Hwf Hkey Hor.
  assert (Hstore : forall key v scope t,
            key <> TARGET_KEY -> key <> k \/ scope <> scope' ->
            outcome (store2 key v scope t s) = Normal tt
            /\ well_formed (final (store2 key v scope t s)) = true
            /\ recorded_target k scope' (final (store2 key v scope t s))
               = recorded_target k scope' s).
  { intros key v scope t Hk Hor'.
    destruct (store2_well_formed key v scope t s Hwf Hk)
      as (evs & s' & Heq & Hwf' & _).
    rewrite Heq. cbn [outcome final]. split; [done|]. split; [done|].
    replace s' with (final (store2 key v scope t s)) by (by rewrite Heq).
    destruct (isUndefinedOrNull v) eqn:Hv.
    - rewrite store2_null, remove_unfold by done. cbv zeta. cbn [final].
      rewrite updateKeyTarget_other_keys.
      + by apply recorded_target_without_value.
      + by apply well_formed_without_value.
      + destruct Hor'; [left|right]; congruence.
    - rewrite store2_unfold by done. cbv zeta. cbn [final].
      rewrite updateKeyTarget_other_keys.
      + by apply recorded_target_with_value.
      + by apply well_formed_with_value.
      + destruct Hor'; [left|right]; congruence. }
  destruct c as [key v scope|key v scope t|key scope]; simpl in Hkey, Hor.
  - by apply Hstore.
  - by apply Hstore.
  - change (run_call (Remove key scope) s)
      with (store2 key VNull scope USER s). by apply Hstore.
Qed.

Lemma run_calls_other_keys (cs : list call) k scope' : forall s,
  well_formed s = true ->
  Forall (fun c => call_key c <> TARGET_KEY
                   /\ (call_key c <> k \/ call_scope c <> scope')) cs ->
  outcome (run_calls cs s) = Normal tt
  /\ well_formed (final (run_calls cs s)) = true
  /\ recorded_target k scope' (final (run_calls cs s)) = recorded_target k scope' s.
Proof.
  induction cs as [|c cs IH]; intros s Hwf Hall; [done|].
  inversion Hall as [|? ? [Hkey Hor] Hrest]; subst.
  destruct (run_call_other_keys c s k scope' Hwf Hkey Hor) as (Hout & Hwf1 & Hrec1).
  destruct (IH _ Hwf1 Hrest) as (Hout2 & Hwf2 & Hrec2).
  simpl. unfold bind. rewrite Hout. cbn [outcome final].
  rewrite Hout2, Hrec2, Hrec1. done.
Qed.

End TargetFiltering.

(* --------------------------------------------------------------------- *)
(** ** Target changes *)
(* --------------------------------------------------------------------- *)

Section TargetChanges.

Implicit Types (s : service) (scope : StorageScope) (key : string)
  (t : StorageTarget).

Lemma count_target_change_value_events (changed : bool) key scope scope' :
  key <> TARGET_KEY ->
  count_events (is_target_change_of scope') (value_events changed key scope) = 0%nat.
Proof.
  intros Hne. unfold value_events, change_events.
  apply String.eqb_neq in Hne as ->. by destruct changed.
Qed.

Lemma count_target_change_target_events scope :
  count_events (is_target_change_of scope) (target_events scope) = 1%nat.
Proof.
  unfold count_events, target_events, is_target_change_of.
  rewrite filter_cons_False by (by rewrite bool_decide_eq_false_2).
  rewrite filter_cons_True by (by rewrite bool_decide_eq_true_2). done.
Qed.

End TargetChanges.

(* --------------------------------------------------------------------- *)
(** ** Flush *)
(* --------------------------------------------------------------------- *)

Section FlushFacts.

Implicit Types (s : service) (scope : StorageScope) (key k : string).

Lemma no_will_save_change_events key scope : no_will_save (change_events key scope).
Proof.
  unfold no_will_save, change_events.
  destruct (String.eqb key TARGET_KEY); by repeat constructor.
Qed.

Lemma no_will_save_count (evs : list event) :
  no_will_save evs -> count_events is_will_save evs = 0%nat.
Proof.
  unfold count_events. induction 1 as [|e evs He _ IH]; [done|].
  rewrite filter_cons_False by congruence. exact IH.
Qed.

(** A write under a key of the caller, on a well-formed service. *)
Lemma run_call_ok (c : call) s :
  well_formed s = true -> call_key c <> TARGET_KEY ->
  exists evs,
    run_call c s = mkResult (Normal tt) (final (run_call c s)) evs
    /\ no_will_save evs
    /\ well_formed (final (run_call c s)) = true
    /\ onWillSaveState (final (run_call c s)) = onWillSaveState s
    /\ (forall k scope', k <> TARGET_KEY ->
          k <> call_key c \/ scope' <> call_scope c ->
          getCache scope' (final (run_call c s)) !! k = getCache scope' s !! k)
    /\ (forall key v scope, writes c key v scope -> isUndefinedOrNull v = false ->
          getCache scope (final (run_call c s)) !! key = Some (ToString v)).
Proof.
  intros Hwf Hkey.
  assert (Hstore : forall key v scope t, key <> TARGET_KEY ->
            exists evs,
              store2 key v scope t s
              = mkResult (Normal tt) (final (store2 key v scope t s)) evs
              /\ no_will_save evs
              /\ well_formed (final (store2 key v scope t s)) = true
              /\ onWillSaveState (final (store2 key v scope t s)) = onWillSaveState s
              /\ (forall k scope', k <> TARGET_KEY -> k <> key \/ scope' <> scope ->
                    getCache scope' (final (store2 key v scope t s)) !! k
                    = getCache scope' s !! k)
              /\ (isUndefinedOrNull v = false ->
                    getCache scope (final (store2 key v scope t s)) !! key
                    = Some (ToString v))).
  { intros key v scope t Hk.
    destruct (store2_well_formed key v scope t s Hwf Hk)
      as (evs & s' & Heq & Hwf' & Hlis & Hframe & Hlook).
    assert (Hevs : no_will_save (fired (store2 key v scope t s))).
    { destruct (isUndefinedOrNull v) eqn:Hv.
      - rewrite store2_null, remove_unfold by done. cbv zeta. cbn [fired].
        destruct (updateKeyTarget_well_formed key scope None _
                    (well_formed_without_value key scope s Hwf))
          as (evs' & s'' & -> & _ & Hor & _). cbn [fired].
        apply Forall_app. split.
        + case_bool_decide; [apply no_will_save_change_events|constructor].
        + destruct Hor as [-> | ->]; by repeat constructor.
      - rewrite store2_unfold by done. cbv zeta. cbn [fired].
        destruct (updateKeyTarget_well_formed key scope (Some t) _
                    (well_formed_with_value key v scope s Hk Hwf))
          as (evs' & s'' & -> & _ & Hor & _). cbn [fired].
        apply Forall_app. split.
        + case_bool_decide; [constructor|apply no_will_save_change_events].
        + destruct Hor as [-> | ->]; by repeat constructor. }
    rewrite Heq in *. cbn [final fired] in *. exists evs.
    repeat split; try done. intros Hv. by rewrite Hv in Hlook. }
  destruct c as [key v scope|key v scope t|key scope]; simpl in Hkey.
  - destruct (Hstore key v scope MACHINE Hkey) as (evs & H1 & H2 & H3 & H4 & H5 & H6).
    exists evs. repeat split; try done.
    intros key' v' scope' [[= -> -> ->]|[t' [=]]] Hv. by apply H6.
  - destruct (Hstore key v scope t Hkey) as (evs & H1 & H2 & H3 & H4 & H5 & H6).
    exists evs. repeat split; try done.
    intros key' v' scope' [[=]|[t' [= -> -> -> ->]]] Hv. by apply H6.
  - destruct (Hstore key VNull scope USER Hkey) as (evs & H1 & H2 & H3 & H4 & H5 & _).
    exists evs. repeat split; try done.
    intros key' v' scope' [[=]|[t' [=]]].
Qed.

Lemma apply_calls_app (l1 l2 : list call) s :
  apply_calls (l1 ++ l2) s = apply_calls l2 (apply_calls l1 s).
Proof. apply foldl_app. Qed.

(** A script of such writes returns, and is the fold of its calls. *)
Lemma run_calls_ok (cs : list call) : forall s,
  well_formed s = true -> Forall (fun c => call_key c <> TARGET_KEY) cs ->
  exists evs,
    run_calls cs s = mkResult (Normal tt) (apply_calls cs s) evs
    /\ no_will_save evs
    /\ well_formed (apply_calls cs s) = true
    /\ onWillSaveState (apply_calls cs s) = onWillSaveState s.
Proof.
  induction cs as [|c cs IH]; intros s Hwf Hall.
  - exists []. repeat split; try done. constructor.
  - inversion Hall as [|? ? Hc Hrest]; subst.
    destruct (run_call_ok c s Hwf Hc) as (evs1 & Heq1 & Hno1 & Hwf1 & Hlis1 & _).
    destruct (IH _ Hwf1 Hrest) as (evs2 & Heq2 & Hno2 & Hwf2 & Hlis2).
    exists (evs1 ++ evs2). simpl.
    rewrite (bind_normal _ _ _ _ _ _ Heq1), Heq2. cbn [outcome final fired].
    repeat split; try done.
    + by apply Forall_app.
    + by rewrite Hlis2.
Qed.

Lemma deliver_all_ok (ls : list (list call)) : forall s,
  well_formed s = true -> Forall (Forall (fun c => call_key c <> TARGET_KEY)) ls ->
  exists evs,
    deliver_all ls s = mkResult (Normal tt) (apply_calls (concat ls) s) evs
    /\ no_will_save evs
    /\ well_formed (apply_calls (concat ls) s) = true
    /\ onWillSaveState (apply_calls (concat ls) s) = onWillSaveState s.
Proof.
  induction ls as [|l ls IH]; intros s Hwf Hall.
  - exists []. repeat split; try done. constructor.
  - inversion Hall as [|? ? Hl Hrest]; subst.
    destruct (run_calls_ok l s Hwf Hl) as (evs1 & Heq1 & Hno1 & Hwf1 & Hlis1).
    destruct (IH _ Hwf1 Hrest) as (evs2 & Heq2 & Hno2 & Hwf2 & Hlis2).
    assert (Hd : deliver_to l s = mkResult (Normal tt) (apply_calls l s) evs1).
    { unfold deliver_to. by rewrite Heq1. }
    exists (evs1 ++ evs2). simpl.
    rewrite (bind_normal _ _ _ _ _ _ Hd), Heq2. cbn [outcome final fired].
    rewrite apply_calls_app. repeat split; try done.
    + by apply Forall_app.
    + by rewrite Hlis2.
Qed.

(** What [flush] does on a well-formed service whose subscribers write
    under keys of their own. *)
Lemma flush_run s :
  well_formed s = true ->
  Forall (Forall (fun c => call_key c <> TARGET_KEY)) (scripts NONE s) ->
  exists evs,
    fire_onWillSaveState NONE s
    = mkResult (Normal tt) (apply_calls (concat (scripts NONE s)) s)
        (WillSaveStateEvent NONE :: evs)
    /\ flush s
       = mkResult (Normal (Resolved tt)) (apply_calls (concat (scripts NONE s)) s)
           (WillSaveStateEvent NONE :: evs)
    /\ no_will_save evs
    /\ well_formed (apply_calls (concat (scripts NONE s)) s) = true
    /\ onWillSaveState (apply_calls (concat (scripts NONE s)) s) = onWillSaveState s.
Proof.
  intros Hwf Hscripts.
  destruct (deliver_all_ok (scripts NONE s) s Hwf Hscripts)
    as (evs & Heq & Hno & Hwf' & Hlis).
  assert (Hb : fire_onWillSaveState NONE s
               = mkResult (Normal tt) (apply_calls (concat (scripts NONE s)) s)
                   (WillSaveStateEvent NONE :: evs)).
  { unfold fire_onWillSaveState, bind, emit. cbn [outcome final fired].
    fold (scripts NONE s). by rewrite Heq. }
  exists evs. repeat split; try done.
  unfold flush. rewrite (bind_normal _ _ _ _ _ _ Hb). unfold doFlush, ret.
  cbn [outcome final fired]. by rewrite app_nil_r.
Qed.

Lemma run_operation_well_formed (op : operation) s :
  avoids TARGET_KEY op -> law_abiding s -> law_abiding (run_operation op s).
Proof.
  intros Hop [Hwf Hsubs]. destruct op as [c| | |l]; simpl in *.
  - destruct (run_call_ok c s Hwf Hop) as (_ & _ & _ & Hwf' & Hlis & _).
    split; [done|]. by rewrite Hlis.
  - assert (Hscripts : Forall (Forall (fun c => call_key c <> TARGET_KEY))
                         (scripts NONE s)).
    { unfold scripts. rewrite Forall_map. eapply Forall_impl; [exact Hsubs|].
      by intros l ?. }
    destruct (flush_run s Hwf Hscripts) as (evs & _ & -> & _ & Hwf' & Hlis).
    cbn [final]. split; [done|]. by rewrite Hlis.
  - done.
  - split; [done|]. apply Forall_app. split; [done|]. by constructor.
Qed.

(** Every state a new service reaches through operations that never name
    [TARGET_KEY] is well formed. *)
Lemma reachable_well_formed (ops : list operation) :
  Forall (avoids TARGET_KEY) ops ->
  well_formed (run_operations ops new_InMemoryStorageService) = true.
Proof.
  intros Hops.
  assert (Hgen : forall s, law_abiding s -> law_abiding (run_operations ops s)).
  { induction Hops as [|op ops Hop _ IH]; intros s Hs; [done|].
    simpl. apply IH. by apply run_operation_well_formed. }
  apply Hgen. split; [done|constructor].
Qed.

(** Writes that do not address (key, scope) leave its entry alone. *)
Lemma apply_calls_untouched (cs : list call) key scope : forall s,
  well_formed s = true -> key <> TARGET_KEY ->
  Forall (fun c => call_key c <> TARGET_KEY
                   /\ (call_key c <> key \/ call_scope c <> scope)) cs ->
  getCache scope (apply_calls cs s) !! key = getCache scope s !! key.
Proof.
  induction cs as [|c cs IH]; intros s Hwf Hkey Hall; [done|].
  inversion Hall as [|? ? [Hc Hor] Hrest]; subst.
  destruct (run_call_ok c s Hwf Hc) as (evs1 & _ & _ & Hwf1 & _ & Hframe & _).
  simpl. rewrite IH by done. apply Hframe; [done|].
  destruct Hor; [left|right]; congruence.
Qed.

End FlushFacts.

(* ===================================================================== *)
(** * The claims                                                          *)
(* ===================================================================== *)

(** C1 (as stated, refuted).  The number 1.5 is stored as the text "1.5",
    which [getNumber] reads back as 1. *)
Lemma store2_getNumber_fraction_counterexample :
  outcome (getNumber "ratio" GLOBAL None
             (final (store2 "ratio" (VNumber (Fraction false "15" 1)) GLOBAL USER
                       new_InMemoryStorageService)))
  = Normal (Some (Int 1))
  /\ Int 1 <> Fraction false "15" 1.
Proof. split; [vm_compute; reflexivity|discriminate]. Qed.

(** C1 (amended).  For every key other than the reserved [TARGET_KEY],
    after [store2(key, v, partition, target)] the matching getter returns
    the value written when it is a string (exactly), a boolean (through
    the comparison of the stored text with "true"), the number [NaN], or
    an integer number of magnitude below 10^21 (through [parseInt]).
    Every other number comes back from [getNumber] as a different number:
    a non-integer, an infinity, an integer of magnitude 10^21 or more.  On
    a well-formed service the call to [store2] returns. *)
Theorem store2_then_typed_getter
    (s : service) (key : string) (scope : StorageScope) (target : StorageTarget) :
  key <> TARGET_KEY ->
  (forall (x : string) (fallback : option string),
     outcome (get key scope fallback (final (store2 key (VString x) scope target s)))
     = Normal (Some x))
  /\ (forall (b : bool) (fallback : option bool),
        outcome (getBoolean key scope fallback
                   (final (store2 key (VBoolean b) scope target s)))
        = Normal (Some b))
  /\ (forall (z : Z) (fallback : option number),
        is_double z -> Z.abs z < 10 ^ 21 ->
        outcome (getNumber key scope fallback
                   (final (store2 key (VNumber (Int z)) scope target s)))
        = Normal (Some (Int z)))
  /\ (forall fallback : option number,
        outcome (getNumber key scope fallback
                   (final (store2 key (VNumber NaN) scope target s)))
        = Normal (Some NaN))
  /\ (forall (n : number) (fallback : option number),
        match n with
        | NaN => False
        | Int z => 10 ^ 21 <= Z.abs z
        | Infinity _ | Fraction _ _ _ => True
        end ->
        outcome (getNumber key scope fallback
                   (final (store2 key (VNumber n) scope target s)))
        <> Normal (Some n))
  /\ (well_formed s = true ->
      forall v : value, outcome (store2 key v scope target s) = Normal tt).
Proof.
  intros Hkey.
  assert (Hnumber : forall (n : number) (fallback : option number),
            outcome (getNumber key scope fallback
                       (final (store2 key (VNumber n) scope target s)))
            = Normal (Some (parseInt (Number_toString n)))).
  { intros n fallback. rewrite getNumber_run. cbn [outcome].
    by rewrite (store2_stores key (VNumber n) scope target s Hkey eq_refl). }
  split; [|split; [|split; [|split; [|split]]]].
  - intros x fallback. rewrite get_run. cbn [outcome].
    by rewrite (store2_stores key (VString x) scope target s Hkey eq_refl).
  - intros b fallback. rewrite getBoolean_run. cbn [outcome].
    rewrite (store2_stores key (VBoolean b) scope target s Hkey eq_refl).
    by destruct b.
  - intros z fallback Hd Hz. by rewrite Hnumber, parseInt_toString_Int.
  - intros fallback. by rewrite Hnumber.
  - intros n fallback Hn. rewrite Hnumber. intros [= Heq]. revert Heq.
    destruct n as [|neg|z|neg d e].
    + done.
    + by destruct neg.
    + by apply parseInt_toString_large.
    + apply parseInt_not_Fraction.
  - intros Hwf v. by apply store2_returns.
Qed.

(** The example of the specification: [store2("fontSize", 14, WORKSPACE,
    USER)], then [getNumber("fontSize", WORKSPACE, 0)] returns 14. *)
Lemma store2_then_typed_getter_witness :
  outcome (getNumber "fontSize" WORKSPACE (Some (Int 0))
             (final (store2 "fontSize" (VNumber (Int 14)) WORKSPACE USER
                       new_InMemoryStorageService)))
  = Normal (Some (Int 14)).
Proof.
  refine (proj1 (proj2 (proj2
    (store2_then_typed_getter new_InMemoryStorageService "fontSize" WORKSPACE USER _)))
    14 (Some (Int 0)) _ _).
  - discriminate.
  - reflexivity.
  - reflexivity.
Defined.

(** Why [TARGET_KEY] is left out: a value stored under the reserved key
    is overwritten at once by the TargetMap that records its target. *)
Lemma store2_under_TARGET_KEY_is_overwritten :
  outcome (get TARGET_KEY GLOBAL None
             (final (store2 TARGET_KEY (VString "x") GLOBAL USER
                       new_InMemoryStorageService)))
  = Normal (Some (JSON_stringify (JObject [(TARGET_KEY, JNumber (Int 0))]))).
Proof. vm_compute. reflexivity. Qed.

(** C2 (as stated, refuted).  In the state a first [store2("k", "v",
    GLOBAL, USER)] leaves, two further identical calls in succession fire no
    change event for the key at all, not one. *)
Lemma store2_twice_counterexample :
  let s1 := final (store2 "k" (VString "v") GLOBAL USER new_InMemoryStorageService) in
  let r1 := store2 "k" (VString "v") GLOBAL USER s1 in
  let r2 := store2 "k" (VString "v") GLOBAL USER (final r1) in
  count_events (is_change_of "k" GLOBAL) (fired r1 ++ fired r2) = 0%nat.
Proof. vm_compute. reflexivity. Qed.

(** C2 (amended).  On a well-formed service, for a key other than
    [TARGET_KEY] and a value that is neither null nor undefined, two calls
    [store2(key, v, partition, target)] in succession both return; the
    first fires one [ChangeEvent] for (key, partition) when the text stored
    under the key differed from the text of [v] (or was absent) and none
    when it was already that text; the second fires no event of any kind
    and leaves the service exactly as the first left it. *)
Theorem store2_twice
    (s : service) (key : string) (v : value) (scope : StorageScope)
    (target : StorageTarget) :
  well_formed s = true -> key <> TARGET_KEY -> isUndefinedOrNull v = false ->
  let r1 := store2 key v scope target s in
  let r2 := store2 key v scope target (final r1) in
  outcome r1 = Normal tt /\ outcome r2 = Normal tt
  /\ count_events (is_change_of key scope) (fired r1)
     = (if bool_decide (getCache scope s !! key = Some (ToString v))
        then 0%nat else 1%nat)
  /\ fired r2 = []
  /\ final r2 = final r1.
Proof.
  intros Hwf Hkey Hv. cbv zeta.
  pose proof (well_formed_with_value key v scope s Hkey Hwf) as Hwf1.
  pose proof (store2_returns key v scope target s Hwf Hkey) as Hout.
  rewrite store2_again by done. cbn [outcome final fired].
  repeat split; try done.
  rewrite store2_unfold by done. cbv zeta. simpl fired.
  rewrite count_events_app.
  destruct (updateKeyTarget_well_formed key scope (Some target) _ Hwf1)
    as (evs & s' & -> & _ & [-> | ->] & _); simpl fired;
    rewrite ?count_change_target_events by done;
    case_bool_decide; rewrite ?count_change_events by done; done.
Qed.

(** A first write of a flag on a new service: one change event for the
    key, then none. *)
Lemma store2_twice_witness :
  let r1 := store2 "flag" (VBoolean true) GLOBAL MACHINE new_InMemoryStorageService in
  let r2 := store2 "flag" (VBoolean true) GLOBAL MACHINE (final r1) in
  count_events (is_change_of "flag" GLOBAL) (fired r1) = 1%nat /\ fired r2 = [].
Proof.
  pose proof (store2_twice new_InMemoryStorageService "flag" (VBoolean true) GLOBAL MACHINE
                eq_refl ltac:(discriminate) eq_refl) as (_ & _ & H1 & H2 & _).
  split; [exact H1|exact H2].
Defined.

(** C3 (as stated, refuted).  Storing the text "null" under [TARGET_KEY]
    leaves a TargetMap that parses to [null]; then [remove] throws a
    [TypeError] and so does [keys], which returns no list at all. *)
Lemma remove_with_null_target_map_counterexample :
  let s := final (store2 TARGET_KEY (VString "null") GLOBAL USER
                    new_InMemoryStorageService) in
  outcome (remove "a" GLOBAL s) = Throw TypeError
  /\ outcome (keys GLOBAL USER (final (remove "a" GLOBAL s))) = Throw TypeError
  /\ outcome (keys GLOBAL MACHINE (final (remove "a" GLOBAL s))) = Throw TypeError.
Proof. vm_compute. repeat split. Qed.

(** C3 (amended).  After [remove(key, partition)], in every state and
    whether the call returned or threw, [get(key, partition, fallback)]
    returns the fallback.  On a well-formed service [remove] returns, and
    after it [keys(partition, t)] returns a list without the key, for both
    targets. *)
Theorem remove_then_get_and_keys
    (s : service) (key : string) (scope : StorageScope) (fallback : option string) :
  let r := remove key scope s in
  outcome (get key scope fallback (final r)) = Normal fallback
  /\ (well_formed s = true ->
      outcome r = Normal tt
      /\ forall t : StorageTarget,
           exists ks, outcome (keys scope t (final r)) = Normal ks /\ key ∉ ks).
Proof.
  cbv zeta. split.
  { rewrite get_run. cbn [outcome]. by rewrite remove_deletes. }
  intros Hwf. rewrite remove_run by done. cbn [outcome final].
  pose proof (well_formed_without_value key scope s Hwf) as Hwf1.
  pose proof (well_formed_scope scope _ Hwf1) as Hwfc1.
  destruct (well_formed_recorded scope _ Hwfc1) as [Hall Hc].
  set (s1 := without_value key scope s) in *.
  assert (Hgone : getCache scope s1 !! key = None).
  { unfold s1. rewrite getCache_without_value. apply lookup_delete_eq. }
  split; [done|].
  unfold is_recorded. destruct (recorded_target key scope s1) as [j|] eqn:Hrec.
  - set (ps' := delete_property key (recorded scope s1)).
    assert (Hall' : all_targets ps' = true) by (by apply all_targets_delete).
    assert (Hc' : Canonical ps') by (by apply Canonical_delete).
    intros t. eexists. rewrite keys_run.
    + split; [reflexivity|]. rewrite recorded_write_targets by done.
      rewrite elem_of_collect_keys by done. unfold ps'.
      by rewrite own_delete_eq.
    + apply well_formed_scope. by apply well_formed_write_targets.
  - intros t. eexists. rewrite keys_run by done.
    split; [reflexivity|]. rewrite elem_of_collect_keys by done.
    unfold recorded_target in Hrec. by rewrite Hrec.
Qed.

(** The example of the specification: after [store2("flag", true, GLOBAL,
    MACHINE)] and [remove("flag", GLOBAL)], the key is no longer listed
    for [MACHINE]. *)
Lemma remove_then_get_and_keys_witness :
  exists ks,
    outcome (keys GLOBAL MACHINE
               (final (remove "flag" GLOBAL
                  (final (store2 "flag" (VBoolean true) GLOBAL MACHINE
                            new_InMemoryStorageService)))))
    = Normal ks
    /\ "flag" ∉ ks.
Proof.
  refine (proj2 (proj2
    (remove_then_get_and_keys
       (final (store2 "flag" (VBoolean true) GLOBAL MACHINE new_InMemoryStorageService))
       "flag" GLOBAL None) _) MACHINE).
  vm_compute. reflexivity.
Defined.

(** C4 (as stated, refuted).  ["a"] is written with target [USER] and
    never removed; a write under the reserved [TARGET_KEY] then replaces
    the TargetMap, and [keys(GLOBAL, USER)] no longer lists ["a"]. *)
Lemma keys_after_TARGET_KEY_write_counterexample :
  let s1 := final (store2 "a" (VString "1") GLOBAL USER new_InMemoryStorageService) in
  let s2 := final (store2 TARGET_KEY (VString "x") GLOBAL MACHINE s1) in
  outcome (keys GLOBAL USER s1) = Normal ["a"]
  /\ outcome (get "a" GLOBAL None s2) = Normal (Some "1")
  /\ outcome (keys GLOBAL USER s2) = Normal [].
Proof. vm_compute. repeat split. Qed.

(** C4 (amended).  On a well-formed service, a key other than
    [TARGET_KEY] and ["__proto__"] that was written by [store2] with target
    [t], and that no later call has written or removed, is listed by
    [keys(partition, t)] and not by [keys] for the other target, as long
    as no later call names [TARGET_KEY]. *)
Theorem keys_after_store2
    (s : service) (key : string) (v : value) (scope : StorageScope)
    (t : StorageTarget) (later : list call) :
  well_formed s = true -> key <> TARGET_KEY -> key <> "__proto__" ->
  isUndefinedOrNull v = false ->
  Forall (fun c => call_key c <> TARGET_KEY
                   /\ (call_key c <> key \/ call_scope c <> scope)) later ->
  let s' := final (run_calls later (final (store2 key v scope t s))) in
  exists ks ks',
    outcome (keys scope t s') = Normal ks /\ key ∈ ks
    /\ outcome (keys scope (other_target t) s') = Normal ks' /\ key ∉ ks'.
Proof.
  intros Hwf Hkey Hproto Hv Hlater. cbv zeta.
  destruct (store2_well_formed key v scope t s Hwf Hkey)
    as (evs & s1 & Heq & Hwf1 & _).
  assert (Hrec1 : recorded_target key scope s1 = Some (JNumber (target_number t))).
  { replace s1 with (final (store2 key v scope t s)) by (by rewrite Heq).
    rewrite store2_run by done. cbn [final].
    pose proof (well_formed_with_value key v scope s Hkey Hwf) as Hwfv.
    destruct (well_formed_recorded scope s (well_formed_scope scope s Hwf))
      as [Hall Hc].
    destruct (has_target key t scope s) eqn:Hhas.
    - rewrite recorded_target_with_value by done.
      apply has_target_true; [by apply well_formed_scope|done].
    - unfold recorded_target. rewrite recorded_write_targets.
      + apply own_define_eq.
      + apply all_targets_define; [apply is_target_number|done].
      + by apply Canonical_define. }
  rewrite Heq. cbn [final].
  destruct (run_calls_other_keys later key scope s1 Hwf1 Hlater)
    as (_ & Hwf2 & Hrec2).
  set (s2 := final (run_calls later s1)) in *.
  pose proof (well_formed_scope scope s2 Hwf2) as Hwfc2.
  destruct (well_formed_recorded scope s2 Hwfc2) as [Hall2 Hc2].
  rewrite Hrec1 in Hrec2. unfold recorded_target in Hrec2.
  eexists _, _. rewrite !keys_run by done. cbn [outcome].
  split; [reflexivity|]. split; [by apply elem_of_collect_keys|].
  split; [reflexivity|]. rewrite elem_of_collect_keys by done.
  rewrite Hrec2. by destruct t.
Qed.

(** The example of the specification: after [store2("fontSize", 14,
    WORKSPACE, USER)] and a write under another key, [keys(WORKSPACE,
    USER)] lists ["fontSize"] and [keys(WORKSPACE, MACHINE)] does not. *)
Lemma keys_after_store2_witness :
  let s' := final (run_calls [Store "flag" (VBoolean true) WORKSPACE]
                     (final (store2 "fontSize" (VNumber (Int 14)) WORKSPACE USER
                               new_InMemoryStorageService))) in
  exists ks ks',
    outcome (keys WORKSPACE USER s') = Normal ks /\ "fontSize" ∈ ks
    /\ outcome (keys WORKSPACE MACHINE s') = Normal ks' /\ "fontSize" ∉ ks'.
Proof.
  refine (keys_after_store2 new_InMemoryStorageService "fontSize" (VNumber (Int 14))
            WORKSPACE USER [Store "flag" (VBoolean true) WORKSPACE] _ _ _ _ _).
  - reflexivity.
  - discriminate.
  - discriminate.
  - reflexivity.
  - constructor; [split; [discriminate|left; discriminate]|constructor].
Defined.

(** The key the amended statement leaves out.  After [store2("a", "1",
    GLOBAL, USER)] the TargetMap is read back by [JSON.parse] as an
    ordinary object; the assignment [keyTargets["__proto__"] = 0] then goes
    to the accessor inherited from [Object.prototype] and records nothing:
    the value is stored, yet [keys(GLOBAL, USER)] does not list the key. *)
Lemma keys_misses_proto_key :
  let s1 := final (store2 "a" (VString "1") GLOBAL USER new_InMemoryStorageService) in
  let r := store2 "__proto__" (VString "1") GLOBAL USER s1 in
  outcome r = Normal tt
  /\ outcome (get "__proto__" GLOBAL None (final r)) = Normal (Some "1")
  /\ outcome (keys GLOBAL USER (final r)) = Normal ["a"]
  /\ outcome (keys GLOBAL MACHINE (final r)) = Normal [].
Proof. vm_compute. repeat split. Qed.

(** On a new service [getKeyTargets] hands out the object made by
    [Object.create(null)], which has no accessor, and the same write is
    recorded. *)
Lemma keys_lists_proto_key_on_new_service :
  outcome (keys GLOBAL USER
             (final (store2 "__proto__" (VString "1") GLOBAL USER
                       new_InMemoryStorageService)))
  = Normal ["__proto__"].
Proof. vm_compute. reflexivity. Qed.

(** C5.  When the text under [TARGET_KEY] is not JSON, [getKeyTargets]
    returns an empty mapping and not an error, [keys] returns the empty
    list for both targets and touches nothing, and [get],
    [getBoolean] and [getNumber] for the other keys return what they
    return whatever text stands under [TARGET_KEY]. *)
Theorem malformed_target_map_is_empty
    (s : service) (scope : StorageScope) (raw : string) :
  getCache scope s !! TARGET_KEY = Some raw ->
  JSON_parse raw = Throw SyntaxError ->
  getKeyTargets scope s = mkResult (Normal (NullProto [])) s []
  /\ (forall t : StorageTarget, keys scope t s = mkResult (Normal []) s [])
  /\ (forall (key other : string) (fs : option string) (fb : option bool)
             (fn : option number),
        key <> TARGET_KEY ->
        let s' := setCache scope (<[TARGET_KEY := other]> (getCache scope s)) s in
        outcome (get key scope fs s) = outcome (get key scope fs s')
        /\ outcome (getBoolean key scope fb s) = outcome (getBoolean key scope fb s')
        /\ outcome (getNumber key scope fn s) = outcome (getNumber key scope fn s')).
Proof.
  intros Hlook Hparse.
  assert (Hkt : key_targets (getCache scope s) = Normal (NullProto [])).
  { unfold key_targets. rewrite Hlook. destruct raw; [done|]. by rewrite Hparse. }
  split; [by apply getKeyTargets_normal|]. split.
  - intros t. unfold keys.
    rewrite (bind_pure _ _ _ _ (getKeyTargets_normal _ _ _ Hkt)).
    erewrite bind_pure; [|apply lift_normal; reflexivity]. reflexivity.
  - intros key other fs fb fn Hkey. cbv zeta.
    rewrite !get_run, !getBoolean_run, !getNumber_run. cbn [outcome].
    rewrite getCache_setCache, lookup_insert_ne by done. done.
Qed.

(** A partition whose TargetMap text is the unfinished object [{]. *)
Lemma malformed_target_map_is_empty_witness :
  keys GLOBAL USER (mkService (<[TARGET_KEY := "{"]> (<["a" := "1"]> ∅)) ∅ [])
  = mkResult (Normal [])
      (mkService (<[TARGET_KEY := "{"]> (<["a" := "1"]> ∅)) ∅ []) [].
Proof.
  refine (proj1 (proj2
    (malformed_target_map_is_empty
       (mkService (<[TARGET_KEY := "{"]> (<["a" := "1"]> ∅)) ∅ []) GLOBAL "{" _ _))
    USER).
  - reflexivity.
  - reflexivity.
Defined.

(** C6 (as stated, refuted).  No target is recorded for [TARGET_KEY] on a
    new service, and [store2] under that key fires two
    [TargetChangeEvent]s, not one: one for the value, one for the
    TargetMap that replaces it. *)
Lemma target_changes_for_TARGET_KEY_counterexample :
  let r := store2 TARGET_KEY (VString "x") GLOBAL USER new_InMemoryStorageService in
  outcome (keys GLOBAL USER new_InMemoryStorageService) = Normal []
  /\ outcome (keys GLOBAL MACHINE new_InMemoryStorageService) = Normal []
  /\ outcome r = Normal tt
  /\ count_events (is_target_change_of GLOBAL) (fired r) = 2%nat.
Proof. vm_compute. repeat split. Qed.

(** C6 (amended).  On a well-formed service and for a key other than
    [TARGET_KEY] and ["__proto__"]: a [store2] of a value (neither null nor
    undefined) whose target is not the one recorded for the key fires
    exactly one [TargetChangeEvent] for the partition; a [remove] of a key
    that has a recorded target fires exactly one; a second identical
    [store2] fires none. *)
Theorem target_change_signal
    (s : service) (key : string) (v : value) (scope : StorageScope)
    (t : StorageTarget) :
  well_formed s = true -> key <> TARGET_KEY -> key <> "__proto__" ->
  isUndefinedOrNull v = false ->
  (recorded_target key scope s <> Some (JNumber (target_number t)) ->
     count_events (is_target_change_of scope) (fired (store2 key v scope t s)) = 1%nat)
  /\ (is_Some (recorded_target key scope s) ->
        count_events (is_target_change_of scope) (fired (remove key scope s)) = 1%nat)
  /\ count_events (is_target_change_of scope)
       (fired (store2 key v scope t (final (store2 key v scope t s)))) = 0%nat.
Proof.
  intros Hwf Hkey Hproto Hv. split; [|split].
  - intros Hdiff. rewrite store2_run by done. cbn [fired].
    rewrite count_events_app, count_target_change_value_events by done.
    destruct (has_target key t scope s) eqn:Hhas.
    + apply has_target_true in Hhas; [done|by apply well_formed_scope].
    + apply count_target_change_target_events.
  - intros Hsome. rewrite remove_run by done. cbn [fired].
    rewrite count_events_app, count_target_change_value_events by done.
    unfold is_recorded. rewrite recorded_target_without_value by done.
    destruct Hsome as [j ->]. apply count_target_change_target_events.
  - by rewrite store2_again.
Qed.

(** A first write on a new service, where no target is recorded yet: one
    [TargetChangeEvent]. *)
Lemma target_change_signal_witness :
  count_events (is_target_change_of GLOBAL)
    (fired (store2 "flag" (VBoolean true) GLOBAL MACHINE new_InMemoryStorageService))
  = 1%nat.
Proof.
  refine (proj1
    (target_change_signal new_InMemoryStorageService "flag" (VBoolean true) GLOBAL
       MACHINE _ _ _ _) _).
  - reflexivity.
  - discriminate.
  - discriminate.
  - reflexivity.
  - discriminate.
Defined.

(** The key the amended statement leaves out.  In the state
    [store2("a", "1", GLOBAL, USER)] leaves, no target is recorded for
    ["__proto__"]: neither [keys(GLOBAL, USER)] nor [keys(GLOBAL, MACHINE)]
    lists it.  [store2("__proto__", "1", GLOBAL, USER)] nevertheless fires
    no [TargetChangeEvent]: the assignment is taken by the accessor
    inherited from [Object.prototype], the text of the TargetMap does not
    change. *)
Lemma no_target_change_for_proto_key :
  let s1 := final (store2 "a" (VString "1") GLOBAL USER new_InMemoryStorageService) in
  let r := store2 "__proto__" (VString "1") GLOBAL USER s1 in
  outcome (keys GLOBAL USER s1) = Normal ["a"]
  /\ outcome (keys GLOBAL MACHINE s1) = Normal []
  /\ outcome r = Normal tt
  /\ count_events (is_target_change_of GLOBAL) (fired r) = 0%nat
  /\ fired r = [StorageChangeEvent "__proto__" GLOBAL].
Proof. vm_compute. repeat split. Qed.

(** C7 (as stated, refuted).  The text "true" is stored; read with the
    fallback [true], [getBoolean] returns [true], which is the fallback,
    although a text is stored. *)
Lemma getBoolean_fallback_with_text_counterexample :
  let s := mkService (<["flag" := "true"]> ∅) ∅ [] in
  getCache GLOBAL s !! "flag" = Some "true"
  /\ outcome (getBoolean "flag" GLOBAL (Some true) s) = Normal (Some true).
Proof. vm_compute. split; reflexivity. Qed.

(** C7 (amended).  [getBoolean] returns the fallback, whatever fallback it
    is given, if and only if no text is stored under the key in the
    partition; when a text is stored it returns [true] if the text is
    exactly "true" and [false] for any other text, and the fallback plays
    no part.  So for one given fallback the result is the fallback exactly
    when no text is stored or the stored text reads as that boolean. *)
Theorem getBoolean_fallback_only_when_absent
    (s : service) (key : string) (scope : StorageScope) :
  ((forall fallback : option bool,
      outcome (getBoolean key scope fallback s) = Normal fallback)
   <-> getCache scope s !! key = None)
  /\ (forall (text : string) (fallback : option bool),
        getCache scope s !! key = Some text ->
        outcome (getBoolean key scope fallback s)
        = Normal (Some (bool_decide (text = "true"))))
  /\ (forall fallback : option bool,
        outcome (getBoolean key scope fallback s) = Normal fallback
        <-> (getCache scope s !! key = None
             \/ exists text, getCache scope s !! key = Some text
                             /\ fallback = Some (bool_decide (text = "true")))).
Proof.
  assert (Hread : forall text : string,
            String.eqb text "true" = bool_decide (text = "true")).
  { intros text. destruct (String.eqb_spec text "true") as [->|Hne].
    - by rewrite bool_decide_eq_true_2.
    - by rewrite bool_decide_eq_false_2. }
  split; [|split].
  - split.
    + intros H. specialize (H None). rewrite getBoolean_run in H. cbn [outcome] in H.
      by destruct (getCache scope s !! key).
    + intros Hnone fallback. rewrite getBoolean_run. cbn [outcome]. by rewrite Hnone.
  - intros text fallback Hsome. rewrite getBoolean_run. cbn [outcome]. rewrite Hsome.
    by rewrite Hread.
  - intros fallback. rewrite getBoolean_run. cbn [outcome].
    destruct (getCache scope s !! key) as [text|].
    + rewrite Hread. split.
      * intros [= <-]. right. by exists text.
      * intros [Hnone|(text' & [= <-] & ->)]; [discriminate|done].
    + split; [by left|done].
Qed.

(** A present but falsy text: the empty string is stored, the fallback is
    [true], the result is [false]. *)
Lemma getBoolean_fallback_only_when_absent_witness :
  outcome (getBoolean "flag" GLOBAL (Some true)
             (mkService (<["flag" := EmptyString]> ∅) ∅ []))
  = Normal (Some false).
Proof.
  refine (proj1 (proj2
    (getBoolean_fallback_only_when_absent
       (mkService (<["flag" := EmptyString]> ∅) ∅ []) "flag" GLOBAL))
    EmptyString (Some true) _).
  reflexivity.
Defined.

(** C8 (as stated, refuted).  A subscriber stores "x" under [TARGET_KEY]
    in its callback; the same call replaces it by the TargetMap, and
    after the flush "x" is not there. *)
Lemma flush_loses_write_under_TARGET_KEY_counterexample :
  let s := mkService ∅ ∅ [fun _ => [Store2 TARGET_KEY (VString "x") GLOBAL USER]] in
  outcome (flush s) = Normal (Resolved tt)
  /\ outcome (get TARGET_KEY GLOBAL None (final (flush s)))
     = Normal (Some (JSON_stringify (JObject [(TARGET_KEY, JNumber (Int 0))])))
  /\ JSON_stringify (JObject [(TARGET_KEY, JNumber (Int 0))]) <> "x".
Proof. vm_compute. repeat split. discriminate. Qed.

(** C8 (amended).  [flush] first fires a [WillSaveStateEvent] with reason
    [NONE], and only when the broadcast has returned does it call
    [doFlush], whatever [doFlush] is, on the state the broadcast left; what
    [doFlush] returns, leaves and fires is what [flush] returns, leaves and
    fires after the events of the broadcast.  On a well-formed service
    whose subscribers never name [TARGET_KEY], the broadcast runs the
    callbacks of all subscribers in the order of registration and fires
    no second [WillSaveStateEvent], the in-memory [flush] resolves, and in
    the state [doFlush] receives every value a subscriber wrote with
    [store] or [store2] is there to read, unless a later call of the
    broadcast wrote or removed the same key of the same partition. *)
Theorem flush_reflects_subscriber_writes (persist : M (promise unit)) (s : service) :
  let broadcast := fire_onWillSaveState NONE s in
  let script := concat (scripts NONE s) in
  (exists evs, fired broadcast = WillSaveStateEvent NONE :: evs)
  /\ (outcome broadcast = Normal tt ->
      @flush (persisting persist) s
      = mkResult (outcome (persist (final broadcast)))
                 (final (persist (final broadcast)))
                 (fired broadcast ++ fired (persist (final broadcast))))
  /\ (well_formed s = true ->
      Forall (Forall (fun c => call_key c <> TARGET_KEY)) (scripts NONE s) ->
      outcome broadcast = Normal tt
      /\ final broadcast = apply_calls script s
      /\ count_events is_will_save (fired broadcast) = 1%nat
      /\ flush s = mkResult (Normal (Resolved tt)) (final broadcast) (fired broadcast)
      /\ forall (before after : list call) (c : call) (key : string) (v : value)
                (scope : StorageScope) (fallback : option string),
           script = before ++ c :: after ->
           writes c key v scope -> isUndefinedOrNull v = false ->
           Forall (fun c' => call_key c' <> key \/ call_scope c' <> scope) after ->
           outcome (get key scope fallback (final broadcast))
           = Normal (Some (ToString v))).
Proof.
  cbv zeta. split; [|split].
  - unfold fire_onWillSaveState, bind, emit. cbn [outcome final fired].
    by eexists.
  - intros Hreturns.
    change (@flush (persisting persist) s)
      with (bind (fire_onWillSaveState NONE) (fun _ => persist) s).
    unfold bind at 1. by rewrite Hreturns.
  - intros Hwf Hscripts.
    destruct (flush_run s Hwf Hscripts) as (evs & Hb & Hf & Hno & Hwf' & _).
    rewrite Hf, Hb. cbn [outcome final fired].
    split; [done|]. split; [done|]. split.
    { unfold count_events. rewrite filter_cons_True by done. simpl.
      f_equal. by apply no_will_save_count. }
    split; [done|].
    intros before after c key v scope fallback Hscript Hwrites Hv Hafter.
    rewrite get_run. cbn [outcome]. rewrite Hscript, apply_calls_app.
    assert (Hkeys : Forall (fun c => call_key c <> TARGET_KEY)
                      (before ++ c :: after)).
    { rewrite <- Hscript. by apply Forall_concat. }
    apply Forall_app in Hkeys as [Hbefore Hrest].
    inversion Hrest as [|? ? Hc Hafter']; subst.
    destruct (run_calls_ok before s Hwf Hbefore) as (_ & _ & _ & Hwf1 & _).
    destruct (run_call_ok c _ Hwf1 Hc) as (_ & _ & _ & Hwf2 & _ & _ & Hwritten).
    assert (Hkey : key <> TARGET_KEY).
    { destruct Hwrites as [->|[t ->]]; exact Hc. }
    change (apply_calls (c :: after) ?x)
      with (apply_calls after (final (run_call c x))).
    rewrite apply_calls_untouched; [|done|done|].
    + by rewrite (Hwritten key v scope Hwrites Hv).
    + rewrite Forall_forall in Hafter, Hafter' |- *. intros c' Hin.
      split; [by apply Hafter'|by apply Hafter].
Qed.

(** The example of the specification, with a [doFlush] that can be seen:
    a subscriber calls [store2] in its callback, and [doFlush] copies what
    it finds under the subscriber's key; the copy holds the value the
    subscriber wrote. *)
Lemma flush_reflects_subscriber_writes_witness :
  let persist : M (promise unit) :=
    fun s => match getCache WORKSPACE s !! "pending" with
             | Some text => mkResult (Normal (Resolved tt))
                              (setCache GLOBAL (<["disk" := text]> (getCache GLOBAL s)) s)
                              []
             | None => mkResult (Normal (Resolved tt)) s []
             end in
  let s := mkService ∅ ∅
             [fun _ => [Store2 "pending" (VString "saved") WORKSPACE MACHINE]] in
  outcome (get "disk" GLOBAL None (final (@flush (persisting persist) s)))
  = Normal (Some "saved").
Proof.
  cbv zeta.
  rewrite (proj1 (proj2 (flush_reflects_subscriber_writes _ _)));
    vm_compute; reflexivity.
Defined.

(** C9 (as stated, refuted).  [isNew] is not fixed: it reads the marker
    from the cache, and after [store(IS_NEW_KEY, true, GLOBAL)] it returns
    true. *)
Lemma isNew_after_store_under_IS_NEW_KEY_counterexample :
  outcome (isNew GLOBAL
             (final (store IS_NEW_KEY (VBoolean true) GLOBAL new_InMemoryStorageService)))
  = Normal true.
Proof. vm_compute. reflexivity. Qed.

(** C9 (amended).  [isNew(partition)] returns true exactly when the text
    "true" is stored under the reserved [IS_NEW_KEY] of the partition.  The
    in-memory service never stores it of its own: in every state a new
    service reaches through writes, removals, flushes, migrations and
    subscriptions that never name [IS_NEW_KEY], [isNew] returns false for
    both partitions.  [migrate] completes at once, leaves the service as
    it was and fires nothing. *)
Theorem isNew_reads_the_marker_and_migrate_does_nothing
    (ops : list operation) (scope : StorageScope) :
  Forall (avoids IS_NEW_KEY) ops ->
  let s := run_operations ops new_InMemoryStorageService in
  isNew scope s = mkResult (Normal false) s []
  /\ (forall s' : service,
        outcome (isNew scope s') = Normal true
        <-> getCache scope s' !! IS_NEW_KEY = Some "true")
  /\ forall (s' : service) (toWorkspace : IWorkspaceInitializationPayload),
       migrate toWorkspace s' = mkResult (Normal (Resolved tt)) s' [].
Proof.
  intros Hops. cbv zeta. split; [|split; [|reflexivity]].
  - destruct (run_operations_marker_free ops new_InMemoryStorageService Hops)
      as [Hnone _].
    { split; [by intros []|constructor]. }
    rewrite isNew_run, Hnone. done.
  - intros s'. rewrite isNew_run. cbn [outcome]. split.
    + intros [= H]. by apply bool_decide_eq_true_1 in H.
    + intros H. by rewrite bool_decide_eq_true_2.
Qed.

(** A session: a subscriber that stores a counter on save, two writes, a
    removal and a flush. *)
Lemma isNew_reads_the_marker_and_migrate_does_nothing_witness :
  isNew WORKSPACE
    (run_operations
       [Subscribe (fun _ => [Store2 "saved" (VNumber (Int 1)) WORKSPACE MACHINE]);
        Call (Store2 "fontSize" (VNumber (Int 14)) WORKSPACE USER);
        Call (Store "flag" (VBoolean true) GLOBAL);
        Call (Remove "flag" GLOBAL); Flush; Migrate (WorkspaceIdentity "w")]
       new_InMemoryStorageService)
  = mkResult (Normal false)
      (run_operations
         [Subscribe (fun _ => [Store2 "saved" (VNumber (Int 1)) WORKSPACE MACHINE]);
          Call (Store2 "fontSize" (VNumber (Int 14)) WORKSPACE USER);
          Call (Store "flag" (VBoolean true) GLOBAL);
          Call (Remove "flag" GLOBAL); Flush; Migrate (WorkspaceIdentity "w")]
         new_InMemoryStorageService) [].
Proof.
  refine (proj1 (isNew_reads_the_marker_and_migrate_does_nothing _ WORKSPACE _)).
  repeat constructor; simpl; discriminate.
Defined.

(** C10.  The read operations [get], [getBoolean], [getNumber], [keys] and
    [isNew] leave the service exactly as it was, both partitions with
    their reserved entries included, and fire no event. *)
Theorem reads_are_pure
    (s : service) (key : string) (scope : StorageScope) (target : StorageTarget)
    (fs : option string) (fb : option bool) (fn : option number) :
  (final (get key scope fs s) = s /\ fired (get key scope fs s) = [])
  /\ (final (getBoolean key scope fb s) = s /\ fired (getBoolean key scope fb s) = [])
  /\ (final (getNumber key scope fn s) = s /\ fired (getNumber key scope fn s) = [])
  /\ (final (keys scope target s) = s /\ fired (keys scope target s) = [])
  /\ (final (isNew scope s) = s /\ fired (isNew scope s) = []).
Proof.
  rewrite get_run, getBoolean_run, getNumber_run, isNew_run. simpl.
  repeat split; apply keys_pure.
Qed.

(* ===================================================================== *)
(** * Further properties                                                  *)
(* ===================================================================== *)

(* --------------------------------------------------------------------- *)
(** ** Facts that hold in every state: events and partitions *)
(* --------------------------------------------------------------------- *)

Section EveryState.

Implicit Types (s : service) (scope : StorageScope) (key k : string).

Lemma updateKeyTarget_cases key scope (target : option StorageTarget) s :
  let u := updateKeyTarget key scope target s in
  (final u = s /\ fired u = [])
  \/ exists text,
       outcome u = Normal tt
       /\ final u = with_value TARGET_KEY (VString text) scope s
       /\ fired u = value_events
                      (negb (bool_decide (getCache scope s !! TARGET_KEY = Some text)))
                      TARGET_KEY scope.
Proof.
  cbv zeta.
  unfold updateKeyTarget, bind. rewrite getKeyTargets_run. cbn [outcome final fired].
  destruct (key_targets (getCache scope s)) as [r|e]; [|by left].
  destruct target as [t|].
  - destruct (get_property r key) as [pv|e]; cbn [lift ret throw outcome final fired];
      [|by left].
    destruct (not_strict_equal pv (target_number t)); [|by left].
    destruct (set_property r key (JNumber (target_number t))) as [r'|e];
      cbn [lift ret throw outcome final fired]; [|by left].
    right. eexists. rewrite doStore_run. cbn [outcome final fired ToString].
    split; [done|]. split; [done|]. unfold value_events. by case_bool_decide.
  - destruct (get_property r key) as [pv|e]; cbn [lift ret throw outcome final fired];
      [|by left].
    destruct (typeof_number pv); [|by left].
    destruct (remove_property r key) as [r'|e];
      cbn [lift ret throw outcome final fired]; [|by left].
    right. eexists. rewrite doStore_run. cbn [outcome final fired ToString].
    split; [done|]. split; [done|]. unfold value_events. by case_bool_decide.
Qed.

Lemma getCache_other_scope scope c s :
  getCache (other_scope scope) (setCache scope c s) = getCache (other_scope scope) s.
Proof. by destruct scope. Qed.

(** In every state, a write fires at most the change of its key followed
    by the change of the TargetMap, and touches one partition only. *)
Lemma run_call_shape (c : call) s :
  exists a b : bool,
    fired (run_call c s)
    = value_events a (call_key c) (call_scope c)
      ++ value_events b TARGET_KEY (call_scope c)
    /\ getCache (other_scope (call_scope c)) (final (run_call c s))
       = getCache (other_scope (call_scope c)) s.
Proof.
  assert (Hupdate : forall key scope target s0,
            exists b : bool,
              fired (updateKeyTarget key scope target s0)
              = value_events b TARGET_KEY scope
              /\ getCache (other_scope scope)
                   (final (updateKeyTarget key scope target s0))
                 = getCache (other_scope scope) s0).
  { intros key scope target s0.
    destruct (updateKeyTarget_cases key scope target s0)
      as [[-> ->] | (text & _ & -> & ->)].
    - by exists false.
    - eexists. split; [reflexivity|]. apply getCache_other_scope. }
  assert (Hremove : forall key scope,
            exists a b : bool,
              fired (remove key scope s)
              = value_events a key scope ++ value_events b TARGET_KEY scope
              /\ getCache (other_scope scope) (final (remove key scope s))
                 = getCache (other_scope scope) s).
  { intros key scope. rewrite remove_unfold. cbv zeta. cbn [final fired].
    destruct (Hupdate key scope None (without_value key scope s)) as (b & -> & ->).
    exists (bool_decide (is_Some (getCache scope s !! key))), b.
    split; [done|]. apply getCache_other_scope. }
  assert (Hstore : forall key v scope t,
            exists a b : bool,
              fired (store2 key v scope t s)
              = value_events a key scope ++ value_events b TARGET_KEY scope
              /\ getCache (other_scope scope) (final (store2 key v scope t s))
                 = getCache (other_scope scope) s).
  { intros key v scope t. destruct (isUndefinedOrNull v) eqn:Hv.
    - rewrite store2_null by done. apply Hremove.
    - rewrite store2_unfold by done. cbv zeta. cbn [final fired].
      destruct (Hupdate key scope (Some t) (with_value key v scope s)) as (b & -> & ->).
      exists (negb (bool_decide (getCache scope s !! key = Some (ToString v)))), b.
      split; [|apply getCache_other_scope].
      unfold value_events. by case_bool_decide. }
  destruct c as [key v scope|key v scope t|key scope]; simpl.
  - apply Hstore.
  - apply Hstore.
  - apply Hremove.
Qed.

Lemma concerns_value_events (a : bool) key scope :
  Forall (concerns scope) (value_events a key scope).
Proof.
  unfold value_events, change_events. destruct a; [|constructor].
  destruct (String.eqb key TARGET_KEY); repeat constructor.
Qed.

Lemma paired_nil : paired [].
Proof. by intros scope. Qed.

Lemma paired_app (l1 l2 : list event) : paired l1 -> paired l2 -> paired (l1 ++ l2).
Proof. intros H1 H2 scope. by rewrite !count_events_app, H1, H2. Qed.

Lemma paired_value_events (a : bool) key scope : paired (value_events a key scope).
Proof.
  destruct a; [|apply paired_nil]. intros scope'.
  unfold value_events, change_events, count_events, is_target_change_of, is_change_of.
  destruct (String.eqb key TARGET_KEY) eqn:Heq.
  - apply String.eqb_eq in Heq as ->.
    destruct (decide (scope = scope')) as [->|Hne].
    + rewrite filter_cons_False by (by rewrite bool_decide_eq_false_2).
      rewrite filter_cons_True by (by rewrite bool_decide_eq_true_2).
      rewrite filter_cons_True by (by rewrite bool_decide_eq_true_2).
      rewrite filter_cons_False by (by rewrite bool_decide_eq_false_2). done.
    + rewrite !filter_cons_False; [done| | | |];
        rewrite bool_decide_eq_false_2; try done; intros [= ?]; congruence.
  - apply String.eqb_neq in Heq.
    rewrite !filter_cons_False; [done| |];
      rewrite bool_decide_eq_false_2; try done; intros [= ?]; congruence.
Qed.

Lemma paired_run_call (c : call) s : paired (fired (run_call c s)).
Proof.
  destruct (run_call_shape c s) as (a & b & -> & _).
  apply paired_app; apply paired_value_events.
Qed.

Lemma paired_run_calls (cs : list call) : forall s, paired (fired (run_calls cs s)).
Proof.
  induction cs as [|c cs IH]; intros s; [apply paired_nil|].
  simpl. unfold bind. pose proof (paired_run_call c s) as Hc.
  destruct (outcome (run_call c s)); cbn [fired]; [|done].
  by apply paired_app.
Qed.

Lemma deliver_to_fired (l : list call) s : fired (deliver_to l s) = fired (run_calls l s).
Proof.
  unfold deliver_to. by destruct (outcome (run_calls l s)) as [|[]].
Qed.

Lemma paired_deliver_all (ls : list (list call)) : forall s,
  paired (fired (deliver_all ls s)).
Proof.
  induction ls as [|l ls IH]; intros s; [apply paired_nil|].
  simpl. unfold bind. pose proof (paired_run_calls l s) as Hl.
  rewrite <- deliver_to_fired in Hl.
  destruct (outcome (deliver_to l s)); cbn [fired]; [|done].
  by apply paired_app.
Qed.

End EveryState.

(** X1.  In every state, [store2], [store] and [remove] leave the cache of
    the other partition exactly as it was, and every event they fire is a
    [StorageChangeEvent] or a [StorageTargetChangeEvent] of the partition
    they were called on; this holds whether the call returns or throws. *)
Theorem writes_stay_in_their_partition
    (s : service) (key : string) (v : value) (scope : StorageScope)
    (t : StorageTarget) :
  let other := other_scope scope in
  (getCache other (final (store2 key v scope t s)) = getCache other s
   /\ Forall (concerns scope) (fired (store2 key v scope t s)))
  /\ (getCache other (final (store key v scope s)) = getCache other s
      /\ Forall (concerns scope) (fired (store key v scope s)))
  /\ (getCache other (final (remove key scope s)) = getCache other s
      /\ Forall (concerns scope) (fired (remove key scope s))).
Proof.
  cbv zeta.
  assert (Hcall : forall c : call,
            getCache (other_scope (call_scope c)) (final (run_call c s))
            = getCache (other_scope (call_scope c)) s
            /\ Forall (concerns (call_scope c)) (fired (run_call c s))).
  { intros c. destruct (run_call_shape c s) as (a & b & -> & ->).
    split; [done|]. apply Forall_app. split; apply concerns_value_events. }
  split; [|split].
  - apply (Hcall (Store2 key v scope t)).
  - apply (Hcall (Store key v scope)).
  - apply (Hcall (Remove key scope)).
Qed.

(** X2.  The listener the constructor registers is the only source of
    [StorageTargetChangeEvent]s: in every state, the events [store2],
    [remove] and [flush] fire hold, for each partition, as many
    [StorageTargetChangeEvent]s as [StorageChangeEvent]s of [TARGET_KEY]. *)
Theorem target_changes_follow_target_map_changes
    (s : service) (key : string) (v : value) (scope scope' : StorageScope)
    (t : StorageTarget) :
  let target_changes evs := count_events (is_target_change_of scope') evs in
  let map_changes evs := count_events (is_change_of TARGET_KEY scope') evs in
  target_changes (fired (store2 key v scope t s))
  = map_changes (fired (store2 key v scope t s))
  /\ target_changes (fired (remove key scope s))
     = map_changes (fired (remove key scope s))
  /\ target_changes (fired (flush s)) = map_changes (fired (flush s)).
Proof.
  cbv zeta. split; [|split].
  - apply (paired_run_call (Store2 key v scope t) s).
  - apply (paired_run_call (Remove key scope) s).
  - unfold flush, fire_onWillSaveState, bind, emit, doFlush. cbn [outcome final fired].
    pose proof (paired_deliver_all (map (fun l => l NONE) (onWillSaveState s)) s scope')
      as Hd.
    destruct (outcome (deliver_all _ s));
      cbn [fired InMemoryStorageService InMemory.doFlush ret];
      rewrite ?app_nil_r; exact Hd.
Qed.

(* --------------------------------------------------------------------- *)
(** ** One call on a well-formed service *)
(* --------------------------------------------------------------------- *)

Section SingleCalls.

Implicit Types (s : service) (scope : StorageScope) (key k : string).

Lemma without_value_absent key scope s :
  getCache scope s !! key = None -> without_value key scope s = s.
Proof.
  intros Hnone. unfold without_value. rewrite delete_id by done.
  apply setCache_getCache.
Qed.

(** What [remove] leaves behind. *)
Lemma remove_forgets key scope s :
  well_formed s = true ->
  exists evs s',
    remove key scope s = mkResult (Normal tt) s' evs
    /\ well_formed s' = true
    /\ getCache scope s' !! key = None
    /\ recorded_target key scope s' = None.
Proof.
  intros Hwf. rewrite remove_run by done.
  pose proof (well_formed_without_value key scope s Hwf) as Hwf1.
  pose proof (well_formed_scope scope _ Hwf1) as Hwfc1.
  destruct (well_formed_recorded scope _ Hwfc1) as [Hall Hc].
  set (s1 := without_value key scope s) in *.
  assert (Hgone : getCache scope s1 !! key = None).
  { unfold s1. rewrite getCache_without_value. apply lookup_delete_eq. }
  eexists _, _. split; [reflexivity|].
  unfold is_recorded. destruct (recorded_target key scope s1) as [j|] eqn:Hrec.
  - set (ps' := delete_property key (recorded scope s1)).
    assert (Hall' : all_targets ps' = true) by (by apply all_targets_delete).
    assert (Hc' : Canonical ps') by (by apply Canonical_delete).
    assert (Hkey : key <> TARGET_KEY).
    { intros ->. unfold recorded_target, recorded, key_targets in Hrec.
      by rewrite Hgone in Hrec. }
    split; [by apply well_formed_write_targets|]. split.
    + rewrite getCache_write_targets. by rewrite lookup_insert_ne.
    + unfold recorded_target. rewrite recorded_write_targets by done.
      by apply own_delete_eq.
  - done.
Qed.

(** What [store2] leaves behind. *)
Lemma store2_records key (v : value) scope t s :
  well_formed s = true -> key <> TARGET_KEY -> key <> "__proto__" ->
  isUndefinedOrNull v = false ->
  exists evs s',
    store2 key v scope t s = mkResult (Normal tt) s' evs
    /\ well_formed s' = true
    /\ getCache scope s' !! key = Some (ToString v)
    /\ recorded_target key scope s' = Some (JNumber (target_number t)).
Proof.
  intros Hwf Hkey Hproto Hv.
  destruct (store2_well_formed key v scope t s Hwf Hkey)
    as (evs & s1 & Heq & Hwf1 & _ & _ & Hlook).
  exists evs, s1. split; [done|]. split; [done|]. rewrite Hv in Hlook.
  split; [done|].
  replace s1 with (final (store2 key v scope t s)) by (by rewrite Heq).
  rewrite store2_run by done. cbn [final].
  pose proof (well_formed_with_value key v scope s Hkey Hwf) as Hwfv.
  destruct (well_formed_recorded scope s (well_formed_scope scope s Hwf))
    as [Hall Hc].
  destruct (has_target key t scope s) eqn:Hhas.
  - rewrite recorded_target_with_value by done.
    apply has_target_true; [by apply well_formed_scope|done].
  - unfold recorded_target. rewrite recorded_write_targets.
    + apply own_define_eq.
    + apply all_targets_define; [apply is_target_number|done].
    + by apply Canonical_define.
Qed.

(** [store2] looks at its value through [String(value)] only. *)
Lemma store2_text key (v v' : value) scope t s :
  isUndefinedOrNull v = false -> isUndefinedOrNull v' = false ->
  ToString v' = ToString v ->
  store2 key v' scope t s = store2 key v scope t s.
Proof.
  intros Hv Hv' Heq. rewrite !store2_unfold by done.
  unfold with_value. by rewrite Heq.
Qed.

Lemma keys_of_recorded scope t s k :
  well_formed_cache (getCache scope s) = true ->
  exists ks,
    outcome (keys scope t s) = Normal ks
    /\ (k ∈ ks
        <-> recorded_target k scope s = Some (JNumber (target_number t))).
Proof.
  intros Hwf. destruct (well_formed_recorded scope s Hwf) as [Hall Hc].
  eexists. rewrite keys_run by done. split; [reflexivity|].
  by apply elem_of_collect_keys.
Qed.

End SingleCalls.

(** X3.  In every state, a [store2], [store] or [remove] under one key
    leaves what [get], [getBoolean] and [getNumber] return for every other
    key (other than [TARGET_KEY]) unchanged, in both partitions. *)
Theorem writes_leave_other_keys
    (s : service) (key k : string) (v : value) (scope scope' : StorageScope)
    (t : StorageTarget) (fs : option string) (fb : option bool)
    (fn : option number) :
  k <> TARGET_KEY -> k <> key ->
  let same s' :=
    outcome (get k scope' fs s') = outcome (get k scope' fs s)
    /\ outcome (getBoolean k scope' fb s') = outcome (getBoolean k scope' fb s)
    /\ outcome (getNumber k scope' fn s') = outcome (getNumber k scope' fn s) in
  same (final (store2 key v scope t s))
  /\ same (final (store key v scope s))
  /\ same (final (remove key scope s)).
Proof.
  intros Hk Hne. cbv zeta.
  assert (Hcall : forall c : call, call_key c = key ->
            outcome (get k scope' fs (final (run_call c s)))
            = outcome (get k scope' fs s)
            /\ outcome (getBoolean k scope' fb (final (run_call c s)))
               = outcome (getBoolean k scope' fb s)
            /\ outcome (getNumber k scope' fn (final (run_call c s)))
               = outcome (getNumber k scope' fn s)).
  { intros c Hc.
    destruct (run_call_lookup c s k scope' Hk) as [Hl _]; [congruence|].
    rewrite !get_run, !getBoolean_run, !getNumber_run. cbn [outcome].
    by rewrite Hl. }
  split; [|split].
  - by apply (Hcall (Store2 key v scope t)).
  - by apply (Hcall (Store key v scope)).
  - by apply (Hcall (Remove key scope)).
Qed.

(** Removing "flag" leaves what [get] returns for "fontSize". *)
Lemma writes_leave_other_keys_witness :
  outcome (get "fontSize" WORKSPACE None
             (final (remove "flag" WORKSPACE
                (mkService ∅ (<["fontSize" := "14"]> (<["flag" := "true"]> ∅)) []))))
  = outcome (get "fontSize" WORKSPACE None
               (mkService ∅ (<["fontSize" := "14"]> (<["flag" := "true"]> ∅)) [])).
Proof.
  refine (proj1 (proj2 (proj2
    (writes_leave_other_keys
       (mkService ∅ (<["fontSize" := "14"]> (<["flag" := "true"]> ∅)) [])
       "flag" "fontSize" VNull WORKSPACE WORKSPACE USER None None None _ _)))).
  - discriminate.
  - discriminate.
Defined.

(** X4.  Storing [undefined] or [null] is a removal: [store2] and [store]
    then run [remove] and nothing else, whatever target was passed; on a
    well-formed service the call returns, [get] gives the fallback
    afterwards and [keys] lists the key for neither target. *)
Theorem storing_null_removes
    (s : service) (key : string) (v : value) (scope : StorageScope)
    (t : StorageTarget) (fallback : option string) :
  well_formed s = true -> isUndefinedOrNull v = true ->
  let r := store2 key v scope t s in
  r = remove key scope s
  /\ store key v scope s = remove key scope s
  /\ outcome r = Normal tt
  /\ outcome (get key scope fallback (final r)) = Normal fallback
  /\ forall t' : StorageTarget,
       exists ks, outcome (keys scope t' (final r)) = Normal ks /\ key ∉ ks.
Proof.
  intros Hwf Hv. cbv zeta. unfold store. rewrite !store2_null by done.
  destruct (remove_forgets key scope s Hwf) as (evs & s' & -> & Hwf' & Hgone & Hrec).
  cbn [outcome final]. repeat split.
  - rewrite get_run. cbn [outcome]. by rewrite Hgone.
  - intros t'.
    destruct (keys_of_recorded scope t' s' key (well_formed_scope scope s' Hwf'))
      as (ks & Hks & Hin).
    exists ks. split; [done|]. rewrite Hin, Hrec. done.
Qed.

(** Storing [undefined] under a key that holds a value. *)
Lemma storing_null_removes_witness :
  outcome (get "flag" GLOBAL (Some "none")
             (final (store2 "flag" VUndefined GLOBAL USER
                (final (store2 "flag" (VBoolean true) GLOBAL USER
                          new_InMemoryStorageService)))))
  = Normal (Some "none").
Proof.
  refine (proj1 (proj2 (proj2 (proj2
    (storing_null_removes
       (final (store2 "flag" (VBoolean true) GLOBAL USER new_InMemoryStorageService))
       "flag" VUndefined GLOBAL USER (Some "none") _ _))))).
  - vm_compute. reflexivity.
  - reflexivity.
Defined.

(** X5.  On a well-formed service a second [remove] of the same key
    returns without firing an event and without changing the service; so
    does the first one when the key has neither a value nor a target. *)
Theorem remove_twice (s : service) (key : string) (scope : StorageScope) :
  well_formed s = true ->
  let r := remove key scope s in
  remove key scope (final r) = mkResult (Normal tt) (final r) []
  /\ (getCache scope s !! key = None -> recorded_target key scope s = None ->
      r = mkResult (Normal tt) s []).
Proof.
  intros Hwf. cbv zeta.
  assert (Hsilent : forall s0, well_formed s0 = true ->
            getCache scope s0 !! key = None -> recorded_target key scope s0 = None ->
            remove key scope s0 = mkResult (Normal tt) s0 []).
  { intros s0 Hwf0 Hnone Hrec. rewrite remove_run by done.
    rewrite without_value_absent by done. unfold is_recorded. rewrite Hrec, Hnone.
    rewrite bool_decide_eq_false_2 by (by intros [? ?]). done. }
  split; [|by apply Hsilent].
  destruct (remove_forgets key scope s Hwf) as (evs & s' & -> & Hwf' & Hgone & Hrec).
  cbn [final]. by apply Hsilent.
Qed.

(** A value is stored and removed; the second removal is silent. *)
Lemma remove_twice_witness :
  remove "flag" GLOBAL
    (final (remove "flag" GLOBAL
       (final (store2 "flag" (VBoolean true) GLOBAL USER new_InMemoryStorageService))))
  = mkResult (Normal tt)
      (final (remove "flag" GLOBAL
         (final (store2 "flag" (VBoolean true) GLOBAL USER
                   new_InMemoryStorageService)))) [].
Proof.
  refine (proj1
    (remove_twice
       (final (store2 "flag" (VBoolean true) GLOBAL USER new_InMemoryStorageService))
       "flag" GLOBAL _)).
  vm_compute. reflexivity.
Defined.

(* --------------------------------------------------------------------- *)
(** ** The lists [keys] returns *)
(* --------------------------------------------------------------------- *)

Section Lists.

Lemma Canonical_NoDup (ps : list (string * json)) : Canonical ps -> NoDup (map fst ps).
Proof.
  induction 1 as [|k v ps Hall _ IH]; simpl; constructor; [|done].
  rewrite list_elem_of_fmap. intros ([k' v'] & -> & Hin).
  rewrite Forall_forall in Hall. by destruct (Hall _ Hin).
Qed.

Lemma collect_keys_NoDup_acc t (ps : list (string * json)) : forall acc : list string,
  NoDup acc -> NoDup (map fst ps) ->
  (forall k, k ∈ acc -> k ∉ map fst ps) ->
  NoDup (foldl (fun keys entry =>
                  if strict_equals_number (snd entry) (target_number t)
                  then keys ++ [fst entry] else keys) acc ps).
Proof.
  induction ps as [|[k v] ps IH]; intros acc Hacc Hps Hdisj; [done|].
  simpl in *. inversion Hps as [|? ? Hk Hps']; subst.
  destruct (strict_equals_number v (target_number t)).
  - apply IH; [|done|].
    + apply NoDup_app. split; [done|]. split; [|apply NoDup_singleton].
      intros x Hx Hx'. apply list_elem_of_singleton in Hx' as ->.
      apply (Hdisj k Hx). left.
    + intros x Hx Hin. apply elem_of_app in Hx as [Hx|Hx].
      * apply (Hdisj x Hx). by right.
      * apply list_elem_of_singleton in Hx as ->. done.
  - apply IH; [done|done|]. intros x Hx Hin. apply (Hdisj x Hx). by right.
Qed.

Lemma collect_keys_NoDup t (ps : list (string * json)) :
  Canonical ps -> NoDup (collect_keys t ps).
Proof.
  intros Hc. apply collect_keys_NoDup_acc.
  - constructor.
  - by apply Canonical_NoDup.
  - intros k Hk. by apply not_elem_of_nil in Hk.
Qed.

End Lists.

(** X6.  When the text under [TARGET_KEY] is well formed, [keys] for
    [USER] and [keys] for [MACHINE] together list every key of the
    TargetMap, each exactly once: no key twice in a list and no key in
    both. *)
Theorem keys_split_the_target_map (s : service) (scope : StorageScope) :
  well_formed_cache (getCache scope s) = true ->
  exists us ms : list string,
    outcome (keys scope USER s) = Normal us
    /\ outcome (keys scope MACHINE s) = Normal ms
    /\ NoDup (us ++ ms)
    /\ forall k, k ∈ us ++ ms <-> is_Some (recorded_target k scope s).
Proof.
  intros Hwf. destruct (well_formed_recorded scope s Hwf) as [Hall Hc].
  eexists _, _. rewrite !keys_run by done. cbn [outcome].
  split; [reflexivity|]. split; [reflexivity|]. split.
  - apply NoDup_app. split; [by apply collect_keys_NoDup|].
    split; [|by apply collect_keys_NoDup].
    intros k Hu Hm. rewrite elem_of_collect_keys in Hu, Hm by done.
    rewrite Hu in Hm. discriminate.
  - intros k. rewrite elem_of_app, !elem_of_collect_keys by done.
    unfold recorded_target. split.
    + intros [-> | ->]; by eexists.
    + intros [j Hj]. pose proof (all_targets_own _ _ _ Hall Hj) as Ht.
      rewrite Hj. destruct j as [| |[| |[| [| |]|]|]| | |]; try discriminate; auto.
Qed.

(** Two keys, one for each target. *)
Lemma keys_split_the_target_map_witness :
  let s := final (store2 "b" (VString "2") GLOBAL MACHINE
             (final (store2 "a" (VString "1") GLOBAL USER
                       new_InMemoryStorageService))) in
  exists us ms : list string,
    outcome (keys GLOBAL USER s) = Normal us
    /\ outcome (keys GLOBAL MACHINE s) = Normal ms
    /\ NoDup (us ++ ms)
    /\ forall k, k ∈ us ++ ms <-> is_Some (recorded_target k GLOBAL s).
Proof.
  refine (keys_split_the_target_map
    (final (store2 "b" (VString "2") GLOBAL MACHINE
       (final (store2 "a" (VString "1") GLOBAL USER new_InMemoryStorageService))))
    GLOBAL _).
  vm_compute. reflexivity.
Defined.

(** X7.  On a well-formed service, for a key other than [TARGET_KEY] and
    ["__proto__"] and a value that is neither [undefined] nor [null]:
    storing the same value again with the other target moves the key.
    The second call returns and fires no [StorageChangeEvent] for the key,
    only the change of [TARGET_KEY] and one [StorageTargetChangeEvent];
    the value stays, and [keys] lists the key for the new target and no
    longer for the old one. *)
Theorem store2_with_another_target
    (s : service) (key : string) (v : value) (scope : StorageScope)
    (t : StorageTarget) (fallback : option string) :
  well_formed s = true -> key <> TARGET_KEY -> key <> "__proto__" ->
  isUndefinedOrNull v = false ->
  let s1 := final (store2 key v scope t s) in
  let r := store2 key v scope (other_target t) s1 in
  outcome r = Normal tt
  /\ fired r = [StorageChangeEvent TARGET_KEY scope; StorageTargetChangeEvent scope]
  /\ outcome (get key scope fallback (final r)) = Normal (Some (ToString v))
  /\ exists ks ks',
       outcome (keys scope (other_target t) (final r)) = Normal ks /\ key ∈ ks
       /\ outcome (keys scope t (final r)) = Normal ks' /\ key ∉ ks'.
Proof.
  intros Hwf Hkey Hproto Hv. cbv zeta.
  destruct (store2_records key v scope t s Hwf Hkey Hproto Hv)
    as (evs & s1 & -> & Hwf1 & Hlook1 & Hrec1).
  cbn [final].
  destruct (store2_records key v scope (other_target t) s1 Hwf1 Hkey Hproto Hv)
    as (evs2 & s2 & Heq2 & Hwf2 & Hlook2 & Hrec2).
  assert (Hevs : evs2 = target_events scope).
  { replace evs2 with (fired (store2 key v scope (other_target t) s1))
      by (by rewrite Heq2).
    rewrite store2_run by done. cbn [fired].
    rewrite bool_decide_eq_true_2 by done. unfold has_target. rewrite Hrec1.
    by destruct t. }
  rewrite Heq2. cbn [outcome final fired]. split; [done|]. split; [by rewrite Hevs|].
  split; [rewrite get_run; cbn [outcome]; by rewrite Hlook2|].
  destruct (keys_of_recorded scope (other_target t) s2 key
              (well_formed_scope scope s2 Hwf2)) as (ks & Hks & Hin).
  destruct (keys_of_recorded scope t s2 key
              (well_formed_scope scope s2 Hwf2)) as (ks' & Hks' & Hin').
  exists ks, ks'. split; [done|]. split; [by apply Hin|]. split; [done|].
  rewrite Hin', Hrec2. by destruct t.
Qed.

(** The same font size, first for the user, then for the machine. *)
Lemma store2_with_another_target_witness :
  fired (store2 "fontSize" (VNumber (Int 14)) WORKSPACE MACHINE
           (final (store2 "fontSize" (VNumber (Int 14)) WORKSPACE USER
                     new_InMemoryStorageService)))
  = [StorageChangeEvent TARGET_KEY WORKSPACE; StorageTargetChangeEvent WORKSPACE].
Proof.
  refine (proj1 (proj2
    (store2_with_another_target new_InMemoryStorageService "fontSize"
       (VNumber (Int 14)) WORKSPACE USER None _ _ _ _))).
  - reflexivity.
  - discriminate.
  - discriminate.
  - reflexivity.
Defined.

(** X8.  [doStore] compares texts, not values.  On a well-formed service,
    for a key other than [TARGET_KEY]: after [store2] of a value that is
    neither [undefined] nor [null], [store2] of any such value with the
    same [String(value)] and the same target (the number 1 and the string
    "1", say) fires nothing and changes nothing. *)
Theorem store2_of_the_same_text
    (s : service) (key : string) (v v' : value) (scope : StorageScope)
    (t : StorageTarget) :
  well_formed s = true -> key <> TARGET_KEY ->
  isUndefinedOrNull v = false -> isUndefinedOrNull v' = false ->
  ToString v' = ToString v ->
  let s1 := final (store2 key v scope t s) in
  store2 key v' scope t s1 = mkResult (Normal tt) s1 [].
Proof.
  intros Hwf Hkey Hv Hv' Heq. cbv zeta.
  rewrite (store2_text key v v') by done. by apply store2_again.
Qed.

(** The number 1, then the string "1". *)
Lemma store2_of_the_same_text_witness :
  store2 "zoom" (VString "1") GLOBAL USER
    (final (store2 "zoom" (VNumber (Int 1)) GLOBAL USER new_InMemoryStorageService))
  = mkResult (Normal tt)
      (final (store2 "zoom" (VNumber (Int 1)) GLOBAL USER new_InMemoryStorageService))
      [].
Proof.
  refine (store2_of_the_same_text new_InMemoryStorageService "zoom"
            (VNumber (Int 1)) (VString "1") GLOBAL USER _ _ _ _ _).
  - reflexivity.
  - discriminate.
  - reflexivity.
  - reflexivity.
  - reflexivity.
Defined.

(** X9.  What is stored is [String(value)], and each getter reads that
    text in its own way, whatever was stored.  For a key other than
    [TARGET_KEY], in every state: after [store2] of a value that is
    neither [undefined] nor [null], [get] returns its text, [getBoolean]
    whether that text is "true", [getNumber] the [parseInt] of it.  So a
    boolean read with [getNumber] is [NaN], the string "true" read with
    [getBoolean] is true, and a boolean read with [get] is "true" or
    "false". *)
Theorem getters_reinterpret_the_stored_text
    (s : service) (key : string) (scope : StorageScope) (t : StorageTarget) :
  key <> TARGET_KEY ->
  let stored v := final (store2 key v scope t s) in
  (forall v, isUndefinedOrNull v = false ->
     (forall fallback,
        outcome (get key scope fallback (stored v)) = Normal (Some (ToString v)))
     /\ (forall fallback,
           outcome (getBoolean key scope fallback (stored v))
           = Normal (Some (bool_decide (ToString v = "true"))))
     /\ (forall fallback,
           outcome (getNumber key scope fallback (stored v))
           = Normal (Some (parseInt (ToString v)))))
  /\ (forall (b : bool) fallback,
        outcome (getNumber key scope fallback (stored (VBoolean b))) = Normal (Some NaN))
  /\ (forall fallback,
        outcome (getBoolean key scope fallback (stored (VString "true")))
        = Normal (Some true))
  /\ (forall (b : bool) fallback,
        outcome (get key scope fallback (stored (VBoolean b)))
        = Normal (Some (if b then "true" else "false"))).
Proof.
  intros Hkey. cbv zeta.
  assert (Hlook : forall v, isUndefinedOrNull v = false ->
            getCache scope (final (store2 key v scope t s)) !! key = Some (ToString v)).
  { intros v Hv. by apply store2_stores. }
  split; [|split; [|split]].
  - intros v Hv. split; [|split].
    + intros fb. rewrite get_run. cbn [outcome]. by rewrite Hlook.
    + intros fb. rewrite getBoolean_run. cbn [outcome]. rewrite Hlook by done.
      do 2 f_equal. destruct (String.eqb_spec (ToString v) "true").
      * by rewrite bool_decide_eq_true_2.
      * by rewrite bool_decide_eq_false_2.
    + intros fb. rewrite getNumber_run. cbn [outcome]. by rewrite Hlook.
  - intros b fb. rewrite getNumber_run. cbn [outcome]. rewrite Hlook by done.
    by destruct b.
  - intros fb. rewrite getBoolean_run. cbn [outcome]. by rewrite Hlook.
  - intros b fb. rewrite get_run. cbn [outcome]. by rewrite Hlook.
Qed.

(** The boolean true read with [getNumber]. *)
Lemma getters_reinterpret_the_stored_text_witness :
  outcome (getNumber "flag" GLOBAL (Some (Int 0))
             (final (store2 "flag" (VBoolean true) GLOBAL USER
                       new_InMemoryStorageService)))
  = Normal (Some NaN).
Proof.
  refine (proj1 (proj2
    (getters_reinterpret_the_stored_text new_InMemoryStorageService "flag" GLOBAL USER
       _)) true (Some (Int 0))).
  discriminate.
Defined.

(* --------------------------------------------------------------------- *)
(** ** The first target of a partition *)
(* --------------------------------------------------------------------- *)

Section OnePartition.

Implicit Types (s : service) (scope : StorageScope) (key k : string).





End OnePartition.







(* --------------------------------------------------------------------- *)
(** ** Sequences of operations *)
(* --------------------------------------------------------------------- *)

Section Sequences.

Implicit Types (s : service) (scope : StorageScope) (key k : string).

Lemma recorded_needs_text k scope s :
  is_Some (recorded_target k scope s) -> is_Some (getCache scope s !! TARGET_KEY).
Proof.
  unfold recorded_target, recorded, key_targets.
  destruct (getCache scope s !! TARGET_KEY) as [raw|]; [by eexists|].
  simpl. by intros [? ?].
Qed.

(** What a write makes of the target of the key it addresses. *)
Lemma run_call_records (c : call) s :
  well_formed s = true -> call_key c <> TARGET_KEY -> call_key c <> "__proto__" ->
  recorded_target (call_key c) (call_scope c) (final (run_call c s))
  = (fun t => JNumber (target_number t)) <$> call_target c.
Proof.
  intros Hwf Hkey Hproto.
  assert (Hremove : forall key scope,
            recorded_target key scope (final (remove key scope s)) = None).
  { intros key scope.
    by destruct (remove_forgets key scope s Hwf) as (? & ? & -> & _ & _ & ?). }
  assert (Hstore : forall key v scope t, key <> TARGET_KEY -> key <> "__proto__" ->
            recorded_target key scope (final (store2 key v scope t s))
            = (fun t => JNumber (target_number t))
                <$> (if isUndefinedOrNull v then None else Some t)).
  { intros key v scope t Hk Hp. destruct (isUndefinedOrNull v) eqn:Hv.
    - rewrite store2_null by done. apply Hremove.
    - by destruct (store2_records key v scope t s Hwf Hk Hp Hv)
        as (? & ? & -> & _ & _ & ?). }
  destruct c as [key v scope|key v scope t|key scope]; simpl in *.
  - by apply Hstore.
  - by apply Hstore.
  - apply Hremove.
Qed.

Lemma not_addresses (c : call) key scope :
  addresses c key scope = false -> call_key c <> key \/ call_scope c <> scope.
Proof.
  unfold addresses. intros Hfalse. apply bool_decide_eq_false_1 in Hfalse.
  destruct (decide (call_key c = key)) as [Hk|]; [|by left].
  right. intros Hs. by apply Hfalse.
Qed.

Lemma recorded_target_apply_calls (cs : list call) key scope : forall s,
  well_formed s = true -> key <> TARGET_KEY -> key <> "__proto__" ->
  Forall (fun c => call_key c <> TARGET_KEY) cs ->
  recorded_target key scope (apply_calls cs s)
  = match last_write key scope cs with
    | Some w => (fun t => JNumber (target_number t)) <$> w
    | None => recorded_target key scope s
    end.
Proof.
  induction cs as [|c cs IH]; intros s Hwf Hkey Hproto Hall; [done|].
  inversion Hall as [|? ? Hc Hrest]; subst.
  destruct (run_call_ok c s Hwf Hc) as (_ & _ & _ & Hwf1 & _).
  change (apply_calls (c :: cs) s) with (apply_calls cs (final (run_call c s))).
  rewrite IH by done. simpl.
  destruct (last_write key scope cs) as [w|]; [done|].
  destruct (addresses c key scope) eqn:Haddr.
  - apply bool_decide_eq_true_1 in Haddr as [<- <-]. by apply run_call_records.
  - apply not_addresses in Haddr.
    by destruct (run_call_other_keys c s key scope Hwf Hc Haddr) as (_ & _ & ->).
Qed.

Lemma run_call_backed (c : call) s :
  well_formed s = true -> call_key c <> TARGET_KEY -> backed s ->
  backed (final (run_call c s)).
Proof.
  intros Hwf Hc Hb scope k Hrec.
  destruct (decide (k = TARGET_KEY)) as [->|Hk]; [by eapply recorded_needs_text|].
  destruct (run_call_ok c s Hwf Hc) as (_ & _ & _ & Hwf1 & _ & Hframe & Hwrites).
  destruct (addresses c k scope) eqn:Haddr.
  - apply bool_decide_eq_true_1 in Haddr as [<- <-].
    assert (Hremove : forall key scope0,
              is_Some (recorded_target key scope0 (final (remove key scope0 s))) ->
              is_Some (getCache scope0 (final (remove key scope0 s)) !! key)).
    { intros key scope0 [j Hj].
      destruct (remove_forgets key scope0 s Hwf) as (? & ? & Heq & _ & _ & Hnone).
      rewrite Heq in Hj. cbn [final] in Hj. congruence. }
    assert (Hstore : forall key v scope0 t, key <> TARGET_KEY ->
              is_Some (recorded_target key scope0 (final (store2 key v scope0 t s))) ->
              is_Some (getCache scope0 (final (store2 key v scope0 t s)) !! key)).
    { intros key v scope0 t Hkey Hsome. destruct (isUndefinedOrNull v) eqn:Hv.
      - rewrite store2_null in * by done. by apply Hremove.
      - rewrite store2_stores by done. by eexists. }
    destruct c as [key v scope0|key v scope0 t|key scope0]; simpl in *.
    + by apply Hstore.
    + by apply Hstore.
    + by apply Hremove.
  - apply not_addresses in Haddr.
    destruct (run_call_other_keys c s k scope Hwf Hc Haddr) as (_ & _ & Hsame).
    rewrite Hsame in Hrec. rewrite Hframe; [by apply Hb|done|].
    destruct Haddr; [left|right]; congruence.
Qed.

Lemma apply_calls_backed (cs : list call) : forall s,
  well_formed s = true -> Forall (fun c => call_key c <> TARGET_KEY) cs ->
  backed s -> backed (apply_calls cs s).
Proof.
  induction cs as [|c cs IH]; intros s Hwf Hall Hb; [done|].
  inversion Hall as [|? ? Hc Hrest]; subst.
  destruct (run_call_ok c s Hwf Hc) as (_ & _ & _ & Hwf1 & _).
  change (apply_calls (c :: cs) s) with (apply_calls cs (final (run_call c s))).
  apply IH; [done|done|]. by apply run_call_backed.
Qed.

Lemma scripts_avoid s (reason : WillSaveStateReason) :
  Forall (fun l => forall reason, Forall (fun c => call_key c <> TARGET_KEY) (l reason))
         (onWillSaveState s) ->
  Forall (Forall (fun c => call_key c <> TARGET_KEY)) (scripts reason s).
Proof.
  intros Hsubs. unfold scripts. rewrite Forall_map.
  eapply Forall_impl; [exact Hsubs|]. by intros l ?.
Qed.

Lemma run_operation_backed (op : operation) s :
  avoids TARGET_KEY op -> law_abiding s -> backed s -> backed (run_operation op s).
Proof.
  intros Hop [Hwf Hsubs] Hb. destruct op as [c| | |l]; simpl in *.
  - by apply run_call_backed.
  - pose proof (scripts_avoid s NONE Hsubs) as Hscripts.
    destruct (flush_run s Hwf Hscripts) as (evs & _ & -> & _).
    cbn [final]. apply apply_calls_backed; [done| |done].
    by apply Forall_concat.
  - done.
  - intros scope k. specialize (Hb scope k). by destruct scope.
Qed.

Lemma reachable_law_abiding (ops : list operation) : forall s,
  Forall (avoids TARGET_KEY) ops -> law_abiding s -> backed s ->
  law_abiding (run_operations ops s) /\ backed (run_operations ops s).
Proof.
  induction ops as [|op ops IH]; intros s Hall Hs Hb; [done|].
  inversion Hall; subst. simpl. apply IH; [done| |].
  - by apply run_operation_well_formed.
  - by apply run_operation_backed.
Qed.

Lemma new_service_law_abiding :
  law_abiding new_InMemoryStorageService /\ backed new_InMemoryStorageService.
Proof.
  split; [split; [done|constructor]|]. intros scope k [j Hj]. by destruct scope.
Qed.

End Sequences.

(** X13.  In every state a new service reaches through writes, removals,
    flushes, migrations and subscriptions that never name [TARGET_KEY],
    each key [keys] lists has a value: [get] without a fallback returns a
    text for it. *)
Theorem listed_keys_have_values
    (ops : list operation) (scope : StorageScope) (t : StorageTarget) :
  Forall (avoids TARGET_KEY) ops ->
  let s := run_operations ops new_InMemoryStorageService in
  exists ks,
    outcome (keys scope t s) = Normal ks
    /\ forall k, k ∈ ks ->
         exists text, outcome (get k scope None s) = Normal (Some text).
Proof.
  intros Hops. cbv zeta.
  destruct new_service_law_abiding as [Hlaw0 Hb0].
  destruct (reachable_law_abiding ops _ Hops Hlaw0 Hb0) as [[Hwf _] Hb].
  set (s := run_operations ops new_InMemoryStorageService) in *.
  pose proof (well_formed_scope scope s Hwf) as Hwfc.
  destruct (well_formed_recorded scope s Hwfc) as [Hall Hc].
  eexists. rewrite keys_run by done. split; [reflexivity|].
  intros k Hk. rewrite elem_of_collect_keys in Hk by done.
  destruct (Hb scope k) as [text Htext]; [by eexists|].
  exists text. rewrite get_run. cbn [outcome]. by rewrite Htext.
Qed.

(** Two writes, a removal and a flush. *)
Lemma listed_keys_have_values_witness :
  let s := run_operations
             [Call (Store2 "fontSize" (VNumber (Int 14)) WORKSPACE USER);
              Call (Store "flag" (VBoolean true) WORKSPACE);
              Call (Remove "flag" WORKSPACE); Flush]
             new_InMemoryStorageService in
  exists ks,
    outcome (keys WORKSPACE USER s) = Normal ks
    /\ forall k, k ∈ ks ->
         exists text, outcome (get k WORKSPACE None s) = Normal (Some text).
Proof.
  refine (listed_keys_have_values
            [Call (Store2 "fontSize" (VNumber (Int 14)) WORKSPACE USER);
             Call (Store "flag" (VBoolean true) WORKSPACE);
             Call (Remove "flag" WORKSPACE); Flush] WORKSPACE USER _).
  repeat constructor; simpl; discriminate.
Defined.

(** X14.  After a script of writes that never name [TARGET_KEY], run on a
    well-formed service, [keys(scope, t)] lists a key (other than
    [TARGET_KEY] and ["__proto__"]) exactly when the latest write that
    addressed it in that partition stored a value with target [t]
    ([store] counts as [MACHINE]; a removal, or storing [undefined] or
    [null], unlists it); a key no write addressed is listed as before. *)
Theorem keys_lists_the_latest_writes
    (s : service) (cs : list call) (key : string) (scope : StorageScope)
    (t : StorageTarget) :
  well_formed s = true -> key <> TARGET_KEY -> key <> "__proto__" ->
  Forall (fun c => call_key c <> TARGET_KEY) cs ->
  exists ks0 ks,
    outcome (keys scope t s) = Normal ks0
    /\ outcome (run_calls cs s) = Normal tt
    /\ outcome (keys scope t (final (run_calls cs s))) = Normal ks
    /\ (key ∈ ks <-> match last_write key scope cs with
                     | Some w => w = Some t
                     | None => key ∈ ks0
                     end).
Proof.
  intros Hwf Hkey Hproto Hall.
  destruct (run_calls_ok cs s Hwf Hall) as (evs & -> & _ & Hwf' & _).
  cbn [outcome final].
  destruct (keys_of_recorded scope t s key (well_formed_scope scope s Hwf))
    as (ks0 & Hks0 & Hin0).
  destruct (keys_of_recorded scope t (apply_calls cs s) key
              (well_formed_scope scope _ Hwf')) as (ks & Hks & Hin).
  exists ks0, ks. split; [done|]. split; [done|]. split; [done|].
  rewrite Hin, recorded_target_apply_calls by done.
  destruct (last_write key scope cs) as [[t'|]|]; simpl.
  - split; [intros [= H]; f_equal; by destruct t', t|by intros [= ->]].
  - split; discriminate.
  - by rewrite Hin0.
Qed.

(** "fontSize" is written for the user and then through [store]: it is
    listed for the machine, not for the user. *)
Lemma keys_lists_the_latest_writes_witness :
  let cs := [Store2 "fontSize" (VNumber (Int 14)) WORKSPACE USER;
             Store "fontSize" (VNumber (Int 15)) WORKSPACE;
             Store2 "flag" (VBoolean true) WORKSPACE USER;
             Remove "flag" WORKSPACE] in
  exists ks0 ks,
    outcome (keys WORKSPACE USER new_InMemoryStorageService) = Normal ks0
    /\ outcome (run_calls cs new_InMemoryStorageService) = Normal tt
    /\ outcome (keys WORKSPACE USER (final (run_calls cs new_InMemoryStorageService)))
       = Normal ks
    /\ ("fontSize" ∈ ks <-> Some MACHINE = Some USER).
Proof.
  refine (keys_lists_the_latest_writes new_InMemoryStorageService
            [Store2 "fontSize" (VNumber (Int 14)) WORKSPACE USER;
             Store "fontSize" (VNumber (Int 15)) WORKSPACE;
             Store2 "flag" (VBoolean true) WORKSPACE USER;
             Remove "flag" WORKSPACE] "fontSize" WORKSPACE USER _ _ _ _).
  - reflexivity.
  - discriminate.
  - discriminate.
  - repeat constructor; discriminate.
Defined.

(** X15.  In every state a new service reaches through operations that
    never name [TARGET_KEY], no call throws: [store2] and [store] under any
    key but [TARGET_KEY], [remove], [keys] and [flush] all return. *)
Theorem reachable_states_never_throw (ops : list operation) :
  Forall (avoids TARGET_KEY) ops ->
  let s := run_operations ops new_InMemoryStorageService in
  (forall key v scope t,
     key <> TARGET_KEY -> outcome (store2 key v scope t s) = Normal tt)
  /\ (forall key v scope,
        key <> TARGET_KEY -> outcome (store key v scope s) = Normal tt)
  /\ (forall key scope, outcome (remove key scope s) = Normal tt)
  /\ (forall scope t, exists ks, outcome (keys scope t s) = Normal ks)
  /\ outcome (flush s) = Normal (Resolved tt).
Proof.
  intros Hops. cbv zeta.
  destruct new_service_law_abiding as [Hlaw0 Hb0].
  destruct (reachable_law_abiding ops _ Hops Hlaw0 Hb0) as [[Hwf Hsubs] _].
  set (s := run_operations ops new_InMemoryStorageService) in *.
  split; [|split; [|split; [|split]]].
  - intros key v scope t Hkey. by apply store2_returns.
  - intros key v scope Hkey. by apply store2_returns.
  - intros key scope. by rewrite remove_run.
  - intros scope t. eexists. rewrite keys_run by (by apply well_formed_scope). done.
  - destruct (flush_run s Hwf (scripts_avoid s NONE Hsubs)) as (evs & _ & -> & _).
    done.
Qed.

(** A session with a subscriber, a write under ["__proto__"] and the
    removal of a key that was never stored. *)
Lemma reachable_states_never_throw_witness :
  outcome (flush
    (run_operations
       [Subscribe (fun _ => [Store2 "saved" (VNumber (Int 1)) WORKSPACE MACHINE]);
        Call (Store2 "__proto__" (VString "x") GLOBAL USER);
        Call (Remove "absent" GLOBAL); Flush]
       new_InMemoryStorageService))
  = Normal (Resolved tt).
Proof.
  refine (proj2 (proj2 (proj2 (proj2
    (reachable_states_never_throw
       [Subscribe (fun _ => [Store2 "saved" (VNumber (Int 1)) WORKSPACE MACHINE]);
        Call (Store2 "__proto__" (VString "x") GLOBAL USER);
        Call (Remove "absent" GLOBAL); Flush] _))))).
  repeat constructor; simpl; discriminate.
Defined.

(* --------------------------------------------------------------------- *)
(** ** Events and order *)
(* --------------------------------------------------------------------- *)

Section Traces.

Implicit Types (s : service) (scope : StorageScope) (key k : string).

Lemma define_property_last k (v : json) (ps : list (string * json)) :
  own_property k ps = None -> array_index k = None ->
  define_property k v ps = ps ++ [(k, v)].
Proof.
  intros Hnone Hidx. induction ps as [|[k' v'] ps IH]; [done|].
  simpl in *. destruct (String.eqb k k'); [done|].
  unfold precedes at 1. rewrite Hidx. by rewrite IH.
Qed.

Lemma collect_keys_snoc t t' (ps : list (string * json)) k :
  collect_keys t' (ps ++ [(k, JNumber (target_number t))])
  = collect_keys t' ps ++ (if bool_decide (t = t') then [k] else []).
Proof.
  unfold collect_keys. rewrite foldl_app. simpl.
  destruct t, t'; simpl; by rewrite ?app_nil_r.
Qed.

Lemma is_recorded_without_value key scope s :
  key <> TARGET_KEY ->
  is_recorded key scope (without_value key scope s) = is_recorded key scope s.
Proof.
  intros Hkey. unfold is_recorded. by rewrite recorded_target_without_value.
Qed.

Lemma own_text_from_json scope s :
  getCache scope s !! TARGET_KEY = Some (JSON_stringify (JObject (recorded scope s))) ->
  well_formed_cache (getCache scope s) = true ->
  from_json scope s = true.
Proof.
  intros Htext Hwf.
  destruct (well_formed_cases scope s Hwf)
    as (r & ps & Hkt & Hps & Hall & Hc & [(-> & -> & Hfj) | (-> & Hfj)]); [|done].
  rewrite Hps in Htext. unfold key_targets in Hkt. rewrite Htext in Hkt.
  by vm_compute in Hkt.
Qed.

End Traces.

(** X16.  The events of a write, in order.  On a well-formed service and
    for a key other than [TARGET_KEY] and ["__proto__"], [store2] fires a
    [StorageChangeEvent] for the key when the stored text changes, and
    then the change of [TARGET_KEY] with its [StorageTargetChangeEvent]
    when the recorded target changes, and nothing else; [remove] fires the
    first when the key had a value and then the other two when it had a
    target. *)
Theorem events_of_a_write
    (s : service) (key : string) (v : value) (scope : StorageScope)
    (t : StorageTarget) :
  well_formed s = true -> key <> TARGET_KEY -> key <> "__proto__" ->
  isUndefinedOrNull v = false ->
  fired (store2 key v scope t s)
  = (if bool_decide (getCache scope s !! key = Some (ToString v)) then []
     else [StorageChangeEvent key scope])
    ++ (if has_target key t scope s then []
        else [StorageChangeEvent TARGET_KEY scope; StorageTargetChangeEvent scope])
  /\ fired (remove key scope s)
     = (if bool_decide (is_Some (getCache scope s !! key))
        then [StorageChangeEvent key scope] else [])
       ++ (if is_recorded key scope s
           then [StorageChangeEvent TARGET_KEY scope; StorageTargetChangeEvent scope]
           else []).
Proof.
  intros Hwf Hkey Hproto Hv.
  assert (Hne : String.eqb key TARGET_KEY = false) by (by apply String.eqb_neq).
  split.
  - rewrite store2_run by done. cbn [fired].
    unfold value_events, change_events. rewrite Hne. by case_bool_decide.
  - rewrite remove_run by done. cbn [fired]. rewrite is_recorded_without_value by done.
    unfold value_events, change_events. rewrite Hne. by case_bool_decide.
Qed.

(** The first write to a new service fires all three events. *)
Lemma events_of_a_write_witness :
  fired (store2 "fontSize" (VNumber (Int 14)) WORKSPACE USER new_InMemoryStorageService)
  = [StorageChangeEvent "fontSize" WORKSPACE; StorageChangeEvent TARGET_KEY WORKSPACE;
     StorageTargetChangeEvent WORKSPACE].
Proof.
  refine (proj1
    (events_of_a_write new_InMemoryStorageService "fontSize" (VNumber (Int 14))
       WORKSPACE USER _ _ _ _)).
  - reflexivity.
  - discriminate.
  - discriminate.
  - reflexivity.
Defined.

(** X17.  [keys] keeps the order in which the keys were first recorded.
    On a well-formed service, for a key other than [TARGET_KEY] and
    ["__proto__"] that has no target yet and is not an array index (those
    come first in an object, in ascending order), [store2] of a value
    that is neither [undefined] nor [null] appends the key to [keys] of
    its target and leaves [keys] of the other target as it was. *)
Theorem store2_lists_a_new_key_last
    (s : service) (key : string) (v : value) (scope : StorageScope)
    (t : StorageTarget) :
  well_formed s = true -> key <> TARGET_KEY -> key <> "__proto__" ->
  isUndefinedOrNull v = false ->
  recorded_target key scope s = None -> array_index key = None ->
  let s' := final (store2 key v scope t s) in
  exists ks ks',
    outcome (keys scope t s) = Normal ks
    /\ outcome (keys scope t s') = Normal (ks ++ [key])
    /\ outcome (keys scope (other_target t) s) = Normal ks'
    /\ outcome (keys scope (other_target t) s') = Normal ks'.
Proof.
  intros Hwf Hkey Hproto Hv Hrec Hidx. cbv zeta.
  pose proof (well_formed_scope scope s Hwf) as Hwfc.
  destruct (well_formed_recorded scope s Hwfc) as [Hall Hc].
  destruct (store2_well_formed key v scope t s Hwf Hkey) as (evs & s1 & Heq & Hwf1 & _).
  assert (Hfinal : final (store2 key v scope t s) = s1) by (by rewrite Heq).
  pose proof (well_formed_scope scope s1 Hwf1) as Hwfc1.
  assert (Hrec1 : recorded scope s1
                  = recorded scope s ++ [(key, JNumber (target_number t))]).
  { rewrite <- Hfinal. rewrite store2_run by done. cbn [final].
    unfold has_target. rewrite Hrec.
    rewrite recorded_write_targets.
    - by apply define_property_last.
    - apply all_targets_define; [apply is_target_number|done].
    - by apply Canonical_define. }
  rewrite Hfinal. eexists _, _. rewrite !keys_run by done. cbn [outcome].
  rewrite Hrec1, !collect_keys_snoc.
  rewrite bool_decide_eq_true_2 by done.
  rewrite bool_decide_eq_false_2 by (by destruct t). by rewrite app_nil_r.
Qed.

(** "a" is recorded after "b" and is listed after it. *)
Lemma store2_lists_a_new_key_last_witness :
  let s := final (store2 "b" (VString "2") GLOBAL USER new_InMemoryStorageService) in
  exists ks ks',
    outcome (keys GLOBAL USER s) = Normal ks
    /\ outcome (keys GLOBAL USER (final (store2 "a" (VString "1") GLOBAL USER s)))
       = Normal (ks ++ ["a"])
    /\ outcome (keys GLOBAL MACHINE s) = Normal ks'
    /\ outcome (keys GLOBAL MACHINE (final (store2 "a" (VString "1") GLOBAL USER s)))
       = Normal ks'.
Proof.
  refine (store2_lists_a_new_key_last
    (final (store2 "b" (VString "2") GLOBAL USER new_InMemoryStorageService))
    "a" (VString "1") GLOBAL USER _ _ _ _ _ _).
  - vm_compute. reflexivity.
  - discriminate.
  - discriminate.
  - reflexivity.
  - vm_compute. reflexivity.
  - vm_compute. reflexivity.
Defined.

(** X18.  On a well-formed service where the text under [TARGET_KEY] is
    the text the service writes for the map it holds, and where that map
    records no target for ["__proto__"]: [store2] under the key
    ["__proto__"], of a value that is neither [undefined] nor [null],
    returns and stores the value but records no target, because the
    assignment goes to the accessor inherited from [Object.prototype].
    The call fires at most the [StorageChangeEvent] of the value, and
    [keys] returns what it returned before, without ["__proto__"]. *)
Theorem proto_key_gets_no_target
    (s : service) (v : value) (scope : StorageScope) (t : StorageTarget) :
  well_formed s = true -> isUndefinedOrNull v = false ->
  getCache scope s !! TARGET_KEY = Some (JSON_stringify (JObject (recorded scope s))) ->
  recorded_target "__proto__" scope s = None ->
  let r := store2 "__proto__" v scope t s in
  outcome r = Normal tt
  /\ getCache scope (final r) = <["__proto__" := ToString v]> (getCache scope s)
  /\ fired r
     = (if bool_decide (getCache scope s !! "__proto__" = Some (ToString v)) then []
        else [StorageChangeEvent "__proto__" scope])
  /\ forall t' : StorageTarget,
       outcome (keys scope t' (final r)) = outcome (keys scope t' s)
       /\ exists ks, outcome (keys scope t' s) = Normal ks /\ "__proto__" ∉ ks.
Proof.
  intros Hwf Hv Htext Hrec. cbv zeta.
  assert (Hkey : "__proto__" <> TARGET_KEY) by discriminate.
  pose proof (well_formed_with_value "__proto__" v scope s Hkey Hwf) as Hwf1.
  set (s1 := with_value "__proto__" v scope s) in *.
  assert (Hsame : getCache scope s1 !! TARGET_KEY = getCache scope s !! TARGET_KEY)
    by (by apply target_text_with_value).
  assert (Hrecd : recorded scope s1 = recorded scope s)
    by (by apply recorded_with_value).
  assert (Hfj : from_json scope s1 = true).
  { apply own_text_from_json; [|by apply well_formed_scope].
    by rewrite Hsame, Hrecd. }
  rewrite store2_unfold by done. cbv zeta. fold s1.
  rewrite updateKeyTarget_store_proto;
    [|by apply well_formed_scope|done
     |by unfold s1; rewrite recorded_target_with_value].
  rewrite Hrecd, doStore_same by (by rewrite Hsame). cbn [outcome final fired].
  split; [done|]. split; [by unfold s1; rewrite getCache_with_value|].
  split.
  - rewrite app_nil_r. by case_bool_decide.
  - intros t'. pose proof (well_formed_scope scope s Hwf) as Hwfc.
    destruct (well_formed_recorded scope s Hwfc) as [Hall Hc].
    rewrite !keys_run by (by apply well_formed_scope). cbn [outcome].
    rewrite Hrecd. split; [done|]. eexists. split; [reflexivity|].
    rewrite elem_of_collect_keys by done. unfold recorded_target in Hrec.
    by rewrite Hrec.
Qed.

(** After "a" was stored, a write under ["__proto__"] fires the change of
    the value and nothing else. *)
Lemma proto_key_gets_no_target_witness :
  let s := final (store2 "a" (VString "1") GLOBAL USER new_InMemoryStorageService) in
  fired (store2 "__proto__" (VString "1") GLOBAL USER s)
  = [StorageChangeEvent "__proto__" GLOBAL].
Proof.
  refine (proj1 (proj2 (proj2
    (proto_key_gets_no_target
       (final (store2 "a" (VString "1") GLOBAL USER new_InMemoryStorageService))
       (VString "1") GLOBAL USER _ _ _ _)))).
  - vm_compute. reflexivity.
  - reflexivity.
  - vm_compute. reflexivity.
  - vm_compute. reflexivity.
Defined.

(* --------------------------------------------------------------------- *)
(** ** logStorage *)
(* --------------------------------------------------------------------- *)

Section Logging.





End Logging.


